(** * imap-hibernate: the hibernated IMAP client core

    A shallow embedding of [src/imap-hibernate/imap-client.c] and the
    properties of its input parser, of the unhibernation broker, of the
    retry queue and of the session registry. *)

From Stdlib Require Import ZArith Ascii String Lia.
From stdpp Require Import gmap strings list fin_maps.

Local Open Scope Z_scope.

(** ** Bytes and C strings *)

Definition SP : ascii := " "%char.
Definition TAB : ascii := "009"%char.
Definition LF : ascii := "010"%char.
Definition CR : ascii := "013"%char.
Definition NUL : ascii := "000"%char.

(** A byte buffer is a list of bytes; a string literal of the source is the
    list of its characters. *)
Definition bytes (s : string) : list ascii := list_ascii_of_string s.

Definition byte_val (c : ascii) : Z := Z.of_nat (nat_of_ascii c).

(** [size_t] is a 64-bit unsigned integer: subtraction wraps around. *)
Definition SIZE_MAX : Z := 2 ^ 64 - 1.
Definition size_sub (a b : Z) : Z := (a - b) mod 2 ^ 64.

(** Modelled from the spec: lib/ is not among the sources, and the spec has
    the parser compare its keywords case-insensitively, byte by byte.
    [i_toupper] is the C-locale [toupper], which only moves the letters
    a..z. *)
Definition i_toupper (c : ascii) : Z :=
  let v := byte_val c in
  if (97 <=? v) && (v <=? 122) then v - 32 else v.

(** ** Reads that can leave the buffer

    [data] is the memory from the current pointer to the end of the buffer
    handed to the parser.  Reading [data[i]] past that end is reported as
    [OutOfRange] instead of being given a value. *)
Inductive outcome (A : Type) : Type :=
| Ok (a : A)
| OutOfRange.
Arguments Ok {A} a.
Arguments OutOfRange {A}.

Definition obind {A B} (m : outcome A) (k : A -> outcome B) : outcome B :=
  match m with
  | Ok a => k a
  | OutOfRange => OutOfRange
  end.

Notation "x <~ m ;; k" := (obind m (fun x => k))
  (at level 100, m at next level, right associativity).

Definition rd (data : list ascii) (i : nat) : outcome ascii :=
  match data !! i with
  | Some c => Ok c
  | None => OutOfRange
  end.

(** Modelled from the spec: [i_memcasecmp(p1, p2, size)] of lib/, not among
    the sources, compares [size] bytes, upper-cased, and returns the first
    non-zero difference. *)
Fixpoint i_memcasecmp (p1 p2 : list ascii) (size : nat) : outcome Z :=
  match size with
  | O => Ok 0
  | S size' =>
      a <~ rd p1 0 ;;
      b <~ rd p2 0 ;;
      let ret := i_toupper a - i_toupper b in
      if ret =? 0 then i_memcasecmp (drop 1 p1) (drop 1 p2) size' else Ok ret
  end.

(** A C string literal in memory: its characters and the terminating NUL. *)
Definition literal (s : string) : list ascii := bytes s ++ [NUL].

(** The C string that starts at the first byte of [mem]: it stops at the
    first NUL byte, if there is one. *)
Fixpoint c_str (mem : list ascii) : list ascii :=
  match mem with
  | [] => []
  | c :: mem' => if Ascii.eqb c NUL then [] else c :: c_str mem'
  end.

(** Modelled from the spec: [t_strdup_until(start, end)] of lib/, not among
    the sources, copies the bytes between the two pointers and terminates
    them; what it returns is read as a C string. *)
Definition t_strdup_until (start end_ : list ascii) : list ascii :=
  c_str (take (length start - length end_)%nat start).

(** ** The input parser *)

Inductive imap_client_input_state :=
| IMAP_CLIENT_INPUT_STATE_UNKNOWN
| IMAP_CLIENT_INPUT_STATE_BAD
| IMAP_CLIENT_INPUT_STATE_DONE_LF
| IMAP_CLIENT_INPUT_STATE_DONE_CRLF
| IMAP_CLIENT_INPUT_STATE_DONEIDLE.

(** The loop [while (data[0] != ' ' && data[0] != '\r' && data[0] != '\t')
    { data++; size--; }].  The loop tests the byte under the pointer and
    never looks at [size]; it returns the pointer and the size it stops
    with. *)
Definition ends_tag (c : ascii) : bool :=
  Ascii.eqb c SP || Ascii.eqb c CR || Ascii.eqb c TAB.

Fixpoint skip_tag (data : list ascii) (size : Z) : outcome (list ascii * Z) :=
  match data with
  | [] => OutOfRange
  | c :: data' =>
      if ends_tag c then Ok (data, size) else skip_tag data' (size_sub size 1)
  end.

(** The parser returns the state and, as [tag_r], the tag it stored (only
    the DONEIDLE branch stores one). *)
Definition parsed : Type := imap_client_input_state * option (list ascii).

Definition imap_client_input_parse (data : list ascii) (size : Z)
  : outcome parsed :=
  let state := IMAP_CLIENT_INPUT_STATE_DONE_LF in
  (* skip over DONE[\r]\n *)
  r <~ i_memcasecmp data (literal "DONE") (Z.to_nat (Z.min size 4)) ;;
  if negb (r =? 0) then Ok (IMAP_CLIENT_INPUT_STATE_BAD, None) else
  if size <=? 4 then Ok (IMAP_CLIENT_INPUT_STATE_UNKNOWN, None) else
  let data := drop 4 data in
  let size := size_sub size 4 in
  c <~ rd data 0 ;;
  let '(state, data, size) :=
    if Ascii.eqb c CR
    then (IMAP_CLIENT_INPUT_STATE_DONE_CRLF, drop 1 data, size_sub size 1)
    else (state, data, size) in
  if size =? 0 then Ok (IMAP_CLIENT_INPUT_STATE_UNKNOWN, None) else
  c <~ rd data 0 ;;
  if negb (Ascii.eqb c LF) then Ok (IMAP_CLIENT_INPUT_STATE_BAD, None) else
  let data := drop 1 data in
  let size := size_sub size 1 in
  if size =? 0 then Ok (state, None) else
  let tag_start := data in
  (* skip over tag *)
  stop <~ skip_tag data size ;;
  let '(data, size) := stop in
  let tag_end := data in
  if size =? 0 then Ok (state, None) else
  c <~ rd data 0 ;;
  if negb (Ascii.eqb c SP) then Ok (IMAP_CLIENT_INPUT_STATE_BAD, None) else
  let data := drop 1 data in
  let size := size_sub size 1 in
  (* skip over IDLE[\r]\n *)
  if size <=? 4 then Ok (state, None) else
  r <~ i_memcasecmp data (literal "IDLE") 4 ;;
  if negb (r =? 0) then Ok (state, None) else
  let data := drop 4 data in
  let size := size_sub size 4 in
  c <~ rd data 0 ;;
  let '(data, size) :=
    if Ascii.eqb c CR then (drop 1 data, size_sub size 1) else (data, size) in
  if size =? 1 then
    c <~ rd data 0 ;;
    if Ascii.eqb c LF
    then Ok (IMAP_CLIENT_INPUT_STATE_DONEIDLE,
             Some (t_strdup_until tag_start tag_end))
    else Ok (state, None)
  else Ok (state, None).

(** The parser as the read handler calls it: on the [size] bytes the input
    stream holds. *)
Definition parse_buffer (data : list ascii) : outcome parsed :=
  imap_client_input_parse data (Z.of_nat (length data)).

(** What the input stream shows on successive wakeups while nothing is
    consumed: the chunks received so far, concatenated. *)
Fixpoint accumulate (seen : list ascii) (chunks : list (list ascii))
  : list (list ascii) :=
  match chunks with
  | [] => []
  | ch :: chunks' => (seen ++ ch) :: accumulate (seen ++ ch) chunks'
  end.

(** A keyword written in any mix of upper and lower case. *)
Definition spells (kw : string) (w : list ascii) : Prop :=
  i_toupper <$> w = byte_val <$> bytes kw.

Definition tag_ok (tag : list ascii) : Prop :=
  Forall (fun c => ends_tag c = false) tag.

(** An optional carriage return, as a list of zero or one byte. *)
Definition opt_cr (cr : bool) : list ascii := if cr then [CR] else [].

Definition done_state (cr : bool) : imap_client_input_state :=
  if cr then IMAP_CLIENT_INPUT_STATE_DONE_CRLF
  else IMAP_CLIENT_INPUT_STATE_DONE_LF.

Definition done_line (d : list ascii) (cr : bool) : list ascii :=
  d ++ opt_cr cr ++ [LF].

Definition doneidle_seq (d : list ascii) (cr1 : bool) (tag i : list ascii)
    (cr2 : bool) : list ascii :=
  done_line d cr1 ++ tag ++ [SP] ++ i ++ opt_cr cr2 ++ [LF].

(** ** Sessions

    The constants of the source. *)

Definition IMAP_CLIENT_MOVE_BACK_WITH_INPUT_TIMEOUT_SECS : Z := 10.
Definition IMAP_CLIENT_MOVE_BACK_WITHOUT_INPUT_TIMEOUT_SECS : Z := 60 * 5.
Definition IMAP_UNHIBERNATE_RETRY_MSECS : Z := 100.
Definition IMAP_CLIENT_BUFFER_FULL_ERROR : string :=
  "Client output buffer is full".
Definition IMAP_CLIENT_UNHIBERNATE_ERROR : string :=
  "Failed to unhibernate client".
Definition imap_still_here_text : list ascii :=
  bytes "* OK Still here" ++ [CR; LF].

(** Modelled from the spec: the two messages of master-service.h, which is
    not part of the sources at hand; the spec gives the kick line as
    "* BYE Shutting down / Kicked.". *)
Definition MASTER_SERVICE_SHUTTING_DOWN_MSG : string := "Shutting down".
Definition MASTER_SERVICE_USER_KICKED_MSG : string := "Kicked".

(** [struct imap_client_notify]. [notify_io] tells whether the watcher is
    registered (the pointer is not NULL). *)
Record imap_client_notify := {
  notify_fd : Z;
  notify_io : bool
}.

(** The fields of [struct imap_client_state] that imap-client.c reads or
    writes outside the handoff record. *)
Record imap_client_state := {
  username : string;
  tag : option (list ascii);
  anvil_conn_guid : Z;
  anvil_sent : bool;
  idle_cmd : bool;
  imap_idle_notify_interval : Z
}.

(** [struct imap_client].  Pointers to library objects are kept as what the
    code can tell of them: [io] and [master_conn] say whether the pointer is
    set, [to_keepalive] holds the interval the timer was armed with, [input]
    holds the bytes the input stream has buffered and not yet skipped. *)
Record imap_client := {
  state : imap_client_state;
  notifys : list imap_client_notify;
  move_back_start : Z;
  fd : Z;
  io : bool;
  input : list ascii;
  to_keepalive : option Z;
  master_conn : bool;
  next_read_threshold : Z;
  bad_done : bool;
  idle_done : bool;
  unhibernate_queued : bool;
  input_pending : bool;
  shutdown_fd_on_destroy : bool
}.

(** What the core does to the outside, in the order it does it. The calls on
    the client's own descriptor and those on a notify descriptor are kept
    apart. *)
Inductive effect :=
| E_disconnected (client : nat) (reason : string)
| E_unhibernate_error (client : nat) (error : list ascii)
| E_retry (client : nat) (error : list ascii)
| E_anvil_disconnect (client : nat) (guid : Z)
| E_master_init (client : nat)
| E_master_free (client : nat)
| E_fd_send (fd : Z)
| E_shutdown (fd : Z)
| E_close (fd : Z)
| E_io_remove (fd : Z)
| E_notify_io_remove (fd : Z)
| E_notify_close (fd : Z)
| E_send (fd : Z) (data : list ascii)
| E_keepalive (client : nat) (interval : Z).

(** The process-wide state: the memory of the sessions (a session is named by
    its address), the registry list [imap_clients], the retry queue, the
    shared retry timer and the clock of the event loop. *)
Record core := {
  heap : gmap nat imap_client;
  imap_clients : list nat;
  unhibernate_queue : list nat;
  to_unhibernate : bool;
  ioloop_time : Z;
  trace : list effect
}.

(** Modelled from the spec: the streams, the master connection and the
    kernel are not among the sources; a callback only sees what they
    answer.  [env_chunk] are the bytes that arrived on the client socket,
    the other fields are the return values of [i_stream_read_bytes] or
    [i_stream_read], [o_stream_get_buffer_used_size], [o_stream_flush],
    [o_stream_send_str], [imap_master_connection_init] (with its error),
    [fd_send] and [io_stream_get_disconnect_reason]. *)
Record io_env := {
  env_chunk : list ascii;
  env_read_ret : Z;
  env_buffer_used : Z;
  env_flush_ret : Z;
  env_send_ret : Z;
  env_master_ret : Z;
  env_master_error : list ascii;
  env_fd_send_ret : Z;
  env_disconnect_reason : string
}.

(** *** Field updates *)

Definition set_tag (v : option (list ascii)) (s : imap_client_state)
  : imap_client_state :=
  Build_imap_client_state (username s) v (anvil_conn_guid s) (anvil_sent s)
    (idle_cmd s) (imap_idle_notify_interval s).

Definition set_anvil_sent (v : bool) (s : imap_client_state)
  : imap_client_state :=
  Build_imap_client_state (username s) (tag s) (anvil_conn_guid s) v
    (idle_cmd s) (imap_idle_notify_interval s).

Definition set_state (v : imap_client_state) (c : imap_client)
  : imap_client :=
  Build_imap_client v (notifys c) (move_back_start c) (fd c) (io c) (input c)
    (to_keepalive c) (master_conn c) (next_read_threshold c) (bad_done c)
    (idle_done c) (unhibernate_queued c) (input_pending c)
    (shutdown_fd_on_destroy c).

Definition set_notifys (v : list imap_client_notify) (c : imap_client)
  : imap_client :=
  Build_imap_client (state c) v (move_back_start c) (fd c) (io c) (input c)
    (to_keepalive c) (master_conn c) (next_read_threshold c) (bad_done c)
    (idle_done c) (unhibernate_queued c) (input_pending c)
    (shutdown_fd_on_destroy c).

Definition set_move_back_start (v : Z) (c : imap_client) : imap_client :=
  Build_imap_client (state c) (notifys c) v (fd c) (io c) (input c)
    (to_keepalive c) (master_conn c) (next_read_threshold c) (bad_done c)
    (idle_done c) (unhibernate_queued c) (input_pending c)
    (shutdown_fd_on_destroy c).

Definition set_io (v : bool) (c : imap_client) : imap_client :=
  Build_imap_client (state c) (notifys c) (move_back_start c) (fd c) v
    (input c) (to_keepalive c) (master_conn c) (next_read_threshold c)
    (bad_done c) (idle_done c) (unhibernate_queued c) (input_pending c)
    (shutdown_fd_on_destroy c).

Definition set_input (v : list ascii) (c : imap_client) : imap_client :=
  Build_imap_client (state c) (notifys c) (move_back_start c) (fd c) (io c) v
    (to_keepalive c) (master_conn c) (next_read_threshold c) (bad_done c)
    (idle_done c) (unhibernate_queued c) (input_pending c)
    (shutdown_fd_on_destroy c).

Definition set_to_keepalive (v : option Z) (c : imap_client) : imap_client :=
  Build_imap_client (state c) (notifys c) (move_back_start c) (fd c) (io c)
    (input c) v (master_conn c) (next_read_threshold c) (bad_done c)
    (idle_done c) (unhibernate_queued c) (input_pending c)
    (shutdown_fd_on_destroy c).

Definition set_master_conn (v : bool) (c : imap_client) : imap_client :=
  Build_imap_client (state c) (notifys c) (move_back_start c) (fd c) (io c)
    (input c) (to_keepalive c) v (next_read_threshold c) (bad_done c)
    (idle_done c) (unhibernate_queued c) (input_pending c)
    (shutdown_fd_on_destroy c).

Definition set_next_read_threshold (v : Z) (c : imap_client) : imap_client :=
  Build_imap_client (state c) (notifys c) (move_back_start c) (fd c) (io c)
    (input c) (to_keepalive c) (master_conn c) v (bad_done c) (idle_done c)
    (unhibernate_queued c) (input_pending c) (shutdown_fd_on_destroy c).

Definition set_bad_done (v : bool) (c : imap_client) : imap_client :=
  Build_imap_client (state c) (notifys c) (move_back_start c) (fd c) (io c)
    (input c) (to_keepalive c) (master_conn c) (next_read_threshold c) v
    (idle_done c) (unhibernate_queued c) (input_pending c)
    (shutdown_fd_on_destroy c).

Definition set_idle_done (v : bool) (c : imap_client) : imap_client :=
  Build_imap_client (state c) (notifys c) (move_back_start c) (fd c) (io c)
    (input c) (to_keepalive c) (master_conn c) (next_read_threshold c)
    (bad_done c) v (unhibernate_queued c) (input_pending c)
    (shutdown_fd_on_destroy c).

Definition set_unhibernate_queued (v : bool) (c : imap_client)
  : imap_client :=
  Build_imap_client (state c) (notifys c) (move_back_start c) (fd c) (io c)
    (input c) (to_keepalive c) (master_conn c) (next_read_threshold c)
    (bad_done c) (idle_done c) v (input_pending c) (shutdown_fd_on_destroy c).

Definition set_input_pending (v : bool) (c : imap_client) : imap_client :=
  Build_imap_client (state c) (notifys c) (move_back_start c) (fd c) (io c)
    (input c) (to_keepalive c) (master_conn c) (next_read_threshold c)
    (bad_done c) (idle_done c) (unhibernate_queued c) v
    (shutdown_fd_on_destroy c).

Definition set_shutdown_fd_on_destroy (v : bool) (c : imap_client)
  : imap_client :=
  Build_imap_client (state c) (notifys c) (move_back_start c) (fd c) (io c)
    (input c) (to_keepalive c) (master_conn c) (next_read_threshold c)
    (bad_done c) (idle_done c) (unhibernate_queued c) (input_pending c) v.

Definition set_heap (v : gmap nat imap_client) (w : core) : core :=
  Build_core v (imap_clients w) (unhibernate_queue w) (to_unhibernate w)
    (ioloop_time w) (trace w).

Definition set_imap_clients (v : list nat) (w : core) : core :=
  Build_core (heap w) v (unhibernate_queue w) (to_unhibernate w)
    (ioloop_time w) (trace w).

Definition set_unhibernate_queue (v : list nat) (w : core) : core :=
  Build_core (heap w) (imap_clients w) v (to_unhibernate w) (ioloop_time w)
    (trace w).

Definition set_to_unhibernate (v : bool) (w : core) : core :=
  Build_core (heap w) (imap_clients w) (unhibernate_queue w) v (ioloop_time w)
    (trace w).

Definition set_ioloop_time (v : Z) (w : core) : core :=
  Build_core (heap w) (imap_clients w) (unhibernate_queue w)
    (to_unhibernate w) v (trace w).

Definition set_trace (v : list effect) (w : core) : core :=
  Build_core (heap w) (imap_clients w) (unhibernate_queue w)
    (to_unhibernate w) (ioloop_time w) v.

Definition modify (client : nat) (f : imap_client -> imap_client) (w : core)
  : core :=
  set_heap (alter f client (heap w)) w.

Definition emit (es : list effect) (w : core) : core :=
  set_trace (trace w ++ es) w.

(** *** The retry queue *)

(** Modelled from the spec: lib/priorityq.c is not among the sources; the
    spec has a min-priority queue keyed by deadline.  The queue is kept as
    the list of its items, smallest first by the comparator at the time of
    insertion. *)
Fixpoint priorityq_insert (cmp : nat -> nat -> Z) (item : nat) (q : list nat)
  : list nat :=
  match q with
  | [] => [item]
  | x :: q' =>
      if cmp item x <? 0 then item :: q else x :: priorityq_insert cmp item q'
  end.

(** Modelled from the spec: [priorityq_remove] takes the one item out. *)
Fixpoint priorityq_delete (item : nat) (q : list nat) : list nat :=
  match q with
  | [] => []
  | x :: q' => if Nat.eqb x item then q' else x :: priorityq_delete item q'
  end.

(** Modelled from the spec: [priorityq_peek] gives the head, or NULL. *)
Definition priorityq_peek (q : list nat) : option nat := head q.

Definition timeout_secs (pending : bool) : Z :=
  if pending then IMAP_CLIENT_MOVE_BACK_WITH_INPUT_TIMEOUT_SECS
  else IMAP_CLIENT_MOVE_BACK_WITHOUT_INPUT_TIMEOUT_SECS.

Definition client_unhibernate_cmp (c1 c2 : imap_client) : Z :=
  let t1 := move_back_start c1 + timeout_secs (input_pending c1) in
  let t2 := move_back_start c2 + timeout_secs (input_pending c2) in
  if t1 <? t2 then -1 else if t1 >? t2 then 1 else 0.

(** The comparator as the queue calls it, on two item pointers. *)
Definition cmp_items (h : gmap nat imap_client) (p1 p2 : nat) : Z :=
  match h !! p1, h !! p2 with
  | Some c1, Some c2 => client_unhibernate_cmp c1 c2
  | _, _ => 0
  end.

Definition priorityq_add (item : nat) (w : core) : core :=
  set_unhibernate_queue
    (priorityq_insert (cmp_items (heap w)) item (unhibernate_queue w)) w.

Definition priorityq_remove (item : nat) (w : core) : core :=
  set_unhibernate_queue (priorityq_delete item (unhibernate_queue w)) w.

Definition imap_move_has_reached_timeout (now : Z) (client : imap_client)
  : bool :=
  let max_secs := timeout_secs (input_pending client) in
  negb (move_back_start client =? 0)
  && (now - move_back_start client >? max_secs).

(** The deadline the spec speaks of. *)
Definition deadline (c : imap_client) : Z :=
  move_back_start c + timeout_secs (input_pending c).

(** *** Stopping and destroying a session

    A function that takes a session pointer is only ever called with a live
    one; on a pointer that is not in [heap] the functions below leave the
    state as it is. *)

(** Modelled from the spec: [io_remove] and [i_close_fd] of lib/ are not
    among the sources.  [io_remove(&notify->io); i_close_fd(&notify->fd);]
    for one notify: a watcher that is there is removed, a descriptor other
    than -1 is closed, and both fields are reset. *)
Definition notify_stop (n : imap_client_notify)
  : imap_client_notify * list effect :=
  ({| notify_fd := -1; notify_io := false |},
   (if notify_io n then [E_notify_io_remove (notify_fd n)] else [])
   ++ (if notify_fd n =? -1 then [] else [E_notify_close (notify_fd n)])).

Definition imap_client_stop_notify_listening (client : nat) (w : core)
  : core :=
  match heap w !! client with
  | None => w
  | Some c =>
      let stopped := notify_stop <$> notifys c in
      emit (concat (snd <$> stopped))
        (modify client (set_notifys (fst <$> stopped)) w)
  end.

(** Modelled from the spec: [io_remove(&client->io)] of lib/ removes the
    watcher, if there is one, and leaves the pointer NULL. *)
Definition io_remove_client (client : nat) (w : core) : core :=
  match heap w !! client with
  | None => w
  | Some c =>
      emit (if io c then [E_io_remove (fd c)] else [])
        (modify client (set_io false) w)
  end.

Definition imap_client_stop (client : nat) (w : core) : core :=
  match heap w !! client with
  | None => w
  | Some c =>
      let w :=
        if unhibernate_queued c
        then modify client (set_unhibernate_queued false)
               (priorityq_remove client w)
        else w in
      let w := io_remove_client client w in
      let w := modify client (set_to_keepalive None) w in
      imap_client_stop_notify_listening client w
  end.

(** [DLLIST_REMOVE(&imap_clients, client)]. *)
Definition registry_remove (client : nat) (w : core) : core :=
  set_imap_clients (filter (fun p => p <> client) (imap_clients w)) w.

(** Modelled from the spec: [i_close_fd(&client->fd)] of lib/ closes the
    descriptor unless it is already -1. *)
Definition close_client_fd (client : nat) (w : core) : core :=
  match heap w !! client with
  | None => w
  | Some c =>
      if fd c =? -1 then w else emit [E_close (fd c)] w
  end.

(** [imap_client_destroy].  The log prefix, the ioloop context, the event
    and the count of client connections of the master service are left out;
    the session's memory is released by [pool_unref] at the end. *)
Definition imap_client_destroy (client : nat) (reason : option string)
    (w : core) : core :=
  match heap w !! client with
  | None => w
  | Some c =>
      let w :=
        match reason with
        | Some r => emit [E_disconnected client r] w
        | None => w
        end in
      let w :=
        if anvil_sent (state c)
        then emit [E_anvil_disconnect client (anvil_conn_guid (state c))] w
        else w in
      let w :=
        if master_conn c
        then emit [E_master_free client]
               (modify client (set_master_conn false) w)
        else w in
      let w :=
        if shutdown_fd_on_destroy c then emit [E_shutdown (fd c)] w else w in
      let w := registry_remove client w in
      let w := imap_client_stop client w in
      let w := close_client_fd client w in
      set_heap (delete client (heap w)) w
  end.

Definition imap_client_disconnected (e : io_env) (client : nat) (w : core)
  : core :=
  imap_client_destroy client (Some (env_disconnect_reason e)) w.

Definition imap_client_unhibernate_failed (client : nat) (error : list ascii)
    (w : core) : core :=
  imap_client_destroy client (Some IMAP_CLIENT_UNHIBERNATE_ERROR)
    (emit [E_unhibernate_error client error] w).

(** *** The unhibernation broker *)

Definition imap_client_try_move_back (e : io_env) (client : nat) (w : core)
  : core * bool :=
  match heap w !! client with
  | None => (w, true)
  | Some c =>
      if env_buffer_used e >? 0 then
        (* there is data buffered, so we have to disconnect you *)
        (imap_client_destroy client (Some IMAP_CLIENT_BUFFER_FULL_ERROR) w,
         true)
      else
        let w := emit [E_master_init client] w in
        let ret := env_master_ret e in
        if ret >? 0 then
          (* success *)
          (imap_client_stop client (modify client (set_master_conn true) w),
           true)
        else if (ret <? 0) || imap_move_has_reached_timeout (ioloop_time w) c
        then
          (* failed to connect to the imap-master socket *)
          (imap_client_unhibernate_failed client (env_master_error e) w, true)
        else
          let w := emit [E_retry client (env_master_error e)] w in
          let w := if input_pending c then io_remove_client client w else w in
          let w := imap_client_stop_notify_listening client w in
          (w, false)
  end.

Definition imap_client_move_back (e : io_env) (client : nat) (w : core)
  : core :=
  let '(w, moved) := imap_client_try_move_back e client w in
  if moved then w else
  (* imap-master socket is busy. retry in a while. *)
  match heap w !! client with
  | None => w
  | Some c =>
      let w :=
        if move_back_start c =? 0
        then modify client (set_move_back_start (ioloop_time w)) w
        else w in
      let w :=
        if unhibernate_queued c then w
        else priorityq_add client
               (modify client (set_unhibernate_queued true) w) in
      if to_unhibernate w then w else set_to_unhibernate true w
  end.

(** *** The read handlers *)

Definition imap_client_add_idle_keepalive_timeout (client : nat) (w : core)
  : core :=
  match heap w !! client with
  | None => w
  | Some c =>
      let interval := imap_idle_notify_interval (state c) in
      if interval =? 0 then w
      else emit [E_keepalive client interval]
             (modify client (set_to_keepalive (Some interval)) w)
  end.

(** Modelled from the spec: [i_stream_skip(client->input, n)] of lib/ drops
    the first [n] buffered bytes. *)
Definition i_stream_skip (n : nat) (client : nat) (w : core) : core :=
  modify client (fun c => set_input (drop n (input c)) c) w.

(** Modelled from the spec: [o_stream_send_str] of lib/ returns the number
    of bytes the stream took, or a negative value. *)
Definition o_stream_send_str (ret : Z) (client : nat) (str : list ascii)
    (w : core) : core :=
  match heap w !! client with
  | None => w
  | Some c =>
      if ret <? 0 then w else emit [E_send (fd c) (take (Z.to_nat ret) str)] w
  end.

(** The text of [t_strdup_printf("%s OK Idle completed.\r\n+ idling\r\n",
    old_tag)]; a NULL tag prints as the C library prints it. *)
Definition idle_completed (old_tag : option (list ascii)) : list ascii :=
  default (bytes "(null)") old_tag
  ++ bytes " OK Idle completed." ++ [CR; LF] ++ bytes "+ idling" ++ [CR; LF].

(** How the [switch] of [imap_client_input_idle_cmd] is left: by a [return],
    or by a [break] with the value of [done]. *)
Inductive flow :=
| Return (w : core)
| Break (w : core) (done : bool).

(** [imap_client_input_idle_cmd].  [i_stream_read_bytes] shows the bytes
    buffered so far with those that just arrived.  A handler gives no state
    when the run leaves the model: the parser read outside its buffer, or an
    [i_assert] failed. *)
Definition imap_client_input_idle_cmd (e : io_env) (client : nat) (w : core)
  : option core :=
  match heap w !! client with
  | None => Some w
  | Some c =>
      (* i_stream_read_bytes *)
      let data := input c ++ env_chunk e in
      let w := modify client (set_input data) w in
      let size := Z.of_nat (length data) in
      if size =? 0 then
        Some (if env_read_ret e <? 0 then imap_client_disconnected e client w
              else w)
      else
        let w := modify client (set_next_read_threshold 0) w in
        fl ←
          match imap_client_input_parse data size with
          | OutOfRange => None
          | Ok (IMAP_CLIENT_INPUT_STATE_UNKNOWN, _) =>
              (* we haven't received a full DONE[\r]\n yet - wait *)
              Some (Return (modify client (set_next_read_threshold size) w))
          | Ok (IMAP_CLIENT_INPUT_STATE_BAD, _) =>
              (* invalid input - return this to the imap process *)
              Some (Break (modify client (set_bad_done true) w) true)
          | Ok (IMAP_CLIENT_INPUT_STATE_DONE_LF, _) =>
              Some (Break (i_stream_skip (4 + 1) client w) true)
          | Ok (IMAP_CLIENT_INPUT_STATE_DONE_CRLF, _) =>
              Some (Break (i_stream_skip (4 + 2) client w) true)
          | Ok (IMAP_CLIENT_INPUT_STATE_DONEIDLE, None) => None
          | Ok (IMAP_CLIENT_INPUT_STATE_DONEIDLE, Some new_tag) =>
              (* we received DONE+IDLE, so the client simply wanted to notify
                 us that it's still there. continue hibernation. *)
              let old_tag := tag (state c) in
              let w :=
                modify client
                  (fun c => set_state (set_tag (Some new_tag) (state c)) c) w in
              let output := idle_completed old_tag in
              let ret := env_flush_ret e in
              let '(w, ret) :=
                if ret >? 0
                then (o_stream_send_str (env_send_ret e) client output w,
                      env_send_ret e)
                else (w, ret) in
              if ret <? 0 then
                Some (Return (imap_client_disconnected e client w))
              else if negb (ret =? Z.of_nat (length output)) then
                (* disconnect *)
                Some (Return (imap_client_destroy client
                                (Some IMAP_CLIENT_BUFFER_FULL_ERROR) w))
              else
                Some (Break (i_stream_skip (length data) client w) false)
          end;
        match fl with
        | Return w => Some w
        | Break w true =>
            Some (imap_client_move_back e client
                    (modify client
                       (fun c => set_input_pending true (set_idle_done true c))
                       w))
        | Break w false =>
            Some (imap_client_add_idle_keepalive_timeout client w)
        end
  end.

Definition imap_client_input_nonidle (e : io_env) (client : nat) (w : core)
  : core :=
  match heap w !! client with
  | None => w
  | Some c =>
      let w := modify client (set_input (input c ++ env_chunk e)) w in
      if env_read_ret e <? 0 then imap_client_disconnected e client w
      else imap_client_move_back e client
             (modify client (set_input_pending true) w)
  end.

Definition imap_client_input_notify (e : io_env) (client : nat) (w : core)
  : core :=
  imap_client_move_back e client w.

Definition keepalive_timeout (e : io_env) (client : nat) (w : core)
  : option core :=
  (* do not send this if there is data buffered *)
  let ret := env_flush_ret e in
  if ret <? 0 then Some (imap_client_disconnected e client w)
  else if ret =? 0 then Some w
  else
    let ret := env_send_ret e in
    let w := o_stream_send_str ret client imap_still_here_text w in
    if ret <? 0 then Some (imap_client_disconnected e client w)
    else if ret =? Z.of_nat (length imap_still_here_text)
    then Some (imap_client_add_idle_keepalive_timeout client w)
    else None.

(** *** The callbacks of the master connection

    The text of the handoff record is not modelled: the send callback is
    kept as the descriptor it passes and the flag it sets. *)
Definition imap_client_move_back_send_callback (e : io_env) (client : nat)
    (w : core) : option core :=
  match heap w !! client with
  | None => Some w
  | Some c =>
      if negb (env_buffer_used e =? 0) then None else
      (* send the fd first *)
      let w := emit [E_fd_send (fd c)] w in
      let ret := env_fd_send_ret e in
      if ret <? 0 then
        Some (imap_client_unhibernate_failed client (bytes "fd_send() failed")
                w)
      else if ret >? 0 then
        Some (modify client (set_shutdown_fd_on_destroy true) w)
      else None
  end.

Definition imap_client_move_back_read_callback (client : nat)
    (line : list ascii) (w : core) : core :=
  if negb (Ascii.eqb (default NUL (head line)) "+"%char) then
    (* failed - FIXME: retry later? *)
    imap_client_unhibernate_failed client (drop 1 line) w
  else
    imap_client_destroy client None
      (modify client (set_shutdown_fd_on_destroy false) w).

(** *** Creation *)

Definition imap_client_create (client : nat) (fd : Z)
    (st : imap_client_state) (anvil_ok : bool) (w : core) : core :=
  let c :=
    {| state := if anvil_ok then set_anvil_sent true st else st;
       notifys := [];
       move_back_start := 0;
       fd := fd;
       io := false;
       input := [];
       to_keepalive := None;
       master_conn := false;
       next_read_threshold := 0;
       bad_done := false;
       idle_done := false;
       unhibernate_queued := false;
       input_pending := false;
       shutdown_fd_on_destroy := false |} in
  set_imap_clients (client :: imap_clients w)
    (set_heap (<[client := c]> (heap w)) w).

Definition imap_client_add_notify_fd (client : nat) (fd : Z) (w : core)
  : core :=
  modify client
    (fun c =>
       set_notifys (notifys c ++ [{| notify_fd := fd; notify_io := false |}])
         c) w.

Definition imap_client_create_finish (client : nat) (w : core) : core :=
  let w := modify client (set_io true) w in
  let w := imap_client_add_idle_keepalive_timeout client w in
  modify client
    (fun c =>
       set_notifys
         ((fun n => {| notify_fd := notify_fd n; notify_io := true |})
            <$> notifys c) c) w.

(** *** The retry tick

    [env] gives the answers the libraries make during the attempt on each
    session.  The [while] loop is run with fuel; [None] is a loop that has
    not ended within it. *)
Fixpoint unhibernate_loop (fuel : nat) (env : nat -> io_env) (w : core)
  : option core :=
  match priorityq_peek (unhibernate_queue w) with
  | None => Some (set_to_unhibernate false w)
  | Some client =>
      match fuel with
      | O => None
      | S fuel' =>
          let '(w', moved) := imap_client_try_move_back (env client) client w in
          if moved then unhibernate_loop fuel' env w' else Some w'
      end
  end.

Definition imap_clients_unhibernate (env : nat -> io_env) (w : core)
  : option core :=
  unhibernate_loop (length (unhibernate_queue w)) env w.

(** *** Registry and kick *)

Definition bye_text (msg : string) : list ascii :=
  bytes "* BYE " ++ bytes msg ++ bytes "." ++ [CR; LF].

Definition imap_client_kick (client : nat) (shutdown : bool) (w : core)
  : core :=
  match heap w !! client with
  | None => w
  | Some c =>
      let w :=
        emit [E_send (fd c) (bye_text MASTER_SERVICE_SHUTTING_DOWN_MSG)] w in
      imap_client_destroy client
        (Some (if shutdown then MASTER_SERVICE_SHUTTING_DOWN_MSG
               else MASTER_SERVICE_USER_KICKED_MSG)) w
  end.

(** Modelled from the spec: lib/guid.c is not among the sources.  A
    [guid_128_t] is kept as the integer its 16 bytes spell; the empty guid
    is all zero. *)
Definition guid_128_is_empty (guid : Z) : bool := guid =? 0.

Definition kick_matches (user : string) (conn_guid : Z) (c : imap_client)
  : bool :=
  String.eqb (username (state c)) user
  && (guid_128_is_empty conn_guid
      || (anvil_conn_guid (state c) =? conn_guid)).

(** The [for] loop of [imap_clients_kick], over the list as it stands when
    the loop starts: [next] is read before the session is kicked, and a kick
    takes only the kicked session out of the list. *)
Fixpoint kick_loop (user : string) (conn_guid : Z) (clients : list nat)
    (count : Z) (w : core) : core * Z :=
  match clients with
  | [] => (w, count)
  | client :: next =>
      let w :=
        match heap w !! client with
        | Some c =>
            if kick_matches user conn_guid c
            then imap_client_kick client false w
            else w
        | None => w
        end in
      kick_loop user conn_guid next count w
  end.

Definition imap_clients_kick (user : string) (conn_guid : Z) (w : core)
  : core * Z :=
  let count := 0 in
  kick_loop user conn_guid (imap_clients w) count w.

Definition imap_clients_init (now : Z) : core :=
  {| heap := ∅;
     imap_clients := [];
     unhibernate_queue := [];
     to_unhibernate := false;
     ioloop_time := now;
     trace := [] |}.

(** *** The event loop

    One callback of the event loop, with the answers of the outside. *)
Inductive event :=
| EvCreate (client : nat) (fd : Z) (st : imap_client_state)
    (notify_fds : list Z) (anvil_ok : bool)
| EvClientInput (client : nat) (e : io_env)
| EvNotify (client : nat) (e : io_env)
| EvKeepalive (client : nat) (e : io_env)
| EvUnhibernate (env : nat -> io_env)
| EvMasterSend (client : nat) (e : io_env)
| EvMasterRead (client : nat) (line : list ascii)
| EvKick (user : string) (conn_guid : Z)
| EvClock (now : Z).

Definition handle (ev : event) (w : core) : option core :=
  match ev with
  | EvCreate client fd st notify_fds anvil_ok =>
      match heap w !! client with
      | Some _ => None
      | None =>
          let w := imap_client_create client fd st anvil_ok w in
          let w :=
            foldl (fun w nfd => imap_client_add_notify_fd client nfd w) w
              notify_fds in
          Some (imap_client_create_finish client w)
      end
  | EvClientInput client e =>
      match heap w !! client with
      | None => None
      | Some c =>
          if idle_cmd (state c) then imap_client_input_idle_cmd e client w
          else Some (imap_client_input_nonidle e client w)
      end
  | EvNotify client e =>
      match heap w !! client with
      | None => None
      | Some _ => Some (imap_client_input_notify e client w)
      end
  | EvKeepalive client e =>
      match heap w !! client with
      | None => None
      | Some _ => keepalive_timeout e client w
      end
  | EvUnhibernate env => imap_clients_unhibernate env w
  | EvMasterSend client e =>
      match heap w !! client with
      | None => None
      | Some _ => imap_client_move_back_send_callback e client w
      end
  | EvMasterRead client line =>
      match heap w !! client with
      | None => None
      | Some _ => Some (imap_client_move_back_read_callback client line w)
      end
  | EvKick user conn_guid => Some (fst (imap_clients_kick user conn_guid w))
  | EvClock now => Some (set_ioloop_time now w)
  end.

Inductive reachable : core -> Prop :=
| reachable_init now : reachable (imap_clients_init now)
| reachable_step w ev w' :
    reachable w -> handle ev w = Some w' -> reachable w'.

(** The calls made on client descriptors, and the broker connections
    started, among a list of effects. *)
Definition is_fd_call (ef : effect) : bool :=
  match ef with
  | E_shutdown _ | E_close _ => true
  | _ => false
  end.

Definition is_master_init (ef : effect) : bool :=
  match ef with
  | E_master_init _ => true
  | _ => false
  end.

Definition fd_calls (tr : list effect) : list effect :=
  List.filter is_fd_call tr.

Definition master_inits (tr : list effect) : list effect :=
  List.filter is_master_init tr.

(** A session is in the retry queue exactly when its flag says so, and the
    queue holds live sessions only, each once. *)
Definition queue_inv (w : core) : Prop :=
  NoDup (unhibernate_queue w)
  /\ forall p : nat,
       p ∈ unhibernate_queue w
       <-> exists c, heap w !! p = Some c /\ unhibernate_queued c = true.


(** ** Closed forms used in the proofs *)

(** The parser from the end of the tag loop on, as a function of the pointer
    and size the loop stopped with. *)
Definition parse_after_tag (state : imap_client_input_state)
    (tag_start : list ascii) (stop : list ascii * Z) : outcome parsed :=
  let '(data, size) := stop in
  let tag_end := data in
  if size =? 0 then Ok (state, None) else
  c <~ rd data 0 ;;
  if negb (Ascii.eqb c SP) then Ok (IMAP_CLIENT_INPUT_STATE_BAD, None) else
  let data := drop 1 data in
  let size := size_sub size 1 in
  if size <=? 4 then Ok (state, None) else
  r <~ i_memcasecmp data (literal "IDLE") 4 ;;
  if negb (r =? 0) then Ok (state, None) else
  let data := drop 4 data in
  let size := size_sub size 4 in
  c <~ rd data 0 ;;
  let '(data, size) :=
    if Ascii.eqb c CR then (drop 1 data, size_sub size 1) else (data, size) in
  if size =? 1 then
    c <~ rd data 0 ;;
    if Ascii.eqb c LF
    then Ok (IMAP_CLIENT_INPUT_STATE_DONEIDLE,
             Some (t_strdup_until tag_start tag_end))
    else Ok (state, None)
  else Ok (state, None).

(** What stopping the notify watchers of a session emits and leaves. *)
Definition notify_effects (c : imap_client) : list effect :=
  concat (snd <$> (notify_stop <$> notifys c)).

Definition closed_notifys (c : imap_client) : list imap_client_notify :=
  fst <$> (notify_stop <$> notifys c).

Definition stop_effects (c : imap_client) : list effect :=
  (if io c then [E_io_remove (fd c)] else []) ++ notify_effects c.

Definition stopped (c : imap_client) : imap_client :=
  set_notifys (closed_notifys c)
    (set_to_keepalive None (set_io false (set_unhibernate_queued false c))).

Definition destroy_effects (p : nat) (c : imap_client)
    (reason : option string) : list effect :=
  (match reason with Some r => [E_disconnected p r] | None => [] end)
  ++ (if anvil_sent (state c)
      then [E_anvil_disconnect p (anvil_conn_guid (state c))] else [])
  ++ (if master_conn c then [E_master_free p] else [])
  ++ (if shutdown_fd_on_destroy c then [E_shutdown (fd c)] else [])
  ++ stop_effects c
  ++ (if fd c =? -1 then [] else [E_close (fd c)]).

(** An attempt defers when nothing is buffered, the master socket answers
    "busy" (0) and the deadline has not passed. *)
Definition defers (e : io_env) (now : Z) (c : imap_client) : Prop :=
  env_buffer_used e <= 0 /\ env_master_ret e = 0
  /\ imap_move_has_reached_timeout now c = false.

Definition deferred (c : imap_client) : imap_client :=
  set_notifys (closed_notifys c)
    (if input_pending c then set_io false c else c).

Definition defer_effects (e : io_env) (p : nat) (c : imap_client)
  : list effect :=
  [E_master_init p; E_retry p (env_master_error e)]
  ++ (if input_pending c && io c then [E_io_remove (fd c)] else [])
  ++ notify_effects c.


(** The flag of the session at an address, if one lives there. *)
Definition flag (w : core) (p : nat) : option bool :=
  unhibernate_queued <$> heap w !! p.

(** ** Scenarios *)

Fixpoint run (evs : list event) (w : core) : option core :=
  match evs with
  | [] => Some w
  | ev :: evs' => w' ← handle ev w; run evs' w'
  end.

Definition boot : core := imap_clients_init 1000.

(** The state after a run from [boot]. *)
Definition after (evs : list event) : core := default boot (run evs boot).

Definition alice : imap_client_state :=
  {| username := "alice";
     tag := Some (bytes "A000");
     anvil_conn_guid := 7;
     anvil_sent := false;
     idle_cmd := true;
     imap_idle_notify_interval := 120 |}.

Definition bob : imap_client_state :=
  {| username := "bob";
     tag := None;
     anvil_conn_guid := 9;
     anvil_sent := false;
     idle_cmd := false;
     imap_idle_notify_interval := 0 |}.

(** A zeroed [struct imap_client] around a state, and the session at an
    address of a state that has one there. *)
Definition zeroed (st : imap_client_state) : imap_client :=
  {| state := st;
     notifys := [];
     move_back_start := 0;
     fd := 0;
     io := false;
     input := [];
     to_keepalive := None;
     master_conn := false;
     next_read_threshold := 0;
     bad_done := false;
     idle_done := false;
     unhibernate_queued := false;
     input_pending := false;
     shutdown_fd_on_destroy := false |}.

Definition session_at (w : core) (p : nat) : imap_client :=
  default (zeroed bob) (heap w !! p).

(** The master socket is busy, nothing is buffered, nothing arrives. *)
Definition env_busy : io_env :=
  {| env_chunk := [];
     env_read_ret := 0;
     env_buffer_used := 0;
     env_flush_ret := 1;
     env_send_ret := 0;
     env_master_ret := 0;
     env_master_error := bytes "busy";
     env_fd_send_ret := 1;
     env_disconnect_reason := "Connection closed" |}.

Definition with_master (ret : Z) (e : io_env) : io_env :=
  Build_io_env (env_chunk e) (env_read_ret e) (env_buffer_used e)
    (env_flush_ret e) (env_send_ret e) ret (env_master_error e)
    (env_fd_send_ret e) (env_disconnect_reason e).

Definition with_buffer_used (n : Z) (e : io_env) : io_env :=
  Build_io_env (env_chunk e) (env_read_ret e) n (env_flush_ret e)
    (env_send_ret e) (env_master_ret e) (env_master_error e)
    (env_fd_send_ret e) (env_disconnect_reason e).

(** [chunk] arrives; the stream flushes with [flush] and takes [sent]
    bytes. *)
Definition with_input (chunk : list ascii) (flush sent : Z) (e : io_env)
  : io_env :=
  Build_io_env chunk 1 (env_buffer_used e) flush sent (env_master_ret e)
    (env_master_error e) (env_fd_send_ret e) (env_disconnect_reason e).

Definition done_crlf : list ascii := bytes "DONE" ++ [CR; LF].

Definition done_idle_a001 : list ascii :=
  bytes "DONE" ++ [CR; LF] ++ bytes "A001 IDLE" ++ [CR; LF].

(** One idle session with a notify descriptor. *)
Definition one_session : list event := [EvCreate 1 5 alice [8] true].

(** The session asks to leave IDLE, the master takes the descriptor. *)
Definition handed_over : list event :=
  [EvCreate 1 5 alice [] true;
   EvClientInput 1 (with_master 1 (with_input done_crlf 1 0 env_busy));
   EvMasterSend 1 env_busy].

(** Two sessions wait in the retry queue. *)
Definition two_queued : list event :=
  [EvCreate 1 5 alice [] true;
   EvCreate 2 6 bob [] true;
   EvNotify 1 env_busy;
   EvNotify 2 env_busy].


(** ** The shapes of the parser's input

    Used to say, for every buffer, what the parser answers. *)

(** The bytes of [data] that the parser compares with a four-letter keyword
    are that keyword, or the part of it that [data] is long enough for, in
    some mix of cases. *)
Definition begins_keyword (kw : string) (data : list ascii) : Prop :=
  i_toupper <$> take 4 data = take (length data) (byte_val <$> bytes kw).

(** [rest] is the rest of an IDLE command: the keyword and the end of the
    line. *)
Definition idle_line (rest : list ascii) : Prop :=
  exists i cr2, spells "IDLE" i /\ rest = i ++ opt_cr cr2 ++ [LF].

(** Every buffer has one of these shapes, with the result that goes with
    it. *)
Inductive parse_shape : list ascii -> outcome parsed -> Prop :=
| shape_mismatch data :
    ~ begins_keyword "DONE" data ->
    parse_shape data (Ok (IMAP_CLIENT_INPUT_STATE_BAD, None))
| shape_keyword_prefix d k :
    spells "DONE" d -> (k <= 4)%nat ->
    parse_shape (take k d) (Ok (IMAP_CLIENT_INPUT_STATE_UNKNOWN, None))
| shape_cr d :
    spells "DONE" d ->
    parse_shape (d ++ [CR]) (Ok (IMAP_CLIENT_INPUT_STATE_UNKNOWN, None))
| shape_no_lf d cr c rest :
    spells "DONE" d -> c <> LF -> (cr = false -> c <> CR) ->
    parse_shape (d ++ opt_cr cr ++ c :: rest)
      (Ok (IMAP_CLIENT_INPUT_STATE_BAD, None))
| shape_line d cr :
    spells "DONE" d ->
    parse_shape (done_line d cr) (Ok (done_state cr, None))
| shape_overrun d cr tg :
    spells "DONE" d -> tg <> [] -> tag_ok tg ->
    parse_shape (done_line d cr ++ tg) OutOfRange
| shape_tag_end d cr tg c rest :
    spells "DONE" d -> tag_ok tg -> ends_tag c = true -> c <> SP ->
    parse_shape (done_line d cr ++ tg ++ c :: rest)
      (Ok (IMAP_CLIENT_INPUT_STATE_BAD, None))
| shape_no_idle d cr tg rest :
    spells "DONE" d -> tag_ok tg -> ~ idle_line rest ->
    parse_shape (done_line d cr ++ tg ++ SP :: rest)
      (Ok (done_state cr, None))
| shape_doneidle d cr tg i cr2 :
    spells "DONE" d -> tag_ok tg -> spells "IDLE" i ->
    parse_shape (doneidle_seq d cr tg i cr2)
      (Ok (IMAP_CLIENT_INPUT_STATE_DONEIDLE, Some (c_str tg))).

(** ** The registry, the retry timer and shutdown *)

(** The registry list holds the live sessions, each once. *)
Definition reg_inv (w : core) : Prop :=
  NoDup (imap_clients w)
  /\ forall p : nat, p ∈ imap_clients w <-> is_Some (heap w !! p).

(** The retry timer is armed while a session waits in the queue. *)
Definition timer_inv (w : core) : Prop :=
  unhibernate_queue w <> [] -> to_unhibernate w = true.

(** [imap_clients_deinit]: [while (imap_clients != NULL)
    imap_client_kick(imap_clients, TRUE);], run with fuel, then the timer is
    removed and the queue freed.  [None] is a loop that has not ended within
    the fuel. *)
Fixpoint deinit_loop (fuel : nat) (w : core) : option core :=
  match imap_clients w with
  | [] => Some w
  | client :: _ =>
      match fuel with
      | O => None
      | S fuel' => deinit_loop fuel' (imap_client_kick client true w)
      end
  end.

Definition imap_clients_deinit (w : core) : option core :=
  w' ← deinit_loop (length (imap_clients w)) w;
  Some (set_unhibernate_queue [] (set_to_unhibernate false w')).

(** The session a deferred move-back leaves in the queue at time [now]. *)
Definition enqueued (now : Z) (c : imap_client) : imap_client :=
  set_unhibernate_queued true
    (set_move_back_start
       (if move_back_start c =? 0 then now else move_back_start c)
       (deferred c)).

(** The flag that ends the handoff record in
    [imap_client_move_back_send_callback]: "\tbad-done" after a bad DONE,
    "\tidle-continue" when IDLE goes on, nothing otherwise. *)
Definition handoff_flag (c : imap_client) : list ascii :=
  if idle_done c then
    if bad_done c then TAB :: bytes "bad-done" else []
  else if idle_cmd (state c) then
    (* IDLE continues after sending changes *)
    TAB :: bytes "idle-continue"
  else [].

(** The reason [imap_client_kick] gives for the disconnection. *)
Definition kick_reason (shutdown : bool) : string :=
  if shutdown then MASTER_SERVICE_SHUTTING_DOWN_MSG
  else MASTER_SERVICE_USER_KICKED_MSG.

(** The session once the read handler has seen the end of IDLE, with [data]
    left in its input stream. *)
Definition left_idle (data : list ascii) (c : imap_client) : imap_client :=
  set_input_pending true
    (set_idle_done true (set_input data (set_next_read_threshold 0 c))).

(** The fields a move-back leaves alone. *)
Definition same_dialogue (c c' : imap_client) : Prop :=
  state c' = state c /\ fd c' = fd c /\ input c' = input c
  /\ bad_done c' = bad_done c /\ idle_done c' = idle_done c
  /\ input_pending c' = input_pending c
  /\ next_read_threshold c' = next_read_threshold c
  /\ shutdown_fd_on_destroy c' = shutdown_fd_on_destroy c.

(** The two states a move-back leaves a session in: handed to the master
    connection, or waiting in the retry queue. *)
Definition moved_back (c' : imap_client) : Prop :=
  master_conn c' = true /\ io c' = false /\ to_keepalive c' = None
  /\ unhibernate_queued c' = false.

Definition waits_retry (w' : core) (p : nat) (c' : imap_client) : Prop :=
  unhibernate_queued c' = true /\ p ∈ unhibernate_queue w'
  /\ to_unhibernate w' = true.

(** ** Retries among the effects *)

(** The deferrals logged ("Unhibernation failed: ... - retrying") among a
    list of effects. *)
Definition is_retry (ef : effect) : bool :=
  match ef with
  | E_retry _ _ => true
  | _ => false
  end.

Definition retries (tr : list effect) : list effect :=
  List.filter is_retry tr.


(** What an attempt that does not defer leaves of the session [c] at [p],
    with [new] the effects since the attempt began and [w'] a state after
    it: destroyed as "Client output buffer is full" when output was
    buffered, handed to the master connection when the connection succeeded,
    and destroyed as a failed unhibernation otherwise. *)
Definition attempt_ended (e : io_env) (p : nat) (c : imap_client)
    (new : list effect) (w' : core) : Prop :=
  (0 < env_buffer_used e ->
   heap w' !! p = None
   /\ E_disconnected p IMAP_CLIENT_BUFFER_FULL_ERROR ∈ new)
  /\ (env_buffer_used e <= 0 -> 0 < env_master_ret e ->
      heap w' !! p = Some (stopped (set_master_conn true c)))
  /\ (env_buffer_used e <= 0 -> env_master_ret e <= 0 ->
      heap w' !! p = None
      /\ E_unhibernate_error p (env_master_error e) ∈ new
      /\ E_disconnected p IMAP_CLIENT_UNHIBERNATE_ERROR ∈ new).

(** * Properties *)

Example parse_done_crlf :
  parse_buffer (bytes "DONE" ++ [CR; LF])
  = Ok (IMAP_CLIENT_INPUT_STATE_DONE_CRLF, None).
Proof. reflexivity. Qed.

Example parse_doneidle :
  parse_buffer (bytes "done" ++ [CR; LF] ++ bytes "A001 idle" ++ [CR; LF])
  = Ok (IMAP_CLIENT_INPUT_STATE_DONEIDLE, Some (bytes "A001")).
Proof. reflexivity. Qed.

Example parse_inside_tag :
  parse_buffer (bytes "DONE" ++ [LF] ++ bytes "A") = OutOfRange.
Proof. reflexivity. Qed.

Example parse_foo :
  parse_buffer (bytes "FOO" ++ [CR; LF])
  = Ok (IMAP_CLIENT_INPUT_STATE_BAD, None).
Proof. reflexivity. Qed.

(** ** The input parser *)

Lemma size_sub_small (a b : Z) :
  0 <= b <= a -> a <= SIZE_MAX -> size_sub a b = a - b.
Proof.
  intros Hb Ha. unfold size_sub, SIZE_MAX in *. apply Z.mod_small. lia.
Qed.

Ltac size_norm :=
  repeat match goal with
    | |- context [size_sub ?a ?b] =>
        rewrite (size_sub_small a b) by (unfold SIZE_MAX in *; lia)
    end.

Ltac z_tests :=
  repeat match goal with
  | |- context [?a <=? ?b] =>
      first [ rewrite (proj2 (Z.leb_gt a b)) by lia
            | rewrite (proj2 (Z.leb_le a b)) by lia ]
  | |- context [?a =? ?b] =>
      first [ rewrite (proj2 (Z.eqb_neq a b)) by lia
            | rewrite (proj2 (Z.eqb_eq a b)) by lia ]
  end.

Lemma i_memcasecmp_same (w l r1 r2 : list ascii) (n : nat) :
  i_toupper <$> w = i_toupper <$> l -> (n <= length w)%nat ->
  i_memcasecmp (w ++ r1) (l ++ r2) n = Ok 0.
Proof.
  revert l n. induction w as [|a w IH]; intros [|b l] n Heq Hn; simpl in *;
    try discriminate.
  - replace n with O by lia. reflexivity.
  - destruct n as [|n]; [reflexivity|]. simpl.
    injection Heq as Hab Hwl. rewrite Hab, Z.sub_diag. simpl.
    rewrite !drop_0. apply IH; [assumption | lia].
Qed.

Lemma spells_length kw w : spells kw w -> length w = length (bytes kw).
Proof.
  unfold spells. intros H. apply (f_equal length) in H.
  rewrite !length_fmap in H. exact H.
Qed.

Lemma DONE_upper : i_toupper <$> bytes "DONE" = byte_val <$> bytes "DONE".
Proof. reflexivity. Qed.

Lemma IDLE_upper : i_toupper <$> bytes "IDLE" = byte_val <$> bytes "IDLE".
Proof. reflexivity. Qed.

Lemma memcasecmp_keyword kw w rest n :
  i_toupper <$> bytes kw = byte_val <$> bytes kw ->
  spells kw w -> (n <= length w)%nat ->
  i_memcasecmp (w ++ rest) (literal kw) n = Ok 0.
Proof.
  intros Hup Hs Hn. unfold literal.
  apply i_memcasecmp_same; [|assumption].
  unfold spells in Hs. rewrite Hs, Hup. reflexivity.
Qed.

Lemma memcasecmp_keyword_prefix kw w k :
  i_toupper <$> bytes kw = byte_val <$> bytes kw ->
  spells kw w -> (k <= length w)%nat ->
  i_memcasecmp (take k w) (literal kw) k = Ok 0.
Proof.
  intros Hup Hs Hk. unfold literal.
  rewrite <- (app_nil_r (take k w)).
  rewrite <- (take_drop k (bytes kw)), <- app_assoc.
  apply i_memcasecmp_same.
  - rewrite !fmap_take. f_equal. unfold spells in Hs.
    rewrite Hs, Hup. reflexivity.
  - rewrite length_take. lia.
Qed.

Lemma skip_tag_stops tag c rest size :
  tag_ok tag -> ends_tag c = true ->
  Z.of_nat (length tag) <= size -> size <= SIZE_MAX ->
  skip_tag (tag ++ c :: rest) size
  = Ok (c :: rest, size - Z.of_nat (length tag)).
Proof.
  unfold tag_ok. intros Htag Hc. revert size.
  induction Htag as [|x tag Hx _ IH]; intros size Hlo Hhi; simpl.
  - rewrite Hc. f_equal. f_equal. lia.
  - rewrite Hx. simpl length in Hlo. size_norm.
    rewrite IH by lia. f_equal. f_equal. lia.
Qed.

Lemma skip_tag_overruns tag size : tag_ok tag -> skip_tag tag size = OutOfRange.
Proof.
  unfold tag_ok. intros Htag. revert size.
  induction Htag as [|x tag Hx _ IH]; intros size; simpl; [reflexivity|].
  rewrite Hx. apply IH.
Qed.

Lemma t_strdup_until_tag (tag rest : list ascii) :
  t_strdup_until (tag ++ rest) rest = c_str tag.
Proof.
  unfold t_strdup_until. rewrite length_app.
  replace (length tag + length rest - length rest)%nat with (length tag)
    by lia.
  rewrite take_app_length. reflexivity.
Qed.

Lemma c_str_id (s : list ascii) : NUL ∉ s -> c_str s = s.
Proof.
  induction s as [|c s IH]; intros Hn; simpl; [reflexivity|].
  destruct (Ascii.eqb_spec c NUL) as [->|Hc].
  - exfalso. apply Hn. left.
  - f_equal. apply IH. intros Hin. apply Hn. right. exact Hin.
Qed.

Lemma app_split_ge {A} (p q a b : list A) :
  p ++ q = a ++ b -> (length a <= length p)%nat ->
  exists x, p = a ++ x /\ b = x ++ q.
Proof.
  revert a. induction p as [|y p IH]; intros [|z a] Heq Hlen; simpl in *;
    try lia.
  - exists []. split; [reflexivity | symmetry; exact Heq].
  - exists (y :: p). split; [reflexivity | symmetry; exact Heq].
  - injection Heq as -> Heq. destruct (IH a Heq) as (x & -> & ->); [lia|].
    exists x. split; reflexivity.
Qed.

Lemma app_split_le {A} (p q a b : list A) :
  p ++ q = a ++ b -> (length p <= length a)%nat ->
  exists x, a = p ++ x /\ q = x ++ b.
Proof.
  intros Heq Hlen. symmetry in Heq.
  destruct (app_split_ge a b p q Heq Hlen) as (x & Ha & Hq).
  exists x. split; assumption.
Qed.

Lemma accumulate_prefix (seen : list ascii) chunks p :
  p ∈ accumulate seen chunks -> p `prefix_of` seen ++ concat chunks.
Proof.
  revert seen. induction chunks as [|ch chunks IH]; intros seen Hin;
    simpl in *.
  - inversion Hin.
  - apply elem_of_cons in Hin as [-> | Hin].
    + rewrite app_assoc. apply prefix_app_r. reflexivity.
    + rewrite app_assoc. apply IH. exact Hin.
Qed.

(** The part after the tag: the rest of the IDLE line is there, or it is
    not yet. *)
Lemma after_tag_whole state tag i cr2 :
  spells "IDLE" i ->
  Z.of_nat (length (tag ++ SP :: i ++ opt_cr cr2 ++ [LF])) <= SIZE_MAX ->
  parse_after_tag state (tag ++ SP :: i ++ opt_cr cr2 ++ [LF])
    (SP :: i ++ opt_cr cr2 ++ [LF],
     Z.of_nat (length (SP :: i ++ opt_cr cr2 ++ [LF])))
  = Ok (IMAP_CLIENT_INPUT_STATE_DONEIDLE, Some (c_str tag)).
Proof.
  intros Hi Hmax. pose proof (spells_length _ _ Hi) as Hli. simpl in Hli.
  unfold parse_after_tag. rewrite t_strdup_until_tag.
  rewrite length_app in Hmax.
  remember (Z.of_nat (length (SP :: i ++ opt_cr cr2 ++ [LF]))) as size
    eqn:Hsize.
  simpl length in Hsize. rewrite length_app, Hli in Hsize.
  cbn [rd lookup list_lookup obind drop].
  change (negb (SP =? SP)%char) with false. cbv iota.
  rewrite !drop_0.
  rewrite (memcasecmp_keyword "IDLE" i _ 4 IDLE_upper Hi) by lia.
  cbn [obind]. change (negb (0 =? 0)) with false. cbv iota.
  rewrite drop_app_length' by lia.
  destruct cr2; simpl in Hsize; simpl opt_cr; simpl app;
    cbn [rd lookup list_lookup obind drop];
    [ change (CR =? CR)%char with true | change (LF =? CR)%char with false ];
    cbv iota; size_norm; z_tests; cbn [rd lookup list_lookup obind drop];
    reflexivity.
Qed.

Lemma after_tag_partial state tag_start x i cr2 :
  spells "IDLE" i ->
  x `prefix_of` i ++ opt_cr cr2 ++ [LF] -> x <> i ++ opt_cr cr2 ++ [LF] ->
  parse_after_tag state tag_start (SP :: x, Z.of_nat (length (SP :: x)))
  = Ok (state, None).
Proof.
  intros Hi [y Hxy] Hne. pose proof (spells_length _ _ Hi) as Hli.
  simpl in Hli.
  assert (Hlen : (length x < length i + length (opt_cr cr2) + 1)%nat).
  { apply (f_equal length) in Hxy as Hl. rewrite !length_app in Hl.
    simpl in Hl.
    destruct y; [ exfalso; apply Hne; rewrite app_nil_r in Hxy; congruence | ].
    simpl in Hl. lia. }
  assert (Hbound : Z.of_nat (length (SP :: x)) <= 7)
    by (simpl length; destruct cr2; simpl in Hlen; lia).
  unfold parse_after_tag.
  remember (Z.of_nat (length (SP :: x))) as size eqn:Hsize.
  simpl length in Hsize.
  cbn [rd lookup list_lookup obind drop].
  change (negb (SP =? SP)%char) with false. cbv iota.
  rewrite !drop_0.
  assert (Hmax : size <= SIZE_MAX) by (unfold SIZE_MAX; lia).
  destruct (decide (length x <= 4)%nat) as [Hle|Hgt].
  { size_norm. z_tests. reflexivity. }
  assert (Hx : cr2 = true /\ x = i ++ [CR]).
  { destruct cr2; simpl in Hlen; [ | lia ]. split; [reflexivity|].
    simpl in Hxy. clear Hi.
    destruct i as [|i1 [|i2 [|i3 [|i4 [|]]]]]; simpl in Hli; try lia.
    destruct x as [|x1 [|x2 [|x3 [|x4 [|x5 [|]]]]]]; simpl in *; try lia.
    injection Hxy as -> -> -> -> -> _. reflexivity. }
  destruct Hx as [-> ->]. rewrite length_app, Hli in Hsize. simpl in Hsize.
  size_norm. z_tests.
  rewrite (memcasecmp_keyword "IDLE" i _ 4 IDLE_upper Hi) by lia.
  cbn [obind]. change (negb (0 =? 0)) with false. cbv iota.
  rewrite drop_app_length' by lia.
  cbn [rd lookup list_lookup obind drop].
  change (CR =? CR)%char with true. cbv iota.
  size_norm. z_tests. reflexivity.
Qed.

Section DoneLine.

(** The client wrote DONE in some mix of cases. *)
Variable d : list ascii.
Hypothesis Hd : spells "DONE" d.

Lemma done_length : length d = 4%nat.
Proof. exact (spells_length _ _ Hd). Qed.

Lemma parse_keyword_prefix k :
  (k <= 4)%nat ->
  parse_buffer (take k d) = Ok (IMAP_CLIENT_INPUT_STATE_UNKNOWN, None).
Proof.
  intros Hk. pose proof done_length as Hlen.
  unfold parse_buffer, imap_client_input_parse.
  rewrite length_take, Hlen.
  replace (Z.to_nat (Z.min (Z.of_nat (k `min` 4)) 4)) with k by lia.
  rewrite (memcasecmp_keyword_prefix "DONE" d k DONE_upper Hd) by lia.
  simpl. rewrite (proj2 (Z.leb_le _ _)) by lia. reflexivity.
Qed.

Lemma parse_keyword_then rest :
  rest <> [] ->
  Z.of_nat (length (d ++ rest)) <= SIZE_MAX ->
  parse_buffer (d ++ rest)
  = (let size := Z.of_nat (length rest) in
     c <~ rd rest 0 ;;
     let '(state, data, size) :=
       if Ascii.eqb c CR
       then (IMAP_CLIENT_INPUT_STATE_DONE_CRLF, drop 1 rest, size_sub size 1)
       else (IMAP_CLIENT_INPUT_STATE_DONE_LF, rest, size) in
     if size =? 0 then Ok (IMAP_CLIENT_INPUT_STATE_UNKNOWN, None) else
     c <~ rd data 0 ;;
     if negb (Ascii.eqb c LF) then Ok (IMAP_CLIENT_INPUT_STATE_BAD, None) else
     let tag_start := drop 1 data in
     let size := size_sub size 1 in
     if size =? 0 then Ok (state, None) else
     stop <~ skip_tag tag_start size ;;
     parse_after_tag state tag_start stop).
Proof.
  intros Hrest Hmax. pose proof done_length as Hld.
  assert (0 < length rest)%nat by (destruct rest; [congruence | simpl; lia]).
  unfold parse_buffer, imap_client_input_parse.
  rewrite length_app in *. rewrite Hld in *.
  replace (Z.to_nat (Z.min (Z.of_nat (4 + length rest)) 4)) with 4%nat
    by lia.
  rewrite (memcasecmp_keyword "DONE" d _ 4 DONE_upper Hd) by lia.
  cbn [obind]. change (negb (0 =? 0)) with false. cbv iota.
  rewrite (proj2 (Z.leb_gt _ 4)) by lia.
  rewrite drop_app_length' by lia.
  rewrite (size_sub_small _ 4) by lia.
  replace (Z.of_nat (4 + length rest) - 4) with (Z.of_nat (length rest))
    by lia.
  reflexivity.
Qed.

Lemma parse_past_line cr rest :
  rest <> [] ->
  Z.of_nat (length (done_line d cr ++ rest)) <= SIZE_MAX ->
  parse_buffer (done_line d cr ++ rest)
  = (stop <~ skip_tag rest (Z.of_nat (length rest)) ;;
     parse_after_tag (done_state cr) rest stop).
Proof.
  intros Hrest Hmax.
  assert (0 < length rest)%nat by (destruct rest; [congruence | simpl; lia]).
  unfold done_line in *. rewrite <- !app_assoc in *.
  rewrite !length_app in Hmax.
  rewrite parse_keyword_then;
    [ | destruct cr; discriminate | rewrite !length_app; lia ].
  destruct cr; cbn -[size_sub Z.of_nat skip_tag parse_after_tag SIZE_MAX] in *.
  - rewrite !drop_0. size_norm. z_tests.
    replace (Z.of_nat (S (S (length rest))) - 1 - 1)
      with (Z.of_nat (length rest)) by lia.
    reflexivity.
  - rewrite !drop_0. size_norm. z_tests.
    replace (Z.of_nat (S (length rest)) - 1)
      with (Z.of_nat (length rest)) by lia.
    reflexivity.
Qed.

Lemma parse_done_line cr :
  parse_buffer (done_line d cr) = Ok (done_state cr, None).
Proof.
  pose proof done_length as Hld. unfold done_line.
  rewrite parse_keyword_then;
    [ | destruct cr; discriminate
      | rewrite !length_app, Hld; destruct cr; simpl; unfold SIZE_MAX; lia ].
  destruct cr; reflexivity.
Qed.

Lemma parse_done_cr :
  parse_buffer (d ++ [CR]) = Ok (IMAP_CLIENT_INPUT_STATE_UNKNOWN, None).
Proof.
  pose proof done_length as Hld.
  rewrite parse_keyword_then;
    [ | discriminate
      | rewrite !length_app, Hld; simpl; unfold SIZE_MAX; lia ].
  reflexivity.
Qed.

Lemma parse_line_prefix cr p :
  p `prefix_of` done_line d cr -> p <> done_line d cr ->
  parse_buffer p = Ok (IMAP_CLIENT_INPUT_STATE_UNKNOWN, None).
Proof.
  intros [q Hpq] Hne. pose proof done_length as Hld.
  unfold done_line in *. symmetry in Hpq.
  destruct (decide (length p <= 4)%nat) as [Hle|Hgt].
  - destruct (app_split_le p q d _ Hpq) as (x & Hx & _); [lia|].
    assert (Hp : p = take (length p) d)
      by (rewrite Hx, take_app_length; reflexivity).
    rewrite Hp. apply parse_keyword_prefix. lia.
  - destruct (app_split_ge p q d _ Hpq) as (x & -> & Hx); [lia|].
    rewrite length_app in Hgt.
    destruct x as [|x1 x]; [simpl in Hgt; lia|].
    destruct q as [|q1 q]; [rewrite app_nil_r in Hx; congruence|].
    destruct cr; simpl in Hx.
    + injection Hx as <- Hx. destruct x; [|destruct x; discriminate].
      apply parse_done_cr.
    + destruct x; discriminate.
Qed.

Lemma chunked_done_line cr chunks p :
  concat chunks = done_line d cr ->
  p ∈ accumulate [] chunks ->
  parse_buffer p
  = Ok (if decide (p = done_line d cr) then done_state cr
        else IMAP_CLIENT_INPUT_STATE_UNKNOWN, None).
Proof.
  intros Hcat Hin. apply accumulate_prefix in Hin. simpl in Hin.
  rewrite Hcat in Hin. destruct (decide (p = done_line d cr)) as [->|Hne].
  - apply parse_done_line.
  - apply (parse_line_prefix cr); assumption.
Qed.

Lemma chunked_doneidle cr1 tag i cr2 chunks p :
  spells "IDLE" i -> tag_ok tag ->
  Z.of_nat (length (doneidle_seq d cr1 tag i cr2)) <= SIZE_MAX ->
  concat chunks = doneidle_seq d cr1 tag i cr2 ->
  p ∈ accumulate [] chunks ->
  (p = doneidle_seq d cr1 tag i cr2 ->
   parse_buffer p = Ok (IMAP_CLIENT_INPUT_STATE_DONEIDLE, Some (c_str tag)))
  /\ ((length p < length (done_line d cr1))%nat ->
      parse_buffer p = Ok (IMAP_CLIENT_INPUT_STATE_UNKNOWN, None))
  /\ (p = done_line d cr1
      \/ (length (done_line d cr1) + length tag < length p
          < length (doneidle_seq d cr1 tag i cr2))%nat ->
      parse_buffer p = Ok (done_state cr1, None)).
Proof.
  intros Hi Htag Hmax Hcat Hin.
  apply accumulate_prefix in Hin. simpl in Hin. rewrite Hcat in Hin.
  destruct Hin as [q Hpq]. symmetry in Hpq.
  unfold doneidle_seq in *.
  change (tag ++ [SP] ++ i ++ opt_cr cr2 ++ [LF])
    with (tag ++ SP :: (i ++ opt_cr cr2 ++ [LF])) in *.
  split; [|split].
  - intros ->.
    rewrite parse_past_line; [ | destruct tag; discriminate | assumption ].
    rewrite skip_tag_stops;
      [ | assumption | reflexivity | rewrite length_app; lia
        | rewrite !length_app in Hmax; rewrite !length_app; lia ].
    replace (Z.of_nat (length (tag ++ SP :: (i ++ opt_cr cr2 ++ [LF])))
             - Z.of_nat (length tag))
      with (Z.of_nat (length (SP :: i ++ opt_cr cr2 ++ [LF])))
      by (rewrite length_app; simpl length; lia).
    cbn [obind]. apply (after_tag_whole _ tag i cr2); [assumption|].
    rewrite length_app in Hmax. lia.
  - intros Hlen.
    destruct (app_split_le p q _ _ Hpq) as (x & Hx & _); [lia|].
    apply (parse_line_prefix cr1); [exists x; exact Hx | ].
    intros ->. lia.
  - intros [-> | [Hlo Hhi]]; [apply parse_done_line|].
    rewrite app_assoc in Hpq.
    destruct (app_split_ge p q _ _ Hpq) as (x & -> & Hx);
      [rewrite length_app; lia|].
    rewrite !length_app in Hlo, Hhi.
    destruct x as [|x1 x]; [simpl in Hlo; lia|].
    simpl in Hx. injection Hx as <- Hx.
    rewrite <- app_assoc.
    assert (Hp : Z.of_nat (length (done_line d cr1 ++ tag ++ SP :: x))
                 <= SIZE_MAX).
    { apply (f_equal length) in Hx. revert Hmax Hx.
      repeat (rewrite ?length_app; simpl length). lia. }
    rewrite parse_past_line; [ | destruct tag; discriminate | assumption ].
    rewrite skip_tag_stops;
      [ | assumption | reflexivity | rewrite length_app; lia
        | rewrite !length_app in Hp; rewrite !length_app; lia ].
    replace (Z.of_nat (length (tag ++ SP :: x)) - Z.of_nat (length tag))
      with (Z.of_nat (length (SP :: x)))
      by (rewrite length_app; simpl length; lia).
    cbn [obind]. apply (after_tag_partial _ _ x i cr2); [assumption | | ].
    + exists q. exact Hx.
    + intros ->. revert Hhi. repeat (rewrite ?length_app; simpl length). lia.
Qed.

Lemma parse_inside_tag_overruns cr tag :
  tag <> [] -> tag_ok tag ->
  Z.of_nat (length (done_line d cr ++ tag)) <= SIZE_MAX ->
  parse_buffer (done_line d cr ++ tag) = OutOfRange.
Proof.
  intros Hne Htag Hmax.
  rewrite parse_past_line by assumption.
  rewrite skip_tag_overruns by assumption. reflexivity.
Qed.

End DoneLine.

(** C2, as amended.  However the bytes of [DONE\r\n] or [DONE\n] are cut into
    chunks, the parser answers UNKNOWN on every accumulated proper prefix and
    DONE_CRLF or DONE_LF on the whole line.  For
    [DONE\r?\n<tag> IDLE\r?\n] with a tag free of SP, CR and TAB, the whole
    sequence is classified DONEIDLE with the tag (as the C string
    [t_strdup_until] returns); an accumulated prefix that ends before the end
    of the DONE line is UNKNOWN; a prefix that is exactly the DONE line, or
    that holds the tag and the space after it but not yet the whole
    sequence, is classified DONE_CRLF or DONE_LF and not UNKNOWN.  Nothing is
    said of a prefix that ends inside the tag. *)
Theorem input_parse_chunked (d i tag : list ascii) (cr cr2 : bool)
    (chunks : list (list ascii)) (p : list ascii) :
  spells "DONE" d -> spells "IDLE" i -> tag_ok tag ->
  Z.of_nat (length (doneidle_seq d cr tag i cr2)) <= SIZE_MAX ->
  p ∈ accumulate [] chunks ->
  (concat chunks = done_line d cr ->
   parse_buffer p
   = Ok (if decide (p = done_line d cr) then done_state cr
         else IMAP_CLIENT_INPUT_STATE_UNKNOWN, None))
  /\ (concat chunks = doneidle_seq d cr tag i cr2 ->
      (p = doneidle_seq d cr tag i cr2 ->
       parse_buffer p
       = Ok (IMAP_CLIENT_INPUT_STATE_DONEIDLE, Some (c_str tag))
       /\ (NUL ∉ tag -> c_str tag = tag))
      /\ ((length p < length (done_line d cr))%nat ->
          parse_buffer p = Ok (IMAP_CLIENT_INPUT_STATE_UNKNOWN, None))
      /\ (p = done_line d cr
          \/ (length (done_line d cr) + length tag < length p
              < length (doneidle_seq d cr tag i cr2))%nat ->
          parse_buffer p = Ok (done_state cr, None))).
Proof.
  intros Hd Hi Htag Hmax Hin. split.
  - intros Hcat. exact (chunked_done_line d Hd cr chunks p Hcat Hin).
  - intros Hcat.
    destruct (chunked_doneidle d Hd cr tag i cr2 chunks p Hi Htag Hmax Hcat Hin)
      as (Hwhole & Hshort & Hline).
    split; [|split; assumption].
    intros Hp. split; [apply Hwhole; exact Hp | apply c_str_id].
Qed.

Lemma input_parse_chunked_witness :
  parse_buffer done_idle_a001
  = Ok (IMAP_CLIENT_INPUT_STATE_DONEIDLE, Some (bytes "A001"))
  /\ parse_buffer (bytes "DONE" ++ [CR])
     = Ok (IMAP_CLIENT_INPUT_STATE_UNKNOWN, None).
Proof.
  assert (Hd : spells "DONE" (bytes "DONE")) by reflexivity.
  assert (Hi : spells "IDLE" (bytes "IDLE")) by reflexivity.
  assert (Htag : tag_ok (bytes "A001")) by (repeat constructor).
  assert (Hmax : Z.of_nat (length (doneidle_seq (bytes "DONE") true
                                     (bytes "A001") (bytes "IDLE") true))
                 <= SIZE_MAX) by (vm_compute; discriminate).
  split.
  - assert (Hin : done_idle_a001
                  ∈ accumulate [] [bytes "DO"; drop 2 done_idle_a001])
      by (right; left).
    destruct (input_parse_chunked (bytes "DONE") (bytes "IDLE") (bytes "A001")
                true true [bytes "DO"; drop 2 done_idle_a001] done_idle_a001
                Hd Hi Htag Hmax Hin) as [_ Hseq].
    destruct (Hseq eq_refl) as [Hwhole _].
    destruct (Hwhole eq_refl) as [Hparse _]. exact Hparse.
  - assert (Hin : bytes "DONE" ++ [CR]
                  ∈ accumulate [] [bytes "DONE" ++ [CR]; drop 5 done_idle_a001])
      by left.
    destruct (input_parse_chunked (bytes "DONE") (bytes "IDLE") (bytes "A001")
                true true [bytes "DONE" ++ [CR]; drop 5 done_idle_a001]
                (bytes "DONE" ++ [CR]) Hd Hi Htag Hmax Hin) as [_ Hseq].
    destruct (Hseq eq_refl) as (_ & Hshort & _).
    apply Hshort. vm_compute. lia.
Defined.

(** C2 fails as stated: the first chunk [DONE\r\n] of
    [DONE\r\nA001 IDLE\r\n] is a proper prefix of the sequence, and the
    parser classifies it DONE_CRLF, not UNKNOWN. *)
Lemma doneidle_prefix_not_need_more :
  concat [done_crlf; bytes "A001 IDLE" ++ [CR; LF]] = done_idle_a001
  /\ done_crlf ∈ accumulate [] [done_crlf; bytes "A001 IDLE" ++ [CR; LF]]
  /\ done_crlf <> done_idle_a001
  /\ parse_buffer done_crlf = Ok (IMAP_CLIENT_INPUT_STATE_DONE_CRLF, None)
  /\ parse_buffer done_crlf <> Ok (IMAP_CLIENT_INPUT_STATE_UNKNOWN, None).
Proof.
  split; [reflexivity|]. split; [left|]. split; [discriminate|].
  split; [reflexivity | discriminate].
Qed.

(** C10 fails on the code: with the DONE line followed by the first bytes of
    a tag and nothing else in the buffer, the tag loop reads the byte after
    the last one of the buffer. *)
Theorem input_parse_reads_past_buffer (d tag : list ascii) (cr : bool) :
  spells "DONE" d -> tag <> [] -> tag_ok tag ->
  Z.of_nat (length (done_line d cr ++ tag)) <= SIZE_MAX ->
  imap_client_input_parse (done_line d cr ++ tag)
    (Z.of_nat (length (done_line d cr ++ tag)))
  = OutOfRange.
Proof.
  intros Hd Hne Htag Hmax.
  apply (parse_inside_tag_overruns d Hd cr tag); assumption.
Qed.

Lemma input_parse_reads_past_buffer_witness :
  imap_client_input_parse (bytes "DONE" ++ [LF] ++ bytes "A") 6 = OutOfRange.
Proof.
  apply (input_parse_reads_past_buffer (bytes "DONE") (bytes "A") false).
  - reflexivity.
  - discriminate.
  - repeat constructor.
  - vm_compute. discriminate.
Defined.

(** ** Stopping and destroying *)

Ltac heap_eq H :=
  apply map_eq; intros ?q;
  match goal with
  | |- context [alter _ ?p _ !! ?q] => destruct (decide (q = p)) as [->|?]
  | |- context [delete ?p _ !! ?q] => destruct (decide (q = p)) as [->|?]
  | |- context [<[?p := _]> _ !! ?q] => destruct (decide (q = p)) as [->|?]
  end;
  repeat first
    [ rewrite lookup_alter_eq | rewrite lookup_insert_eq
    | rewrite lookup_delete_eq | rewrite lookup_alter_ne by done
    | rewrite lookup_insert_ne by done | rewrite lookup_delete_ne by done
    | rewrite H ];
  try done.

(** Solves [heap w' !! p = Some ?c] after a chain of updates at [p]. *)
Ltac live H :=
  cbn;
  repeat first
    [ rewrite lookup_alter_eq | rewrite lookup_insert_eq | rewrite H
    | progress cbn ];
  reflexivity.

Lemma stop_notify_spec p c w :
  heap w !! p = Some c ->
  imap_client_stop_notify_listening p w
  = {| heap := <[p := set_notifys (closed_notifys c) c]> (heap w);
       imap_clients := imap_clients w;
       unhibernate_queue := unhibernate_queue w;
       to_unhibernate := to_unhibernate w;
       ioloop_time := ioloop_time w;
       trace := trace w ++ notify_effects c |}.
Proof.
  intros H. unfold imap_client_stop_notify_listening. rewrite H.
  unfold emit, modify, set_trace, set_heap; cbn. f_equal. heap_eq H.
Qed.

Lemma io_remove_spec p c w :
  heap w !! p = Some c ->
  io_remove_client p w
  = {| heap := <[p := set_io false c]> (heap w);
       imap_clients := imap_clients w;
       unhibernate_queue := unhibernate_queue w;
       to_unhibernate := to_unhibernate w;
       ioloop_time := ioloop_time w;
       trace := trace w ++ (if io c then [E_io_remove (fd c)] else []) |}.
Proof.
  intros H. unfold io_remove_client. rewrite H.
  unfold emit, modify, set_trace, set_heap; cbn. f_equal. heap_eq H.
Qed.

Lemma stop_spec p c w :
  heap w !! p = Some c ->
  imap_client_stop p w
  = {| heap := <[p := stopped c]> (heap w);
       imap_clients := imap_clients w;
       unhibernate_queue :=
         if unhibernate_queued c
         then priorityq_delete p (unhibernate_queue w)
         else unhibernate_queue w;
       to_unhibernate := to_unhibernate w;
       ioloop_time := ioloop_time w;
       trace := trace w ++ stop_effects c |}.
Proof.
  intros H. unfold imap_client_stop. rewrite H.
  assert (Hc : stopped c
    = set_notifys (closed_notifys c) (set_to_keepalive None (set_io false
        (if unhibernate_queued c then set_unhibernate_queued false c
         else c)))).
  { destruct c as [? ? ? ? ? ? ? ? ? ? ? [] ? ?]; reflexivity. }
  rewrite Hc. clear Hc.
  destruct (unhibernate_queued c).
  - erewrite io_remove_spec
      by (cbn; rewrite lookup_alter_eq, H; reflexivity).
    erewrite stop_notify_spec
      by (cbn; rewrite lookup_alter_eq, lookup_insert_eq; reflexivity).
    cbn. unfold stop_effects. rewrite <- app_assoc. f_equal. heap_eq H.
  - erewrite io_remove_spec by exact H.
    erewrite stop_notify_spec
      by (cbn; rewrite lookup_alter_eq, lookup_insert_eq; reflexivity).
    cbn. unfold stop_effects. rewrite <- app_assoc. f_equal. heap_eq H.
Qed.

Lemma destroy_spec p c reason w :
  heap w !! p = Some c ->
  imap_client_destroy p reason w
  = {| heap := delete p (heap w);
       imap_clients := filter (fun q => q <> p) (imap_clients w);
       unhibernate_queue :=
         if unhibernate_queued c
         then priorityq_delete p (unhibernate_queue w)
         else unhibernate_queue w;
       to_unhibernate := to_unhibernate w;
       ioloop_time := ioloop_time w;
       trace := trace w ++ destroy_effects p c reason |}.
Proof.
  intros H. unfold imap_client_destroy, close_client_fd, destroy_effects.
  rewrite H.
  destruct reason, (anvil_sent (state c)), (master_conn c) eqn:Hm,
    (shutdown_fd_on_destroy c);
    (erewrite stop_spec by live H);
    cbn; rewrite ?lookup_insert_eq; cbn;
    destruct (fd c =? -1); unfold emit, set_trace, set_heap, stop_effects;
    cbn; rewrite <- ?app_assoc, ?app_nil_r; cbn;
    (f_equal; [heap_eq H]).
Qed.

(** ** The four ways of an attempt *)

Lemma try_move_back_buffered e p c w :
  heap w !! p = Some c -> 0 < env_buffer_used e ->
  imap_client_try_move_back e p w
  = (imap_client_destroy p (Some IMAP_CLIENT_BUFFER_FULL_ERROR) w, true).
Proof.
  intros H Hb. unfold imap_client_try_move_back. rewrite H.
  rewrite (proj2 (Z.gtb_gt _ _)) by lia. reflexivity.
Qed.

Lemma try_move_back_success e p c w :
  heap w !! p = Some c -> env_buffer_used e <= 0 -> 0 < env_master_ret e ->
  imap_client_try_move_back e p w
  = (imap_client_stop p
       (modify p (set_master_conn true) (emit [E_master_init p] w)), true).
Proof.
  intros H Hb Hr. unfold imap_client_try_move_back. rewrite H.
  destruct (env_buffer_used e >? 0) eqn:Hu; [apply Z.gtb_gt in Hu; lia|].
  rewrite (proj2 (Z.gtb_gt _ _)) by lia. reflexivity.
Qed.

Lemma try_move_back_failed e p c w :
  heap w !! p = Some c -> env_buffer_used e <= 0 -> env_master_ret e <= 0 ->
  env_master_ret e < 0
  \/ imap_move_has_reached_timeout (ioloop_time w) c = true ->
  imap_client_try_move_back e p w
  = (imap_client_unhibernate_failed p (env_master_error e)
       (emit [E_master_init p] w), true).
Proof.
  intros H Hb Hr Hf. unfold imap_client_try_move_back. rewrite H.
  destruct (env_buffer_used e >? 0) eqn:Hu; [apply Z.gtb_gt in Hu; lia|].
  destruct (env_master_ret e >? 0) eqn:Hg; [apply Z.gtb_gt in Hg; lia|].
  cbn [ioloop_time emit set_trace].
  destruct Hf as [Hn | ->].
  - rewrite (proj2 (Z.ltb_lt _ _)) by lia. reflexivity.
  - rewrite orb_true_r. reflexivity.
Qed.

Lemma try_move_back_deferred e p c w :
  heap w !! p = Some c -> defers e (ioloop_time w) c ->
  imap_client_try_move_back e p w
  = ({| heap := <[p := deferred c]> (heap w);
        imap_clients := imap_clients w;
        unhibernate_queue := unhibernate_queue w;
        to_unhibernate := to_unhibernate w;
        ioloop_time := ioloop_time w;
        trace := trace w ++ defer_effects e p c |}, false).
Proof.
  intros H (Hb & Hr & Ht). unfold imap_client_try_move_back. rewrite H.
  destruct (env_buffer_used e >? 0) eqn:Hu; [apply Z.gtb_gt in Hu; lia|].
  rewrite Hr. cbn [Z.gtb Z.ltb Z.compare orb ioloop_time emit set_trace].
  rewrite Ht. unfold deferred, defer_effects.
  destruct (input_pending c).
  - erewrite io_remove_spec by live H.
    erewrite stop_notify_spec by live H.
    cbn. rewrite <- !app_assoc. f_equal. f_equal. heap_eq H.
  - erewrite stop_notify_spec by live H.
    cbn. rewrite <- !app_assoc. reflexivity.
Qed.

Lemma try_move_back_cases e p c w :
  heap w !! p = Some c ->
  defers e (ioloop_time w) c
  \/ snd (imap_client_try_move_back e p w) = true.
Proof.
  intros H. unfold defers.
  destruct (Z_lt_le_dec 0 (env_buffer_used e)) as [Hb|Hb].
  { right. rewrite (try_move_back_buffered e p c w) by assumption.
    reflexivity. }
  destruct (Z_lt_le_dec 0 (env_master_ret e)) as [Hr|Hr].
  { right. rewrite (try_move_back_success e p c w) by assumption.
    reflexivity. }
  destruct (Z_lt_le_dec (env_master_ret e) 0) as [Hn|Hn].
  { right. rewrite (try_move_back_failed e p c w) by auto. reflexivity. }
  destruct (imap_move_has_reached_timeout (ioloop_time w) c) eqn:Ht.
  { right. rewrite (try_move_back_failed e p c w) by auto. reflexivity. }
  left. repeat split; [assumption | lia].
Qed.

(** ** Calls on the client descriptor *)

Lemma fd_calls_app t1 t2 : fd_calls (t1 ++ t2) = fd_calls t1 ++ fd_calls t2.
Proof. unfold fd_calls. apply List.filter_app. Qed.

Lemma master_inits_app t1 t2 :
  master_inits (t1 ++ t2) = master_inits t1 ++ master_inits t2.
Proof. unfold master_inits. apply List.filter_app. Qed.

Lemma notify_effects_quiet c :
  fd_calls (notify_effects c) = [] /\ master_inits (notify_effects c) = [].
Proof.
  unfold notify_effects. induction (notifys c) as [|n l [IH1 IH2]];
    [split; reflexivity|].
  cbn [fmap list_fmap concat snd notify_stop].
  rewrite fd_calls_app, master_inits_app, IH1, IH2.
  destruct (notify_io n), (notify_fd n =? -1); split; reflexivity.
Qed.

Lemma stop_effects_quiet c :
  fd_calls (stop_effects c) = [] /\ master_inits (stop_effects c) = [].
Proof.
  unfold stop_effects. rewrite fd_calls_app, master_inits_app.
  destruct (notify_effects_quiet c) as [-> ->].
  destruct (io c); split; reflexivity.
Qed.

Lemma destroy_effects_fd p c reason :
  0 < fd c ->
  fd_calls (destroy_effects p c reason)
  = (if shutdown_fd_on_destroy c then [E_shutdown (fd c)] else [])
    ++ [E_close (fd c)].
Proof.
  intros Hfd. unfold destroy_effects.
  rewrite !fd_calls_app. destruct (stop_effects_quiet c) as [-> _].
  rewrite (proj2 (Z.eqb_neq (fd c) (-1))) by lia.
  destruct reason, (anvil_sent (state c)), (master_conn c),
    (shutdown_fd_on_destroy c); reflexivity.
Qed.

Lemma destroy_effects_no_init p c reason :
  master_inits (destroy_effects p c reason) = [].
Proof.
  unfold destroy_effects.
  rewrite !master_inits_app. destruct (stop_effects_quiet c) as [_ ->].
  destruct reason, (anvil_sent (state c)), (master_conn c),
    (shutdown_fd_on_destroy c), (fd c =? -1); reflexivity.
Qed.

(** C1, as amended.  Every destruction closes the core's descriptor of the
    client.  A [shutdown(RDWR)] comes before the close exactly when
    [shutdown_fd_on_destroy] is set at that moment; the read callback clears
    the flag on a reply line that begins with '+', so after such a reply the
    descriptor is closed without a shutdown, and after any other reply it is
    shut down first if the flag was set. *)
Theorem destroy_fd_calls (p : nat) (c : imap_client) (reason : option string)
    (line : list ascii) (w : core) :
  heap w !! p = Some c -> 0 < fd c ->
  fd_calls (trace (imap_client_destroy p reason w))
  = fd_calls (trace w)
    ++ (if shutdown_fd_on_destroy c then [E_shutdown (fd c)] else [])
    ++ [E_close (fd c)]
  /\ fd_calls (trace (imap_client_move_back_read_callback p line w))
     = fd_calls (trace w)
       ++ (if Ascii.eqb (default NUL (head line)) "+"%char then []
           else if shutdown_fd_on_destroy c then [E_shutdown (fd c)] else [])
       ++ [E_close (fd c)]
  /\ heap (imap_client_move_back_read_callback p line w) !! p = None.
Proof.
  intros H Hfd. split; [|split].
  - rewrite (destroy_spec p c) by assumption. cbn [trace].
    rewrite fd_calls_app, destroy_effects_fd by assumption. reflexivity.
  - unfold imap_client_move_back_read_callback, imap_client_unhibernate_failed.
    destruct (Ascii.eqb (default NUL (head line)) "+"%char); cbn [negb].
    + erewrite destroy_spec by live H. cbn [trace modify set_heap].
      rewrite fd_calls_app, destroy_effects_fd by assumption. reflexivity.
    + erewrite destroy_spec by live H. cbn [trace emit set_trace].
      rewrite !fd_calls_app, destroy_effects_fd by assumption.
      cbn. rewrite app_nil_r. reflexivity.
  - unfold imap_client_move_back_read_callback, imap_client_unhibernate_failed.
    destruct (Ascii.eqb (default NUL (head line)) "+"%char); cbn [negb];
      (erewrite destroy_spec by live H); cbn; apply lookup_delete_eq.
Qed.

Lemma destroy_fd_calls_witness :
  fd_calls
    (trace (imap_client_move_back_read_callback 1 (bytes "-busy")
              (after handed_over)))
  = [E_shutdown 5; E_close 5].
Proof.
  eapply eq_trans;
    [ eapply (destroy_fd_calls 1 _ None (bytes "-busy") (after handed_over))
    | ].
  - vm_compute. reflexivity.
  - vm_compute. reflexivity.
  - vm_compute. reflexivity.
Defined.

(** C1 fails as stated: a session hands its descriptor to the master, the
    flag is set, the reply is "+", and the core closes descriptor 5. *)
Lemma handoff_closes_client_fd :
  (c ← heap (after handed_over) !! 1%nat; Some (shutdown_fd_on_destroy c, fd c))
  = Some (true, 5)
  /\ (w ← run (handed_over ++ [EvMasterRead 1 (bytes "+")]) boot;
      Some (fd_calls (trace w), heap w !! 1%nat))
     = Some ([E_close 5], None).
Proof. split; vm_compute; reflexivity. Qed.

(** ** Deferred attempts *)

Lemma closed_notifys_closed c n :
  n ∈ closed_notifys c -> notify_io n = false /\ notify_fd n = -1.
Proof.
  unfold closed_notifys. rewrite <- list_fmap_compose.
  intros Hin. apply list_elem_of_fmap in Hin as (m & -> & _).
  split; reflexivity.
Qed.

Lemma notify_effects_close c n :
  n ∈ notifys c -> notify_fd n <> -1 ->
  E_notify_close (notify_fd n) ∈ notify_effects c.
Proof.
  unfold notify_effects. intros Hin Hfd.
  induction (notifys c) as [|m l IH]; [inversion Hin|].
  cbn [fmap list_fmap concat snd notify_stop].
  apply elem_of_app. apply elem_of_cons in Hin as [<- | Hin].
  - left. rewrite (proj2 (Z.eqb_neq _ _)) by assumption.
    apply elem_of_app. right. left.
  - right. apply IH. exact Hin.
Qed.

(** C3, as amended.  When an attempt defers, the session stays, its client
    I/O watcher is removed exactly when [input_pending] is true, and every
    notify watcher is removed and every notify descriptor closed. *)
Theorem deferral_stops_notify_listening (e : io_env) (p : nat)
    (c : imap_client) (w : core) :
  heap w !! p = Some c -> defers e (ioloop_time w) c ->
  exists w' c',
    imap_client_try_move_back e p w = (w', false)
    /\ heap w' !! p = Some c'
    /\ io c' = (if input_pending c then false else io c)
    /\ length (notifys c') = length (notifys c)
    /\ (forall n, n ∈ notifys c' -> notify_io n = false /\ notify_fd n = -1)
    /\ (forall n, n ∈ notifys c -> notify_fd n <> -1 ->
        E_notify_close (notify_fd n) ∈ trace w').
Proof.
  intros H Hd. eexists _, (deferred c).
  split; [exact (try_move_back_deferred e p c w H Hd)|].
  cbn [heap trace]. split; [apply lookup_insert_eq|].
  split; [unfold deferred; destruct (input_pending c); reflexivity|].
  split.
  { unfold deferred, closed_notifys. cbn. rewrite !length_fmap. reflexivity. }
  split.
  - intros n Hn. apply (closed_notifys_closed c). exact Hn.
  - intros n Hn Hfd. apply elem_of_app. right. unfold defer_effects.
    apply elem_of_app. right. apply elem_of_app. right.
    apply notify_effects_close; assumption.
Qed.

Lemma deferral_stops_notify_listening_witness :
  exists w' c',
    imap_client_try_move_back env_busy 1 (after one_session) = (w', false)
    /\ heap w' !! 1%nat = Some c'
    /\ notifys c' = [{| notify_fd := -1; notify_io := false |}].
Proof.
  destruct (deferral_stops_notify_listening env_busy 1
              (session_at (after one_session) 1)
              (after one_session))
    as (w' & c' & Htry & Hc' & _ & Hlen & Hclosed & _).
  - vm_compute. reflexivity.
  - vm_compute. repeat split; discriminate.
  - exists w', c'. split; [exact Htry|]. split; [exact Hc'|].
    destruct (notifys c') as [|n [|n' l]]; try discriminate Hlen.
    destruct (Hclosed n) as [Hio Hfd]; [left|].
    destruct n. simpl in *. subst. reflexivity.
Defined.

(** C3 fails as stated: a notify wakes the only session, the master socket
    is busy, and the attempt leaves the notify watcher removed and its
    descriptor 8 closed. *)
Lemma deferral_closes_notify_fd :
  (c ← heap (after one_session) !! 1%nat; Some (input_pending c, notifys c))
  = Some (false, [{| notify_fd := 8; notify_io := true |}])
  /\ (let '(w', moved) :=
        imap_client_try_move_back env_busy 1 (after one_session) in
      c' ← heap w' !! 1%nat;
      Some (moved, notifys c', drop (length (trace (after one_session)))
                                 (trace w')))
     = Some (false, [{| notify_fd := -1; notify_io := false |}],
             [E_master_init 1; E_retry 1 (bytes "busy");
              E_notify_io_remove 8; E_notify_close 8]).
Proof. split; vm_compute; reflexivity. Qed.

(** ** Deadlines *)


Lemma reached_timeout_iff now c :
  imap_move_has_reached_timeout now c = true
  <-> move_back_start c <> 0 /\ deadline c < now.
Proof.
  unfold imap_move_has_reached_timeout, deadline.
  rewrite andb_true_iff, negb_true_iff, Z.eqb_neq, Z.gtb_gt. lia.
Qed.

Lemma priorityq_delete_not_in p q : NoDup q -> p ∉ priorityq_delete p q.
Proof.
  induction 1 as [|x q Hx Hnd IH]; simpl; [apply not_elem_of_nil|].
  destruct (Nat.eqb_spec x p) as [->|Hne]; [assumption|].
  rewrite not_elem_of_cons. split; [congruence | assumption].
Qed.

(** A session that [imap_client_move_back] leaves queued has its
    [move_back_start] set, as long as the clock of the event loop is not
    zero. *)
Lemma move_back_sets_start e p c c' w :
  heap w !! p = Some c -> ioloop_time w <> 0 ->
  (unhibernate_queued c = true -> move_back_start c <> 0) ->
  heap (imap_client_move_back e p w) !! p = Some c' ->
  unhibernate_queued c' = true ->
  move_back_start c' <> 0.
Proof.
  intros H Hclock Hbefore. unfold imap_client_move_back.
  destruct (Z_lt_le_dec 0 (env_buffer_used e)) as [Hb|Hb].
  { rewrite (try_move_back_buffered e p c w) by assumption.
    rewrite (destroy_spec p c) by assumption. cbn.
    rewrite lookup_delete_eq. discriminate. }
  destruct (Z_lt_le_dec 0 (env_master_ret e)) as [Hr|Hr].
  { rewrite (try_move_back_success e p c w) by assumption.
    erewrite stop_spec by live H. cbn. rewrite lookup_insert_eq.
    intros [= <-]. discriminate. }
  destruct (imap_move_has_reached_timeout (ioloop_time w) c) eqn:Ht.
  { rewrite (try_move_back_failed e p c w) by auto.
    unfold imap_client_unhibernate_failed.
    erewrite destroy_spec by live H. cbn.
    rewrite lookup_delete_eq. discriminate. }
  destruct (Z_lt_le_dec (env_master_ret e) 0) as [Hn|Hn].
  { rewrite (try_move_back_failed e p c w) by auto.
    unfold imap_client_unhibernate_failed.
    erewrite destroy_spec by live H. cbn.
    rewrite lookup_delete_eq. discriminate. }
  rewrite (try_move_back_deferred e p c w H)
    by (repeat split; [assumption | lia | assumption]).
  cbn [heap ioloop_time]. rewrite lookup_insert_eq.
  assert (Hs : move_back_start (deferred c) = move_back_start c)
    by (unfold deferred; destruct (input_pending c); reflexivity).
  assert (Hq : unhibernate_queued (deferred c) = unhibernate_queued c)
    by (unfold deferred; destruct (input_pending c); reflexivity).
  rewrite Hs, Hq.
  destruct (move_back_start c =? 0) eqn:Hz, (unhibernate_queued c) eqn:Hqc;
    match goal with
    | |- context [to_unhibernate ?w1] => destruct (to_unhibernate w1)
    end;
    unfold priorityq_add, modify, set_heap, set_unhibernate_queue,
      set_to_unhibernate; cbn;
    rewrite ?lookup_alter_eq, ?lookup_insert_eq; cbn;
    rewrite ?lookup_alter_eq, ?lookup_insert_eq; cbn;
    intros [= <-] _; cbn; try exact Hclock;
    destruct (input_pending c); cbn; apply Z.eqb_neq; exact Hz.
Qed.

(** C6.  An attempt made while the output stream holds buffered bytes
    destroys the session with the reason "Client output buffer is full" and
    starts no connection to the master. *)
Theorem buffered_output_refuses_unhibernation (e : io_env) (p : nat)
    (c : imap_client) (w : core) :
  heap w !! p = Some c -> 0 < env_buffer_used e ->
  exists w',
    imap_client_try_move_back e p w = (w', true)
    /\ imap_client_move_back e p w = w'
    /\ heap w' !! p = None
    /\ (p ∉ imap_clients w')
    /\ E_disconnected p "Client output buffer is full" ∈ trace w'
    /\ master_inits (trace w') = master_inits (trace w).
Proof.
  intros H Hb. eexists.
  split; [apply (try_move_back_buffered e p c); assumption|].
  split.
  { unfold imap_client_move_back.
    rewrite (try_move_back_buffered e p c) by assumption. reflexivity. }
  rewrite (destroy_spec p c) by assumption. cbn [heap imap_clients trace].
  split; [apply lookup_delete_eq|].
  split.
  { rewrite list_elem_of_filter. intros [Hne _]. apply Hne. reflexivity. }
  split.
  - apply elem_of_app. right. unfold destroy_effects.
    apply elem_of_app. left. left.
  - rewrite master_inits_app, destroy_effects_no_init, app_nil_r. reflexivity.
Qed.

Lemma buffered_output_refuses_unhibernation_witness :
  exists w',
    imap_client_move_back (with_buffer_used 1 env_busy) 1 (after one_session)
    = w'
    /\ heap w' !! 1%nat = None
    /\ master_inits (trace w') = [].
Proof.
  destruct (buffered_output_refuses_unhibernation
              (with_buffer_used 1 env_busy) 1
              (session_at (after one_session) 1)
              (after one_session))
    as (w' & _ & Hmove & Hgone & _ & _ & Hinit).
  - vm_compute. reflexivity.
  - vm_compute. reflexivity.
  - exists w'. split; [exact Hmove|]. split; [exact Hgone|]. exact Hinit.
Defined.

(** ** Kick *)

Lemma kick_loop_count user guid clients count w :
  snd (kick_loop user guid clients count w) = count.
Proof.
  revert w. induction clients as [|p l IH]; intros w; simpl; [reflexivity|].
  apply IH.
Qed.

(** C9.  [imap_clients_kick] returns 0 whatever it kicked. *)
Theorem kick_returns_zero (user : string) (conn_guid : Z) (w : core) :
  snd (imap_clients_kick user conn_guid w) = 0.
Proof. unfold imap_clients_kick. apply kick_loop_count. Qed.

Example kick_alice :
  let '(w', count) := imap_clients_kick "alice" 0 (after two_queued) in
  (imap_clients (after two_queued), imap_clients w', count)
  = ([2%nat; 1%nat], [2%nat], 0).
Proof. vm_compute. reflexivity. Qed.

(** ** The DONE+IDLE refresh *)








(** ** The retry queue and the flag *)

Lemma queue_inv_flag w :
  queue_inv w
  <-> NoDup (unhibernate_queue w)
      /\ forall p, p ∈ unhibernate_queue w <-> flag w p = Some true.
Proof.
  unfold queue_inv, flag. split; intros [Hnd Hq]; (split; [exact Hnd|]);
    intros p; rewrite Hq; clear Hq.
  - split.
    + intros (c & -> & Hc). cbn. rewrite Hc. reflexivity.
    + destruct (heap w !! p) as [c|]; cbn; [|discriminate].
      intros [= Hc]. exists c. split; [reflexivity | exact Hc].
  - split.
    + destruct (heap w !! p) as [c|]; cbn; [|discriminate].
      intros [= Hc]. exists c. split; [reflexivity | exact Hc].
    + intros (c & -> & Hc). cbn. rewrite Hc. reflexivity.
Qed.

Lemma inv_frame w w' :
  unhibernate_queue w' = unhibernate_queue w ->
  (forall p, flag w' p = flag w p) ->
  queue_inv w -> queue_inv w'.
Proof.
  rewrite !queue_inv_flag. intros Hq Hf [Hnd Hin]. rewrite Hq.
  split; [exact Hnd|]. intros p. rewrite Hf. apply Hin.
Qed.

Lemma inv_emit es w : queue_inv w -> queue_inv (emit es w).
Proof. apply inv_frame; reflexivity. Qed.

Lemma inv_modify p f w :
  (forall c, unhibernate_queued (f c) = unhibernate_queued c) ->
  queue_inv w -> queue_inv (modify p f w).
Proof.
  intros Hf. apply inv_frame; [reflexivity|].
  intros q. unfold flag, modify. cbn. rewrite lookup_alter.
  case_decide; [subst|reflexivity].
  destruct (heap w !! q); cbn; [rewrite Hf|]; reflexivity.
Qed.

Lemma inv_set_to_unhibernate v w :
  queue_inv w -> queue_inv (set_to_unhibernate v w).
Proof. apply inv_frame; reflexivity. Qed.

Lemma inv_set_ioloop_time v w :
  queue_inv w -> queue_inv (set_ioloop_time v w).
Proof. apply inv_frame; reflexivity. Qed.

Lemma inv_set_imap_clients v w :
  queue_inv w -> queue_inv (set_imap_clients v w).
Proof. apply inv_frame; reflexivity. Qed.

(** The queue operations on lists. *)
Lemma priorityq_delete_in p x q :
  NoDup q -> x ∈ priorityq_delete p q <-> x ∈ q /\ x <> p.
Proof.
  induction 1 as [|y q Hy Hnd IH]; simpl.
  - split; [intros Hx; inversion Hx | intros [Hx _]; inversion Hx].
  - destruct (Nat.eqb_spec y p) as [->|Hne].
    + rewrite elem_of_cons. split.
      * intros Hx. split; [right; exact Hx|]. intros ->. contradiction.
      * intros [[->|Hx] Hxp]; [contradiction | exact Hx].
    + rewrite !elem_of_cons, IH. split.
      * intros [->|[Hx Hxp]]; [split; [left; reflexivity | exact Hne]|].
        split; [right; exact Hx | exact Hxp].
      * intros [[->|Hx] Hxp]; [left; reflexivity | right; split; assumption].
Qed.

Lemma priorityq_delete_NoDup p q : NoDup q -> NoDup (priorityq_delete p q).
Proof.
  induction 1 as [|y q Hy Hnd IH]; simpl; [constructor|].
  destruct (Nat.eqb_spec y p) as [->|Hne]; [exact Hnd|].
  constructor; [|exact IH].
  rewrite priorityq_delete_in by exact Hnd. intros [Hin _]. contradiction.
Qed.

Lemma priorityq_delete_length p q :
  p ∈ q -> (length (priorityq_delete p q) < length q)%nat.
Proof.
  induction q as [|y q IH]; simpl; [intros Hp; inversion Hp|].
  intros Hp. destruct (Nat.eqb_spec y p) as [->|Hne]; [lia|].
  apply elem_of_cons in Hp as [->|Hp]; [contradiction|].
  simpl. specialize (IH Hp). lia.
Qed.

Lemma priorityq_delete_absent p q : p ∉ q -> priorityq_delete p q = q.
Proof.
  induction q as [|y q IH]; simpl; [reflexivity|].
  rewrite not_elem_of_cons. intros [Hne Hp].
  destruct (Nat.eqb_spec y p) as [->|_]; [contradiction|].
  rewrite IH by exact Hp. reflexivity.
Qed.

Lemma priorityq_insert_in cmp p x q :
  x ∈ priorityq_insert cmp p q <-> x = p \/ x ∈ q.
Proof.
  induction q as [|y q IH]; simpl.
  - rewrite elem_of_cons. reflexivity.
  - destruct (cmp p y <? 0); rewrite !elem_of_cons; [reflexivity|].
    rewrite IH. tauto.
Qed.

Lemma priorityq_insert_NoDup cmp p q :
  p ∉ q -> NoDup q -> NoDup (priorityq_insert cmp p q).
Proof.
  intros Hp Hnd. induction Hnd as [|y q Hy Hnd IH]; simpl.
  - constructor; [apply not_elem_of_nil | constructor].
  - apply not_elem_of_cons in Hp as [Hne Hp].
    destruct (cmp p y <? 0).
    + constructor; [|constructor; assumption].
      rewrite not_elem_of_cons. split; assumption.
    + constructor; [|apply IH; exact Hp].
      rewrite priorityq_insert_in. intros [->|Hin]; contradiction.
Qed.

(** Taking a session out of the queue, or out of memory. *)
Lemma inv_dequeue p c w w' :
  heap w !! p = Some c ->
  unhibernate_queue w'
  = (if unhibernate_queued c
     then priorityq_delete p (unhibernate_queue w)
     else unhibernate_queue w) ->
  (forall q, q <> p -> flag w' q = flag w q) ->
  flag w' p <> Some true ->
  queue_inv w -> queue_inv w'.
Proof.
  rewrite !queue_inv_flag. intros H Hq Hother Hp [Hnd Hin].
  assert (Hflag : flag w p = Some (unhibernate_queued c))
    by (unfold flag; rewrite H; reflexivity).
  assert (Hq' : unhibernate_queue w'
                = priorityq_delete p (unhibernate_queue w)).
  { rewrite Hq. destruct (unhibernate_queued c) eqn:Hc; [reflexivity|].
    symmetry. apply priorityq_delete_absent. rewrite Hin, Hflag.
    discriminate. }
  rewrite Hq'. split; [apply priorityq_delete_NoDup; exact Hnd|].
  intros q. rewrite priorityq_delete_in by exact Hnd.
  destruct (decide (q = p)) as [->|Hne].
  - split; [intros [_ Hne]; contradiction | intros Ht; contradiction].
  - rewrite Hother by exact Hne. rewrite Hin. tauto.
Qed.

Lemma inv_stop p w : queue_inv w -> queue_inv (imap_client_stop p w).
Proof.
  intros Hinv. destruct (heap w !! p) as [c|] eqn:H.
  - rewrite (stop_spec p c) by exact H.
    apply (inv_dequeue p c w); [exact H | reflexivity | | | exact Hinv].
    + intros q Hne. unfold flag. cbn. rewrite lookup_insert_ne by done.
      reflexivity.
    + unfold flag. cbn. rewrite lookup_insert_eq. discriminate.
  - unfold imap_client_stop. rewrite H. exact Hinv.
Qed.

Lemma inv_destroy p reason w :
  queue_inv w -> queue_inv (imap_client_destroy p reason w).
Proof.
  intros Hinv. destruct (heap w !! p) as [c|] eqn:H.
  - rewrite (destroy_spec p c) by exact H.
    apply (inv_dequeue p c w); [exact H | reflexivity | | | exact Hinv].
    + intros q Hne. unfold flag. cbn. rewrite lookup_delete_ne by done.
      reflexivity.
    + unfold flag. cbn. rewrite lookup_delete_eq. discriminate.
  - unfold imap_client_destroy. rewrite H. exact Hinv.
Qed.

Lemma inv_io_remove p w : queue_inv w -> queue_inv (io_remove_client p w).
Proof.
  intros Hinv. unfold io_remove_client. destruct (heap w !! p); [|exact Hinv].
  apply inv_emit, inv_modify; [reflexivity | exact Hinv].
Qed.

Lemma inv_stop_notify p w :
  queue_inv w -> queue_inv (imap_client_stop_notify_listening p w).
Proof.
  intros Hinv. unfold imap_client_stop_notify_listening.
  destruct (heap w !! p); [|exact Hinv].
  apply inv_emit, inv_modify; [reflexivity | exact Hinv].
Qed.

Lemma inv_unhibernate_failed p err w :
  queue_inv w -> queue_inv (imap_client_unhibernate_failed p err w).
Proof. intros Hinv. apply inv_destroy, inv_emit, Hinv. Qed.

Lemma inv_try_move_back e p w :
  queue_inv w -> queue_inv (fst (imap_client_try_move_back e p w)).
Proof.
  intros Hinv. unfold imap_client_try_move_back.
  destruct (heap w !! p) as [c|]; [|exact Hinv].
  destruct (env_buffer_used e >? 0); cbn [fst]; [apply inv_destroy, Hinv|].
  destruct (env_master_ret e >? 0); cbn [fst].
  { apply inv_stop, inv_modify; [reflexivity|]. apply inv_emit, Hinv. }
  destruct (_ || _); cbn [fst].
  { apply inv_unhibernate_failed, inv_emit, Hinv. }
  apply inv_stop_notify.
  destruct (input_pending c); [apply inv_io_remove|]; apply inv_emit;
    try apply inv_emit; exact Hinv.
Qed.

Lemma try_move_back_live e p w :
  snd (imap_client_try_move_back e p w) = false ->
  is_Some (heap (fst (imap_client_try_move_back e p w)) !! p)
  /\ unhibernate_queue (fst (imap_client_try_move_back e p w))
     = unhibernate_queue w
  /\ to_unhibernate (fst (imap_client_try_move_back e p w))
     = to_unhibernate w
  /\ env_buffer_used e <= 0 /\ env_master_ret e = 0.
Proof.
  destruct (heap w !! p) as [c|] eqn:H.
  - destruct (try_move_back_cases e p c w H) as [Hd|Hm];
      [|intros Hf; congruence].
    rewrite (try_move_back_deferred e p c w H Hd). cbn. intros _.
    rewrite lookup_insert_eq. destruct Hd as (? & ? & ?). eauto.
  - unfold imap_client_try_move_back. rewrite H. discriminate.
Qed.

Lemma inv_move_back e p w :
  queue_inv w -> queue_inv (imap_client_move_back e p w).
Proof.
  intros Hinv. unfold imap_client_move_back.
  pose proof (inv_try_move_back e p w Hinv) as Hinv1.
  destruct (imap_client_try_move_back e p w) as [w1 moved].
  cbn [fst snd] in *. destruct moved; [exact Hinv1|].
  destruct (heap w1 !! p) as [c|] eqn:H; [|exact Hinv1].
  set (w2 := if move_back_start c =? 0
             then modify p (set_move_back_start (ioloop_time w1)) w1
             else w1).
  assert (Hinv2 : queue_inv w2).
  { subst w2. destruct (_ =? 0); [|exact Hinv1].
    apply inv_modify; [reflexivity | exact Hinv1]. }
  assert (Hflag2 : forall q, flag w2 q = flag w1 q).
  { intros q. subst w2. destruct (_ =? 0); [|reflexivity].
    unfold flag, modify. cbn. rewrite lookup_alter. case_decide; [subst|done].
    destruct (heap w1 !! q); reflexivity. }
  assert (Hq2 : unhibernate_queue w2 = unhibernate_queue w1)
    by (subst w2; destruct (_ =? 0); reflexivity).
  clearbody w2.
  assert (queue_inv
            (if unhibernate_queued c then w2
             else priorityq_add p
                    (modify p (set_unhibernate_queued true) w2))) as Hinv3.
  { destruct (unhibernate_queued c) eqn:Hc; [exact Hinv2|].
    apply queue_inv_flag in Hinv2 as [Hnd Hin].
    assert (Hp : p ∉ unhibernate_queue w2).
    { rewrite Hin, Hflag2. unfold flag. rewrite H. cbn. rewrite Hc.
      discriminate. }
    apply queue_inv_flag. unfold priorityq_add. cbn. split.
    - apply priorityq_insert_NoDup; assumption.
    - intros q. rewrite priorityq_insert_in. unfold flag. cbn.
      rewrite lookup_alter. case_decide as Hqp.
      + subst q. assert (is_Some (heap w2 !! p)) as [c2 Hc2].
        { specialize (Hflag2 p). unfold flag in Hflag2. rewrite H in Hflag2.
          destruct (heap w2 !! p); [eauto | discriminate]. }
        rewrite Hc2. cbn. split; [reflexivity | left; reflexivity].
      + rewrite Hin. unfold flag. split; [|intros Hq; right; exact Hq].
        intros [->|Hq]; [contradiction | exact Hq]. }
  match goal with |- queue_inv (if to_unhibernate ?w3 then _ else _) =>
    destruct (to_unhibernate w3) end; [exact Hinv3|].
  apply inv_set_to_unhibernate. exact Hinv3.
Qed.

Create HintDb inv discriminated.
#[local] Hint Resolve inv_emit inv_modify inv_set_to_unhibernate
  inv_set_ioloop_time inv_set_imap_clients inv_stop inv_destroy
  inv_io_remove inv_stop_notify inv_unhibernate_failed inv_move_back : inv.

Lemma inv_add_keepalive p w :
  queue_inv w -> queue_inv (imap_client_add_idle_keepalive_timeout p w).
Proof.
  intros Hinv. unfold imap_client_add_idle_keepalive_timeout.
  destruct (heap w !! p); [|exact Hinv].
  destruct (_ =? 0); [exact Hinv|]. apply inv_emit, inv_modify; auto.
Qed.

Lemma inv_send_str ret p str w :
  queue_inv w -> queue_inv (o_stream_send_str ret p str w).
Proof.
  intros Hinv. unfold o_stream_send_str.
  destruct (heap w !! p); [|exact Hinv].
  destruct (ret <? 0); auto with inv.
Qed.

Lemma inv_skip n p w : queue_inv w -> queue_inv (i_stream_skip n p w).
Proof. intros Hinv. apply inv_modify; auto. Qed.

Lemma inv_disconnected e p w :
  queue_inv w -> queue_inv (imap_client_disconnected e p w).
Proof. apply inv_destroy. Qed.

Ltac inv_auto :=
  repeat first
    [ assumption
    | apply inv_emit | apply inv_set_to_unhibernate
    | apply inv_set_ioloop_time | apply inv_set_imap_clients
    | apply inv_stop | apply inv_destroy | apply inv_io_remove
    | apply inv_stop_notify | apply inv_unhibernate_failed
    | apply inv_move_back | apply inv_add_keepalive | apply inv_send_str
    | apply inv_skip | apply inv_disconnected
    | apply inv_modify; [intros ?; reflexivity|] ].

Lemma inv_input_idle_cmd e p w w' :
  queue_inv w -> imap_client_input_idle_cmd e p w = Some w' -> queue_inv w'.
Proof.
  intros Hinv. unfold imap_client_input_idle_cmd.
  destruct (heap w !! p) as [c|]; [|intros [= <-]; exact Hinv].
  destruct (_ =? 0).
  { intros [= <-]. destruct (_ <? 0); inv_auto. }
  destruct (imap_client_input_parse _ _) as [[[] tg]|]; cbn [mbind option_bind];
    try discriminate; try (intros [= <-]; inv_auto).
  destruct tg as [new_tag|]; cbn [mbind option_bind]; [|discriminate].
  destruct (env_flush_ret e >? 0).
  - destruct (env_send_ret e <? 0); [intros [= <-]; inv_auto|].
    destruct (negb _); intros [= <-]; inv_auto.
  - destruct (env_flush_ret e <? 0); [intros [= <-]; inv_auto|].
    destruct (negb _); intros [= <-]; inv_auto.
Qed.

Lemma inv_input_nonidle e p w :
  queue_inv w -> queue_inv (imap_client_input_nonidle e p w).
Proof.
  intros Hinv. unfold imap_client_input_nonidle.
  destruct (heap w !! p); [|exact Hinv]. destruct (_ <? 0); inv_auto.
Qed.

Lemma inv_keepalive_timeout e p w w' :
  queue_inv w -> keepalive_timeout e p w = Some w' -> queue_inv w'.
Proof.
  intros Hinv. unfold keepalive_timeout.
  destruct (env_flush_ret e <? 0); [intros [= <-]; inv_auto|].
  destruct (env_flush_ret e =? 0); [intros [= <-]; inv_auto|].
  destruct (env_send_ret e <? 0); [intros [= <-]; inv_auto|].
  destruct (_ =? _); [intros [= <-]; inv_auto | discriminate].
Qed.

Lemma inv_send_callback e p w w' :
  queue_inv w -> imap_client_move_back_send_callback e p w = Some w' ->
  queue_inv w'.
Proof.
  intros Hinv. unfold imap_client_move_back_send_callback.
  destruct (heap w !! p); [|intros [= <-]; exact Hinv].
  destruct (negb _); [discriminate|].
  destruct (_ <? 0); [intros [= <-]; inv_auto|].
  destruct (_ >? 0); [intros [= <-]; inv_auto | discriminate].
Qed.

Lemma inv_read_callback p line w :
  queue_inv w -> queue_inv (imap_client_move_back_read_callback p line w).
Proof.
  intros Hinv. unfold imap_client_move_back_read_callback.
  destruct (negb _); inv_auto.
Qed.

Lemma inv_kick p shutdown w :
  queue_inv w -> queue_inv (imap_client_kick p shutdown w).
Proof.
  intros Hinv. unfold imap_client_kick.
  destruct (heap w !! p); inv_auto.
Qed.

Lemma inv_kick_loop user guid clients count w :
  queue_inv w -> queue_inv (fst (kick_loop user guid clients count w)).
Proof.
  revert w. induction clients as [|p l IH]; intros w Hinv; simpl;
    [exact Hinv|].
  apply IH. destruct (heap w !! p) as [c|]; [|exact Hinv].
  destruct (kick_matches user guid c); [apply inv_kick|]; exact Hinv.
Qed.

Lemma inv_create p fd st anvil_ok w :
  heap w !! p = None -> queue_inv w ->
  queue_inv (imap_client_create p fd st anvil_ok w).
Proof.
  intros Hfresh. rewrite !queue_inv_flag. intros [Hnd Hin].
  split; [exact Hnd|]. intros q. unfold imap_client_create, flag. cbn.
  rewrite Hin. unfold flag. rewrite lookup_insert. case_decide; [subst|done].
  rewrite Hfresh. cbn. split; discriminate.
Qed.

Lemma inv_add_notify_fds p fds w :
  queue_inv w ->
  queue_inv (foldl (fun w nfd => imap_client_add_notify_fd p nfd w) w fds).
Proof.
  revert w. induction fds as [|nfd fds IH]; intros w Hinv; simpl;
    [exact Hinv|].
  apply IH. unfold imap_client_add_notify_fd. inv_auto.
Qed.

Lemma inv_create_finish p w :
  queue_inv w -> queue_inv (imap_client_create_finish p w).
Proof. intros Hinv. unfold imap_client_create_finish. inv_auto. Qed.

(** The retry tick. *)
Lemma try_move_back_moved e p c w :
  heap w !! p = Some c ->
  snd (imap_client_try_move_back e p w) = true ->
  unhibernate_queue (fst (imap_client_try_move_back e p w))
  = if unhibernate_queued c
    then priorityq_delete p (unhibernate_queue w)
    else unhibernate_queue w.
Proof.
  intros H. unfold imap_client_try_move_back. rewrite H.
  destruct (env_buffer_used e >? 0); cbn [fst snd].
  { intros _. rewrite (destroy_spec p c) by exact H. reflexivity. }
  destruct (env_master_ret e >? 0); cbn [fst snd].
  { intros _. erewrite stop_spec by live H. reflexivity. }
  destruct (_ || _); cbn [fst snd]; [|discriminate].
  intros _. unfold imap_client_unhibernate_failed.
  erewrite destroy_spec by live H. reflexivity.
Qed.

Lemma try_move_back_timer e p w :
  to_unhibernate (fst (imap_client_try_move_back e p w)) = to_unhibernate w.
Proof.
  unfold imap_client_try_move_back.
  destruct (heap w !! p) as [c|] eqn:H; [|reflexivity].
  destruct (env_buffer_used e >? 0); cbn [fst].
  { rewrite (destroy_spec p c) by exact H. reflexivity. }
  destruct (env_master_ret e >? 0); cbn [fst].
  { erewrite stop_spec by live H. reflexivity. }
  destruct (_ || _); cbn [fst].
  { unfold imap_client_unhibernate_failed.
    erewrite destroy_spec by live H. reflexivity. }
  destruct (input_pending c).
  - erewrite io_remove_spec by live H.
    erewrite stop_notify_spec by live H. reflexivity.
  - erewrite stop_notify_spec by live H. reflexivity.
Qed.

Lemma priorityq_delete_subseteq p (q : list nat) : priorityq_delete p q ⊆ q.
Proof.
  induction q as [|y q IH]; simpl; [reflexivity|].
  destruct (Nat.eqb y p).
  - intros x Hx. right. exact Hx.
  - intros x Hx. apply elem_of_cons in Hx as [->|Hx]; [left|right].
    apply IH. exact Hx.
Qed.

Lemma unhibernate_loop_spec (env : nat -> io_env) (fuel : nat) (w : core) :
  queue_inv w -> (length (unhibernate_queue w) <= fuel)%nat ->
  exists w',
    unhibernate_loop fuel env w = Some w'
    /\ queue_inv w'
    /\ unhibernate_queue w' ⊆ unhibernate_queue w
    /\ ((unhibernate_queue w' = [] /\ to_unhibernate w' = false)
        \/ (exists p,
              priorityq_peek (unhibernate_queue w') = Some p
              /\ env_buffer_used (env p) <= 0
              /\ env_master_ret (env p) = 0
              /\ to_unhibernate w' = to_unhibernate w)).
Proof.
  revert w. induction fuel as [|fuel IH]; intros w Hinv Hlen.
  - destruct (unhibernate_queue w) as [|p q] eqn:Hq; [|simpl in Hlen; lia].
    exists (set_to_unhibernate false w). simpl. rewrite Hq. simpl.
    split; [reflexivity|]. split; [apply inv_set_to_unhibernate, Hinv|].
    split; [reflexivity|]. left. split; reflexivity.
  - simpl. destruct (unhibernate_queue w) as [|p q] eqn:Hq; simpl.
    { exists (set_to_unhibernate false w).
      split; [reflexivity|]. split; [apply inv_set_to_unhibernate, Hinv|].
      simpl. rewrite ?Hq. split; [reflexivity|]. left. split; reflexivity. }
    assert (Hp : p ∈ unhibernate_queue w) by (rewrite Hq; left).
    destruct Hinv as [Hnd Hin]. apply Hin in Hp as (c & H & Hc).
    pose proof (inv_try_move_back (env p) p w (conj Hnd Hin)) as Hinv1.
    pose proof (try_move_back_timer (env p) p w) as Htimer.
    pose proof (try_move_back_moved (env p) p c w H) as Hmoved.
    pose proof (try_move_back_live (env p) p w) as Hlive.
    destruct (imap_client_try_move_back (env p) p w) as [w1 moved].
    cbn [fst snd] in *. destruct moved.
    + specialize (Hmoved eq_refl). rewrite Hc, Hq in Hmoved.
      simpl in Hmoved. rewrite Nat.eqb_refl in Hmoved.
      destruct (IH w1 Hinv1) as (w' & Hrun & Hinv' & Hsub & Hend).
      { rewrite Hmoved. simpl in Hlen. lia. }
      exists w'. split; [exact Hrun|]. split; [exact Hinv'|].
      split.
      { intros x Hx. right. rewrite <- Hmoved. apply Hsub. exact Hx. }
      destruct Hend as [Hend | (p' & ? & ? & ? & Ht)]; [left; exact Hend|].
      right. exists p'. rewrite Ht, Htimer. auto.
    + destruct (Hlive eq_refl) as (_ & Hq1 & Ht1 & Hb & Hr).
      exists w1. split; [reflexivity|]. split; [exact Hinv1|].
      rewrite Hq1, Hq. split; [reflexivity|].
      right. exists p. auto.
Qed.

Lemma inv_init now : queue_inv (imap_clients_init now).
Proof.
  split; [constructor|]. intros p. simpl. split.
  - intros Hp. inversion Hp.
  - intros (c & Hc & _). rewrite lookup_empty in Hc. discriminate.
Qed.

Lemma inv_handle ev w w' :
  queue_inv w -> handle ev w = Some w' -> queue_inv w'.
Proof.
  intros Hinv. destruct ev; simpl.
  - destruct (heap w !! client) eqn:H; [discriminate|]. intros [= <-].
    apply inv_create_finish, inv_add_notify_fds, inv_create; assumption.
  - destruct (heap w !! client) as [c|]; [|discriminate].
    destruct (idle_cmd (state c)).
    + apply inv_input_idle_cmd. exact Hinv.
    + intros [= <-]. apply inv_input_nonidle. exact Hinv.
  - destruct (heap w !! client); [|discriminate]. intros [= <-].
    apply inv_move_back. exact Hinv.
  - destruct (heap w !! client); [|discriminate].
    apply inv_keepalive_timeout. exact Hinv.
  - unfold imap_clients_unhibernate. intros Hrun.
    destruct (unhibernate_loop_spec env _ w Hinv (le_n _))
      as (w1 & Hrun1 & Hinv1 & _).
    congruence.
  - destruct (heap w !! client); [|discriminate].
    apply inv_send_callback. exact Hinv.
  - destruct (heap w !! client); [|discriminate]. intros [= <-].
    apply inv_read_callback. exact Hinv.
  - intros [= <-]. apply inv_kick_loop. exact Hinv.
  - intros [= <-]. apply inv_set_ioloop_time. exact Hinv.
Qed.

Lemma reachable_queue_inv w : reachable w -> queue_inv w.
Proof.
  induction 1 as [now | w ev w' _ IH Hstep].
  - apply inv_init.
  - apply (inv_handle ev w); assumption.
Qed.

Lemma run_reachable evs w w' :
  reachable w -> run evs w = Some w' -> reachable w'.
Proof.
  revert w. induction evs as [|ev evs IH]; intros w Hw; simpl.
  - intros [= <-]. exact Hw.
  - destruct (handle ev w) as [w1|] eqn:Hstep; [|discriminate]. cbn.
    apply IH. apply (reachable_step w ev w1); assumption.
Qed.

Lemma two_queued_reachable : reachable (after two_queued).
Proof.
  apply (run_reachable two_queued boot); [apply reachable_init|].
  vm_compute. reflexivity.
Qed.

(** C8.  In every reachable state a session is in the retry queue exactly
    when its [unhibernate_queued] flag is true, the queue holds live
    sessions only and each at most once; and enqueueing on a deferred
    move-back, stopping and destroying all keep it so. *)
Theorem retry_queue_iff_flag (w : core) :
  reachable w ->
  (forall p c, heap w !! p = Some c ->
     (p ∈ unhibernate_queue w <-> unhibernate_queued c = true))
  /\ (forall p, p ∈ unhibernate_queue w -> is_Some (heap w !! p))
  /\ NoDup (unhibernate_queue w)
  /\ (forall e p, queue_inv (imap_client_move_back e p w))
  /\ (forall p, queue_inv (imap_client_stop p w))
  /\ (forall p reason, queue_inv (imap_client_destroy p reason w)).
Proof.
  intros Hw. pose proof (reachable_queue_inv w Hw) as Hinv.
  split; [|split; [|split; [|split; [|split]]]].
  - intros p c H. destruct Hinv as [_ Hin]. rewrite Hin, H. split.
    + intros (c' & [= <-] & Hc). exact Hc.
    + intros Hc. exists c. split; [reflexivity | exact Hc].
  - intros p Hp. destruct Hinv as [_ Hin]. apply Hin in Hp as (c & -> & _).
    eexists. reflexivity.
  - apply Hinv.
  - intros e p. apply inv_move_back. exact Hinv.
  - intros p. apply inv_stop. exact Hinv.
  - intros p reason. apply inv_destroy. exact Hinv.
Qed.

Lemma retry_queue_iff_flag_witness :
  unhibernate_queue (after two_queued) = [1%nat; 2%nat]
  /\ (1%nat ∈ unhibernate_queue (after two_queued)
      <-> unhibernate_queued (session_at (after two_queued) 1) = true)
  /\ queue_inv (imap_client_destroy 1 None (after two_queued)).
Proof.
  destruct (retry_queue_iff_flag (after two_queued) two_queued_reachable)
    as (Hiff & _ & _ & _ & _ & Hdestroy).
  split; [vm_compute; reflexivity|]. split.
  - apply Hiff. vm_compute. reflexivity.
  - apply Hdestroy.
Defined.

(** * Further properties *)

(** ** What the parser answers, buffer by buffer *)

Lemma i_memcasecmp_spec (p1 p2 : list ascii) (n : nat) :
  (n <= length p1)%nat -> (n <= length p2)%nat ->
  exists r,
    i_memcasecmp p1 p2 n = Ok r
    /\ (r = 0 <-> i_toupper <$> take n p1 = i_toupper <$> take n p2).
Proof.
  revert p1 p2. induction n as [|n IH]; intros p1 p2 H1 H2.
  - exists 0. split; [reflexivity|]. rewrite !take_0. tauto.
  - destruct p1 as [|a p1]; [simpl in H1; lia|].
    destruct p2 as [|b p2]; [simpl in H2; lia|].
    simpl in H1, H2. cbn [i_memcasecmp rd lookup list_lookup obind].
    destruct (Z.eqb_spec (i_toupper a - i_toupper b) 0) as [Heq|Hne].
    + cbn [drop]. rewrite !drop_0.
      destruct (IH p1 p2) as (r & Hr & Hiff); [lia..|].
      exists r. split; [exact Hr|]. rewrite Hiff. cbn.
      split; [intros ->; f_equal; lia | intros [= _ Ht]; exact Ht].
    + eexists. split; [reflexivity|]. cbn.
      split; [intros Hz; contradiction | intros [= Hab _]; lia].
Qed.

Lemma split_at_tag_end (l : list ascii) :
  tag_ok l
  \/ exists tag c rest, l = tag ++ c :: rest /\ tag_ok tag /\ ends_tag c = true.
Proof.
  induction l as [|x l IH]; [left; constructor|].
  destruct (ends_tag x) eqn:Hx.
  - right. exists [], x, l. split; [reflexivity|]. split; [constructor|exact Hx].
  - destruct IH as [Hok | (tag & c & rest & -> & Hok & Hc)].
    + left. constructor; assumption.
    + right. exists (x :: tag), c, rest. split; [reflexivity|].
      split; [constructor; assumption | exact Hc].
Qed.

Lemma begins_keyword_long d rest :
  length d = 4%nat ->
  begins_keyword "DONE" (d ++ rest) <-> spells "DONE" d.
Proof.
  intros Hd. unfold begins_keyword, spells.
  rewrite take_app_length' by (symmetry; exact Hd).
  rewrite take_ge; [reflexivity|]. rewrite length_app, Hd. simpl. lia.
Qed.

Lemma keyword_completes data :
  (length data <= 4)%nat -> begins_keyword "DONE" data ->
  exists d, spells "DONE" d /\ data = take (length data) d.
Proof.
  intros Hlen Hb. unfold begins_keyword in Hb.
  rewrite take_ge in Hb by lia.
  exists (data ++ drop (length data) (bytes "DONE")). split.
  - unfold spells. rewrite fmap_app, Hb, fmap_drop, DONE_upper.
    apply take_drop.
  - rewrite take_app_length. reflexivity.
Qed.

Lemma parse_mismatch data :
  ~ begins_keyword "DONE" data ->
  parse_buffer data = Ok (IMAP_CLIENT_INPUT_STATE_BAD, None).
Proof.
  intros Hno. unfold parse_buffer, imap_client_input_parse.
  replace (Z.to_nat (Z.min (Z.of_nat (length data)) 4))
    with (length data `min` 4)%nat by lia.
  destruct (i_memcasecmp_spec data (literal "DONE") (length data `min` 4))
    as (r & -> & Hiff); [lia | simpl; lia |].
  cbn [obind]. destruct (Z.eqb_spec r 0) as [Hz|Hnz]; [|reflexivity].
  exfalso. apply Hno. apply Hiff in Hz. unfold begins_keyword.
  destruct (Nat.le_gt_cases 4 (length data)) as [Hge|Hlt].
  - rewrite Nat.min_r in Hz by exact Hge. rewrite Hz.
    rewrite (take_ge (byte_val <$> _)) by (simpl; lia). reflexivity.
  - rewrite Nat.min_l in Hz by lia.
    rewrite (take_ge data 4) by lia. rewrite (take_ge data) in Hz by lia.
    rewrite Hz. clear Hz Hiff Hno.
    destruct (length data) as [|[|[|[|m]]]]; [reflexivity..|lia].
Qed.

Lemma parse_no_lf d cr c rest :
  spells "DONE" d -> c <> LF -> (cr = false -> c <> CR) ->
  Z.of_nat (length (d ++ opt_cr cr ++ c :: rest)) <= SIZE_MAX ->
  parse_buffer (d ++ opt_cr cr ++ c :: rest)
  = Ok (IMAP_CLIENT_INPUT_STATE_BAD, None).
Proof.
  intros Hd Hlf Hcr Hmax. rewrite !length_app in Hmax.
  rewrite (parse_keyword_then d Hd);
    [ | destruct cr; discriminate | rewrite !length_app; exact Hmax ].
  destruct cr; cbn -[size_sub Z.of_nat SIZE_MAX] in *.
  - rewrite drop_0. size_norm. z_tests.
    cbn [rd lookup list_lookup obind].
    rewrite (proj2 (Ascii.eqb_neq c LF)) by assumption. reflexivity.
  - rewrite (proj2 (Ascii.eqb_neq c CR)) by auto. z_tests.
    cbn [rd lookup list_lookup obind].
    rewrite (proj2 (Ascii.eqb_neq c LF)) by assumption. reflexivity.
Qed.

Lemma after_tag_not_space state tag_start c rest :
  c <> SP ->
  parse_after_tag state tag_start (c :: rest, Z.of_nat (length (c :: rest)))
  = Ok (IMAP_CLIENT_INPUT_STATE_BAD, None).
Proof.
  intros Hc. unfold parse_after_tag. simpl length. z_tests.
  cbn [rd lookup list_lookup obind].
  rewrite (proj2 (Ascii.eqb_neq c SP)) by assumption. reflexivity.
Qed.

Lemma after_tag_no_idle state tag_start rest :
  ~ idle_line rest ->
  Z.of_nat (length (SP :: rest)) <= SIZE_MAX ->
  parse_after_tag state tag_start (SP :: rest, Z.of_nat (length (SP :: rest)))
  = Ok (state, None).
Proof.
  intros Hno Hmax. unfold parse_after_tag.
  remember (Z.of_nat (length (SP :: rest))) as size eqn:Hsize.
  simpl length in Hsize. z_tests.
  cbn [rd lookup list_lookup obind drop].
  change (negb (SP =? SP)%char) with false. cbv iota.
  rewrite !drop_0. size_norm.
  destruct (Nat.le_gt_cases (length rest) 4) as [Hle|Hgt].
  { z_tests. reflexivity. }
  z_tests.
  destruct (i_memcasecmp_spec rest (literal "IDLE") 4)
    as (r & -> & Hiff); [lia | simpl; lia |].
  cbn [obind]. destruct (Z.eqb_spec r 0) as [Hz|Hnz]; [|reflexivity].
  cbn [negb]. apply Hiff in Hz.
  assert (Hi : spells "IDLE" (take 4 rest)) by exact Hz.
  rewrite <- (take_drop 4 rest) in Hno.
  assert (Hlen4 : length (drop 4 rest) = (length rest - 4)%nat)
    by apply length_drop.
  destruct (drop 4 rest) as [|x r5]; [simpl in Hlen4; lia|].
  simpl in Hlen4. cbn [rd lookup list_lookup obind].
  destruct (Ascii.eqb_spec x CR) as [->|Hx].
  - cbn [drop]. rewrite drop_0. size_norm.
    destruct r5 as [|y [|z r6]]; simpl in Hlen4.
    + size_norm. z_tests. reflexivity.
    + size_norm. z_tests. cbn [rd lookup list_lookup obind].
      destruct (Ascii.eqb_spec y LF) as [->|Hy]; [|reflexivity].
      exfalso. apply Hno. exists (take 4 rest), true. split; [exact Hi|].
      reflexivity.
    + size_norm. z_tests. reflexivity.
  - destruct r5 as [|y r6]; simpl in Hlen4.
    + size_norm. z_tests. cbn [rd lookup list_lookup obind].
      destruct (Ascii.eqb_spec x LF) as [->|Hy]; [|reflexivity].
      exfalso. apply Hno. exists (take 4 rest), false. split; [exact Hi|].
      reflexivity.
    + size_norm. z_tests. reflexivity.
Qed.

Lemma idle_line_dec rest : idle_line rest \/ ~ idle_line rest.
Proof.
  destruct (decide (i_toupper <$> take 4 rest = byte_val <$> bytes "IDLE"))
    as [Hi|Hni].
  - destruct (decide (drop 4 rest = [LF])) as [Hl|Hnl].
    { left. exists (take 4 rest), false. split; [exact Hi|].
      simpl. rewrite <- Hl. symmetry. apply take_drop. }
    destruct (decide (drop 4 rest = [CR; LF])) as [Hc|Hnc].
    { left. exists (take 4 rest), true. split; [exact Hi|].
      simpl. rewrite <- Hc. symmetry. apply take_drop. }
    right. intros (i & cr2 & Hsp & ->).
    pose proof (spells_length _ _ Hsp) as Hl. simpl in Hl.
    rewrite drop_app_length' in Hnl, Hnc by (symmetry; exact Hl).
    destruct cr2; [apply Hnc | apply Hnl]; reflexivity.
  - right. intros (i & cr2 & Hsp & ->).
    pose proof (spells_length _ _ Hsp) as Hl. simpl in Hl.
    apply Hni. rewrite take_app_length' by (symmetry; exact Hl). exact Hsp.
Qed.

(** Every buffer has one of the shapes, and the parser gives the result of
    that shape. *)
Lemma parse_buffer_shape data :
  Z.of_nat (length data) <= SIZE_MAX ->
  parse_shape data (parse_buffer data).
Proof.
  intros Hmax.
  destruct (decide (i_toupper <$> take 4 data
                    = take (length data) (byte_val <$> bytes "DONE")))
    as [Hb|Hnb]; fold (begins_keyword "DONE" data) in *;
    [|rewrite (parse_mismatch data Hnb); apply shape_mismatch; exact Hnb].
  destruct (Nat.le_gt_cases (length data) 4) as [Hle|Hgt].
  { destruct (keyword_completes data Hle Hb) as (d & Hd & Hdata).
    rewrite Hdata at 1. rewrite Hdata at 2.
    rewrite (parse_keyword_prefix d Hd) by exact Hle.
    apply shape_keyword_prefix; assumption. }
  rewrite <- (take_drop 4 data) in Hb, Hmax |- *.
  assert (Hl4 : length (take 4 data) = 4%nat) by (rewrite length_take; lia).
  apply begins_keyword_long in Hb; [|exact Hl4].
  assert (Hlr : length (drop 4 data) = (length data - 4)%nat)
    by apply length_drop.
  set (d := take 4 data) in *. clearbody d.
  destruct (drop 4 data) as [|c rest]; [simpl in Hlr; lia|]. clear Hlr Hgt.
  (* the end of the DONE line *)
  assert (Hline : forall cr rest2,
    Z.of_nat (length (done_line d cr ++ rest2)) <= SIZE_MAX ->
    parse_shape (done_line d cr ++ rest2)
      (parse_buffer (done_line d cr ++ rest2))).
  { clear Hmax. intros cr rest2 Hmax. pose proof Hb as Hd.
    destruct rest2 as [|x rest3].
    { rewrite app_nil_r, (parse_done_line d Hd). apply shape_line, Hd. }
    destruct (split_at_tag_end (x :: rest3))
      as [Hok | (tag & e & rest4 & Heq & Hok & He)].
    { rewrite (parse_inside_tag_overruns d Hd) by (done || assumption).
      apply shape_overrun; [exact Hd | discriminate | exact Hok]. }
    rewrite Heq in *. clear Heq x rest3.
    rewrite (parse_past_line d Hd);
      [ | destruct tag; discriminate | exact Hmax ].
    rewrite skip_tag_stops;
      [ | assumption | assumption | rewrite length_app; lia
        | revert Hmax; rewrite !length_app; lia ].
    replace (Z.of_nat (length (tag ++ e :: rest4)) - Z.of_nat (length tag))
      with (Z.of_nat (length (e :: rest4)))
      by (rewrite length_app; simpl length; lia).
    cbn [obind].
    destruct (decide (e = SP)) as [->|Hsp].
    - destruct (idle_line_dec rest4) as [(i & cr2 & Hi & ->) | Hni].
      + rewrite (after_tag_whole _ tag i cr2 Hi);
          [ | revert Hmax; rewrite !length_app; lia ].
        apply (shape_doneidle d cr tag i cr2); assumption.
      + rewrite after_tag_no_idle;
          [ | exact Hni | revert Hmax; rewrite !length_app; lia ].
        apply shape_no_idle; assumption.
    - rewrite after_tag_not_space by exact Hsp.
      apply shape_tag_end; assumption. }
  destruct (decide (c = LF)) as [->|Hlf].
  { replace (d ++ LF :: rest) with (done_line d false ++ rest) in *
      by (unfold done_line; rewrite <- app_assoc; reflexivity).
    apply (Hline false rest). exact Hmax. }
  destruct (decide (c = CR)) as [->|Hcr].
  - destruct rest as [|x rest2].
    { rewrite (parse_done_cr d Hb). apply shape_cr, Hb. }
    destruct (decide (x = LF)) as [->|Hx].
    + replace (d ++ CR :: LF :: rest2) with (done_line d true ++ rest2) in *
        by (unfold done_line; rewrite <- app_assoc; reflexivity).
      apply (Hline true rest2). exact Hmax.
    + change (d ++ CR :: x :: rest2) with (d ++ opt_cr true ++ x :: rest2)
        in *.
      rewrite parse_no_lf; [ | assumption | assumption | discriminate
                             | exact Hmax ].
      apply shape_no_lf; [assumption | assumption | discriminate].
  - change (d ++ c :: rest) with (d ++ opt_cr false ++ c :: rest) in *.
    rewrite parse_no_lf; [ | assumption | assumption | intros _; exact Hcr
                           | exact Hmax ].
    apply shape_no_lf; [assumption | assumption | intros _; exact Hcr].
Qed.

Lemma done_state_inj cr cr' : done_state cr = done_state cr' -> cr = cr'.
Proof. destruct cr, cr'; (reflexivity || discriminate). Qed.

Lemma done_state_not_unknown cr : done_state cr <> IMAP_CLIENT_INPUT_STATE_UNKNOWN.
Proof. destruct cr; discriminate. Qed.

Lemma done_state_not_doneidle cr :
  done_state cr <> IMAP_CLIENT_INPUT_STATE_DONEIDLE.
Proof. destruct cr; discriminate. Qed.

Lemma done_state_not_bad cr : done_state cr <> IMAP_CLIENT_INPUT_STATE_BAD.
Proof. destruct cr; discriminate. Qed.

(** Inversion of the shape of a buffer on which the parser gave [r]. *)
Ltac shape_cases data Hmax Hres :=
  let Hs := fresh "Hs" in
  pose proof (parse_buffer_shape data Hmax) as Hs;
  rewrite Hres in Hs; inversion Hs; subst;
  try match goal with
    | H : done_state _ = IMAP_CLIENT_INPUT_STATE_UNKNOWN |- _ =>
        exfalso; exact (done_state_not_unknown _ H)
    | H : done_state _ = IMAP_CLIENT_INPUT_STATE_DONEIDLE |- _ =>
        exfalso; exact (done_state_not_doneidle _ H)
    | H : done_state _ = IMAP_CLIENT_INPUT_STATE_BAD |- _ =>
        exfalso; exact (done_state_not_bad _ H)
    | H : IMAP_CLIENT_INPUT_STATE_UNKNOWN = done_state _ |- _ =>
        exfalso; exact (done_state_not_unknown _ (eq_sym H))
    | H : IMAP_CLIENT_INPUT_STATE_DONEIDLE = done_state _ |- _ =>
        exfalso; exact (done_state_not_doneidle _ (eq_sym H))
    | H : IMAP_CLIENT_INPUT_STATE_BAD = done_state _ |- _ =>
        exfalso; exact (done_state_not_bad _ (eq_sym H))
    end.

(** X1.  When the parser answers DONE_LF or DONE_CRLF, the buffer begins with
    the line [DONE\n], respectively [DONE\r\n], in some mix of cases, no tag
    is returned, and the line has the five, respectively six, bytes the read
    handler then skips. *)
Theorem parse_done_is_a_done_line (data : list ascii) (cr : bool)
    (tag_r : option (list ascii)) :
  Z.of_nat (length data) <= SIZE_MAX ->
  parse_buffer data = Ok (done_state cr, tag_r) ->
  exists d rest,
    spells "DONE" d /\ data = done_line d cr ++ rest /\ tag_r = None
    /\ length (done_line d cr) = (if cr then 4 + 2 else 4 + 1)%nat.
Proof.
  intros Hmax Hres. 
  assert (Hlen : forall d, spells "DONE" d ->
            length (done_line d cr) = (if cr then 4 + 2 else 4 + 1)%nat).
  { intros d Hd. unfold done_line. rewrite !length_app, (spells_length _ _ Hd).
    destruct cr; reflexivity. }
  shape_cases data Hmax Hres.
  - match goal with H : done_state _ = done_state _ |- _ =>
      apply done_state_inj in H; subst end.
    eexists d, []. rewrite app_nil_r. auto.
  - match goal with H : done_state _ = done_state _ |- _ =>
      apply done_state_inj in H; subst end.
    eexists d, _. auto.
Qed.

Lemma parse_done_is_a_done_line_witness :
  exists d rest,
    spells "DONE" d /\ done_crlf = done_line d true ++ rest
    /\ @None (list ascii) = None
    /\ length (done_line d true) = (4 + 2)%nat.
Proof.
  apply (parse_done_is_a_done_line done_crlf true None).
  - vm_compute. discriminate.
  - vm_compute. reflexivity.
Defined.

(** X2.  The parser answers DONEIDLE exactly on the buffers that are a DONE
    line, a tag without space, CR or TAB, one space, the keyword IDLE and
    the end of the line, and nothing more; the tag it returns is that tag,
    up to its first NUL byte. *)
Theorem parse_doneidle_iff (data : list ascii) (tag_r : option (list ascii)) :
  Z.of_nat (length data) <= SIZE_MAX ->
  parse_buffer data = Ok (IMAP_CLIENT_INPUT_STATE_DONEIDLE, tag_r)
  <-> exists d cr tag i cr2,
        spells "DONE" d /\ tag_ok tag /\ spells "IDLE" i
        /\ data = doneidle_seq d cr tag i cr2
        /\ tag_r = Some (c_str tag).
Proof.
  intros Hmax. split.
  - intros Hres. shape_cases data Hmax Hres.
    exists d, cr, tg, i, cr2. auto.
  - intros (d & cr & tag & i & cr2 & Hd & Htag & Hi & -> & ->).
    pose proof (parse_buffer_shape _ Hmax) as Hs.
    unfold doneidle_seq in *.
    change (tag ++ [SP] ++ i ++ opt_cr cr2 ++ [LF])
      with (tag ++ SP :: (i ++ opt_cr cr2 ++ [LF])) in *.
    rewrite (parse_past_line d Hd);
      [ | destruct tag; discriminate | exact Hmax ].
    rewrite skip_tag_stops;
      [ | assumption | reflexivity | rewrite length_app; lia
        | revert Hmax; rewrite !length_app; lia ].
    replace (Z.of_nat (length (tag ++ SP :: (i ++ opt_cr cr2 ++ [LF])))
             - Z.of_nat (length tag))
      with (Z.of_nat (length (SP :: i ++ opt_cr cr2 ++ [LF])))
      by (rewrite length_app; simpl length; lia).
    cbn [obind]. apply (after_tag_whole _ tag i cr2 Hi).
    revert Hmax. rewrite !length_app. lia.
Qed.

Lemma parse_doneidle_iff_witness :
  parse_buffer done_idle_a001
  = Ok (IMAP_CLIENT_INPUT_STATE_DONEIDLE, Some (bytes "A001"))
  <-> exists d cr tag i cr2,
        spells "DONE" d /\ tag_ok tag /\ spells "IDLE" i
        /\ done_idle_a001 = doneidle_seq d cr tag i cr2
        /\ Some (bytes "A001") = Some (c_str tag).
Proof.
  apply (parse_doneidle_iff done_idle_a001 (Some (bytes "A001"))).
  vm_compute. discriminate.
Defined.

(** X3.  The parser asks for more input exactly on the buffers that are a
    beginning of [DONE\r], in some mix of cases: the empty buffer included,
    the line feed excluded. *)
Theorem parse_need_more_iff (data : list ascii) :
  Z.of_nat (length data) <= SIZE_MAX ->
  (exists tag_r,
     parse_buffer data = Ok (IMAP_CLIENT_INPUT_STATE_UNKNOWN, tag_r))
  <-> exists d, spells "DONE" d /\ data `prefix_of` d ++ [CR].
Proof.
  intros Hmax. split.
  - intros [tag_r Hres]. shape_cases data Hmax Hres.
    + exists d. split; [assumption|].
      apply prefix_app_r. exists (drop k d). symmetry. apply take_drop.
    + exists d. split; [assumption | reflexivity].
  - intros (d & Hd & [q Hq]). exists None.
    pose proof (spells_length _ _ Hd) as Hl. simpl in Hl.
    destruct (Nat.le_gt_cases (length data) 4) as [Hle|Hgt].
    + destruct (app_split_le data q d [CR]) as (x & Hx & _);
        [symmetry; exact Hq | lia |].
      assert (Hdata : data = take (length data) d)
        by (rewrite Hx, take_app_length; reflexivity).
      rewrite Hdata. apply (parse_keyword_prefix d Hd). exact Hle.
    + assert (q = []) as ->.
      { apply (f_equal length) in Hq. rewrite !length_app in Hq.
        simpl in Hq. destruct q; [reflexivity | simpl in Hq; lia]. }
      rewrite app_nil_r in Hq. subst data. apply (parse_done_cr d Hd).
Qed.

Lemma parse_need_more_iff_witness :
  (exists tag_r,
     parse_buffer (bytes "DON")
     = Ok (IMAP_CLIENT_INPUT_STATE_UNKNOWN, tag_r))
  <-> exists d, spells "DONE" d /\ bytes "DON" `prefix_of` d ++ [CR].
Proof.
  apply (parse_need_more_iff (bytes "DON")). vm_compute. discriminate.
Defined.

(** X4.  The parser answers BAD exactly in three cases: the buffer does not
    begin with DONE, as far as it goes; or DONE, with or without a carriage
    return, is followed by a byte that does not end the line; or the tag
    after the DONE line is ended by a carriage return or a tab. *)
Theorem parse_bad_iff (data : list ascii) :
  Z.of_nat (length data) <= SIZE_MAX ->
  (exists tag_r, parse_buffer data = Ok (IMAP_CLIENT_INPUT_STATE_BAD, tag_r))
  <-> ~ begins_keyword "DONE" data
      \/ (exists d cr c rest,
            spells "DONE" d /\ c <> LF /\ (cr = false -> c <> CR)
            /\ data = d ++ opt_cr cr ++ c :: rest)
      \/ (exists d cr tag c rest,
            spells "DONE" d /\ tag_ok tag /\ ends_tag c = true /\ c <> SP
            /\ data = done_line d cr ++ tag ++ c :: rest).
Proof.
  intros Hmax. split.
  - intros [tag_r Hres]. shape_cases data Hmax Hres.
    + left. assumption.
    + right. left. exists d, cr, c, rest. auto.
    + right. right. exists d, cr, tg, c, rest. auto.
  - intros [Hno | [(d & cr & c & rest & Hd & Hlf & Hcr & ->)
                  | (d & cr & tag & c & rest & Hd & Htag & Hc & Hsp & ->)]];
      exists None.
    + apply parse_mismatch. exact Hno.
    + apply parse_no_lf; assumption.
    + rewrite (parse_past_line d Hd);
        [ | destruct tag; discriminate | exact Hmax ].
      rewrite skip_tag_stops;
        [ | assumption | assumption | rewrite length_app; lia
          | revert Hmax; rewrite !length_app; lia ].
      replace (Z.of_nat (length (tag ++ c :: rest)) - Z.of_nat (length tag))
        with (Z.of_nat (length (c :: rest)))
        by (rewrite length_app; simpl length; lia).
      cbn [obind]. apply after_tag_not_space. exact Hsp.
Qed.

Lemma parse_bad_iff_witness :
  (exists tag_r,
     parse_buffer (bytes "NOOP") = Ok (IMAP_CLIENT_INPUT_STATE_BAD, tag_r))
  <-> ~ begins_keyword "DONE" (bytes "NOOP")
      \/ (exists d cr c rest,
            spells "DONE" d /\ c <> LF /\ (cr = false -> c <> CR)
            /\ bytes "NOOP" = d ++ opt_cr cr ++ c :: rest)
      \/ (exists d cr tag c rest,
            spells "DONE" d /\ tag_ok tag /\ ends_tag c = true /\ c <> SP
            /\ bytes "NOOP" = done_line d cr ++ tag ++ c :: rest).
Proof.
  apply (parse_bad_iff (bytes "NOOP")). vm_compute. discriminate.
Defined.

(** X5.  The parser reads past the end of its buffer exactly when the buffer
    is a DONE line followed by a tag, of one byte or more, that nothing
    ends. *)
Theorem parse_overread_iff (data : list ascii) :
  Z.of_nat (length data) <= SIZE_MAX ->
  parse_buffer data = OutOfRange
  <-> exists d cr tag,
        spells "DONE" d /\ tag <> [] /\ tag_ok tag
        /\ data = done_line d cr ++ tag.
Proof.
  intros Hmax. split.
  - intros Hres. shape_cases data Hmax Hres. exists d, cr, tg. auto.
  - intros (d & cr & tag & Hd & Hne & Htag & ->).
    apply (parse_inside_tag_overruns d Hd); assumption.
Qed.

Lemma parse_overread_iff_witness :
  parse_buffer (done_crlf ++ bytes "A001") = OutOfRange
  <-> exists d cr tag,
        spells "DONE" d /\ tag <> [] /\ tag_ok tag
        /\ done_crlf ++ bytes "A001" = done_line d cr ++ tag.
Proof.
  apply (parse_overread_iff (done_crlf ++ bytes "A001")).
  vm_compute. discriminate.
Defined.

(** ** Invariants of the event loop, in general *)

Section Preservation.

(** A property of the state that the building blocks of the callbacks
    keep. *)
Variable P : core -> Prop.
Hypothesis P_emit : forall es w, P w -> P (emit es w).
Hypothesis P_modify :
  forall p f w,
    (forall c, unhibernate_queued (f c) = unhibernate_queued c) ->
    P w -> P (modify p f w).
Hypothesis P_destroy :
  forall p reason w, P w -> P (imap_client_destroy p reason w).
Hypothesis P_try_move_back :
  forall e p w, P w -> P (fst (imap_client_try_move_back e p w)).
Hypothesis P_move_back :
  forall e p w, P w -> P (imap_client_move_back e p w).
Hypothesis P_tick_end :
  forall w, unhibernate_queue w = [] -> P w -> P (set_to_unhibernate false w).
Hypothesis P_create :
  forall p fd st anvil_ok w,
    heap w !! p = None -> P w -> P (imap_client_create p fd st anvil_ok w).
Hypothesis P_clock : forall now w, P w -> P (set_ioloop_time now w).

Ltac kept :=
  repeat first
    [ assumption
    | apply P_emit | apply P_destroy | apply P_move_back
    | apply P_clock
    | apply P_modify; [intros ?; reflexivity|] ].

Lemma kept_add_keepalive p w :
  P w -> P (imap_client_add_idle_keepalive_timeout p w).
Proof.
  intros HP. unfold imap_client_add_idle_keepalive_timeout.
  destruct (heap w !! p); [|exact HP]. destruct (_ =? 0); kept.
Qed.

Lemma kept_send_str ret p str w : P w -> P (o_stream_send_str ret p str w).
Proof.
  intros HP. unfold o_stream_send_str.
  destruct (heap w !! p); [|exact HP]. destruct (ret <? 0); kept.
Qed.

Lemma kept_input_idle_cmd e p w w' :
  P w -> imap_client_input_idle_cmd e p w = Some w' -> P w'.
Proof.
  intros HP. unfold imap_client_input_idle_cmd, imap_client_disconnected,
    i_stream_skip.
  destruct (heap w !! p) as [c|]; [|intros [= <-]; exact HP].
  destruct (_ =? 0).
  { intros [= <-]. destruct (_ <? 0); kept. }
  destruct (imap_client_input_parse _ _) as [[[] tg]|];
    cbn [mbind option_bind];
    try discriminate; try (intros [= <-]; kept).
  destruct tg as [new_tag|]; cbn [mbind option_bind]; [|discriminate].
  destruct (env_flush_ret e >? 0).
  - destruct (env_send_ret e <? 0);
      [intros [= <-]; kept; apply kept_send_str; kept|].
    destruct (negb _); intros [= <-]; kept;
      try apply kept_add_keepalive; kept; apply kept_send_str; kept.
  - destruct (env_flush_ret e <? 0); [intros [= <-]; kept|].
    destruct (negb _); intros [= <-]; kept.
    apply kept_add_keepalive. kept.
Qed.

Lemma kept_input_nonidle e p w : P w -> P (imap_client_input_nonidle e p w).
Proof.
  intros HP. unfold imap_client_input_nonidle, imap_client_disconnected.
  destruct (heap w !! p); [|exact HP]. destruct (_ <? 0); kept.
Qed.

Lemma kept_keepalive_timeout e p w w' :
  P w -> keepalive_timeout e p w = Some w' -> P w'.
Proof.
  intros HP. unfold keepalive_timeout, imap_client_disconnected.
  destruct (env_flush_ret e <? 0); [intros [= <-]; kept|].
  destruct (env_flush_ret e =? 0); [intros [= <-]; kept|].
  destruct (env_send_ret e <? 0);
    [intros [= <-]; kept; apply kept_send_str; kept|].
  destruct (_ =? _); [intros [= <-] | discriminate].
  apply kept_add_keepalive, kept_send_str. exact HP.
Qed.

Lemma kept_send_callback e p w w' :
  P w -> imap_client_move_back_send_callback e p w = Some w' -> P w'.
Proof.
  intros HP. unfold imap_client_move_back_send_callback,
    imap_client_unhibernate_failed.
  destruct (heap w !! p); [|intros [= <-]; exact HP].
  destruct (negb _); [discriminate|].
  destruct (_ <? 0); [intros [= <-]; kept|].
  destruct (_ >? 0); [intros [= <-]; kept | discriminate].
Qed.

Lemma kept_read_callback p line w :
  P w -> P (imap_client_move_back_read_callback p line w).
Proof.
  intros HP. unfold imap_client_move_back_read_callback,
    imap_client_unhibernate_failed.
  destruct (negb _); kept.
Qed.

Lemma kept_kick p shutdown w : P w -> P (imap_client_kick p shutdown w).
Proof.
  intros HP. unfold imap_client_kick. destruct (heap w !! p); kept.
Qed.

Lemma kept_kick_loop user guid clients count w :
  P w -> P (fst (kick_loop user guid clients count w)).
Proof.
  revert w. induction clients as [|p l IH]; intros w HP; simpl; [exact HP|].
  apply IH. destruct (heap w !! p) as [c|]; [|exact HP].
  destruct (kick_matches user guid c); [apply kept_kick|]; exact HP.
Qed.

Lemma kept_add_notify_fds p fds w :
  P w ->
  P (foldl (fun w nfd => imap_client_add_notify_fd p nfd w) w fds).
Proof.
  revert w. induction fds as [|nfd fds IH]; intros w HP; simpl; [exact HP|].
  apply IH. unfold imap_client_add_notify_fd. kept.
Qed.

Lemma kept_create_finish p w : P w -> P (imap_client_create_finish p w).
Proof.
  intros HP. unfold imap_client_create_finish. kept.
  apply kept_add_keepalive. kept.
Qed.

Lemma kept_unhibernate_loop fuel env w w' :
  P w -> unhibernate_loop fuel env w = Some w' -> P w'.
Proof.
  revert w. induction fuel as [|fuel IH]; intros w HP; simpl.
  - destruct (unhibernate_queue w) eqn:Hq; [|discriminate]. simpl.
    intros [= <-]. apply P_tick_end; assumption.
  - destruct (unhibernate_queue w) as [|p q] eqn:Hq; simpl.
    { intros [= <-]. apply P_tick_end; assumption. }
    pose proof (P_try_move_back (env p) p w HP) as HP1.
    destruct (imap_client_try_move_back (env p) p w) as [w1 moved].
    cbn [fst] in HP1. destruct moved; [apply IH; exact HP1|].
    intros [= <-]. exact HP1.
Qed.

Lemma kept_handle ev w w' : P w -> handle ev w = Some w' -> P w'.
Proof.
  intros HP. destruct ev; simpl.
  - destruct (heap w !! client) eqn:H; [discriminate|]. intros [= <-].
    apply kept_create_finish, kept_add_notify_fds, P_create; assumption.
  - destruct (heap w !! client) as [c|]; [|discriminate].
    destruct (idle_cmd (state c)).
    + apply kept_input_idle_cmd. exact HP.
    + intros [= <-]. apply kept_input_nonidle. exact HP.
  - destruct (heap w !! client); [|discriminate]. intros [= <-].
    apply P_move_back. exact HP.
  - destruct (heap w !! client); [|discriminate].
    apply kept_keepalive_timeout. exact HP.
  - apply kept_unhibernate_loop. exact HP.
  - destruct (heap w !! client); [|discriminate].
    apply kept_send_callback. exact HP.
  - destruct (heap w !! client); [|discriminate]. intros [= <-].
    apply kept_read_callback. exact HP.
  - intros [= <-]. apply kept_kick_loop. exact HP.
  - intros [= <-]. apply P_clock. exact HP.
Qed.

Lemma kept_reachable w :
  (forall now, P (imap_clients_init now)) -> reachable w -> P w.
Proof.
  intros Hinit. induction 1 as [now | w ev w' _ IH Hstep].
  - apply Hinit.
  - apply (kept_handle ev w); assumption.
Qed.

End Preservation.

(** ** The registry holds the live sessions *)

Lemma reg_frame w w' :
  imap_clients w' = imap_clients w ->
  (forall p, is_Some (heap w' !! p) <-> is_Some (heap w !! p)) ->
  reg_inv w -> reg_inv w'.
Proof.
  intros Hl Hh [Hnd Hin]. unfold reg_inv. rewrite Hl.
  split; [exact Hnd|]. intros p. rewrite Hh. apply Hin.
Qed.

Lemma reg_emit es w : reg_inv w -> reg_inv (emit es w).
Proof. apply reg_frame; reflexivity. Qed.

Lemma reg_modify p f w : reg_inv w -> reg_inv (modify p f w).
Proof.
  apply reg_frame; [reflexivity|].
  intros q. unfold modify. cbn. rewrite lookup_alter.
  case_decide; [subst|reflexivity].
  destruct (heap w !! q); cbn; split; intros [x Hx]; eauto; discriminate.
Qed.

Lemma reg_stop p w : reg_inv w -> reg_inv (imap_client_stop p w).
Proof.
  intros Hinv. destruct (heap w !! p) as [c|] eqn:H.
  - rewrite (stop_spec p c) by exact H. revert Hinv.
    apply reg_frame; [reflexivity|]. intros q. cbn.
    destruct (decide (q = p)) as [->|Hne].
    + rewrite lookup_insert_eq, H. split; eauto.
    + rewrite lookup_insert_ne by done. reflexivity.
  - unfold imap_client_stop. rewrite H. exact Hinv.
Qed.

Lemma reg_destroy p reason w :
  reg_inv w -> reg_inv (imap_client_destroy p reason w).
Proof.
  intros [Hnd Hin]. destruct (heap w !! p) as [c|] eqn:H.
  - rewrite (destroy_spec p c) by exact H. split; cbn.
    + apply NoDup_filter. exact Hnd.
    + intros q. rewrite list_elem_of_filter, Hin.
      destruct (decide (q = p)) as [->|Hne].
      * rewrite lookup_delete_eq. split; [intros [Hq _]; done|].
        intros [x Hx]. discriminate.
      * rewrite lookup_delete_ne by done. tauto.
  - unfold imap_client_destroy. rewrite H. split; assumption.
Qed.

Lemma reg_try_move_back e p w :
  reg_inv w -> reg_inv (fst (imap_client_try_move_back e p w)).
Proof.
  intros Hinv. unfold imap_client_try_move_back,
    imap_client_unhibernate_failed, imap_client_stop_notify_listening,
    io_remove_client.
  destruct (heap w !! p) as [c|] eqn:H; [|exact Hinv].
  destruct (env_buffer_used e >? 0); cbn [fst]; [apply reg_destroy, Hinv|].
  destruct (env_master_ret e >? 0); cbn [fst].
  { apply reg_stop, reg_modify, reg_emit, Hinv. }
  destruct (_ || _); cbn [fst].
  { apply reg_destroy, reg_emit, reg_emit, Hinv. }
  destruct (input_pending c).
  - destruct (heap _ !! p);
      [|destruct (heap _ !! p);
        repeat first [apply reg_emit | apply reg_modify];
        exact Hinv].
    destruct (heap _ !! p);
      repeat first [apply reg_emit | apply reg_modify];
      exact Hinv.
  - destruct (heap _ !! p);
      repeat first [apply reg_emit | apply reg_modify];
      exact Hinv.
Qed.

Lemma reg_move_back e p w :
  reg_inv w -> reg_inv (imap_client_move_back e p w).
Proof.
  intros Hinv. unfold imap_client_move_back.
  pose proof (reg_try_move_back e p w Hinv) as Hinv1.
  destruct (imap_client_try_move_back e p w) as [w1 moved].
  cbn [fst] in Hinv1. destruct moved; [exact Hinv1|].
  destruct (heap w1 !! p) as [c|]; [|exact Hinv1].
  assert (Hset : forall v w0, reg_inv w0 -> reg_inv (set_to_unhibernate v w0))
    by (intros v w0; apply reg_frame; reflexivity).
  assert (Hadd : forall w0, reg_inv w0 -> reg_inv (priorityq_add p w0))
    by (intros w0; apply reg_frame; reflexivity).
  destruct (move_back_start c =? 0), (unhibernate_queued c);
    match goal with
    | |- reg_inv (if to_unhibernate ?w3 then _ else _) =>
        destruct (to_unhibernate w3)
    end;
    repeat first
      [ exact Hinv1 | apply Hset | apply Hadd
      | apply reg_modify ].
Qed.

Lemma reg_create p fd st anvil_ok w :
  heap w !! p = None -> reg_inv w ->
  reg_inv (imap_client_create p fd st anvil_ok w).
Proof.
  intros Hfresh [Hnd Hin]. unfold imap_client_create. split; cbn.
  - constructor; [|exact Hnd]. rewrite Hin, Hfresh. intros [x Hx].
    discriminate.
  - intros q. rewrite elem_of_cons, Hin.
    destruct (decide (q = p)) as [->|Hne].
    + rewrite lookup_insert_eq. split; eauto.
    + rewrite lookup_insert_ne by done. split; [intros [?|?]|]; tauto.
Qed.

Lemma reg_reachable w : reachable w -> reg_inv w.
Proof.
  apply (kept_reachable reg_inv).
  - apply reg_emit.
  - intros p f w0 _. apply reg_modify.
  - apply reg_destroy.
  - apply reg_try_move_back.
  - apply reg_move_back.
  - intros w0 _. apply reg_frame; reflexivity.
  - apply reg_create.
  - intros now w0. apply reg_frame; reflexivity.
  - intros now. split; cbn; [constructor|]. intros p.
    rewrite lookup_empty. split; [intros Hp; inversion Hp|].
    intros [x Hx]. discriminate.
Qed.

(** ** The retry timer is armed while the queue has a session *)

Lemma timer_frame w w' :
  unhibernate_queue w' = unhibernate_queue w ->
  to_unhibernate w' = to_unhibernate w ->
  timer_inv w -> timer_inv w'.
Proof. unfold timer_inv. intros -> ->. exact id. Qed.

Lemma priorityq_delete_nonempty p q : priorityq_delete p q <> [] -> q <> [].
Proof. destruct q; [simpl; exact id | discriminate]. Qed.

Lemma timer_destroy p reason w :
  timer_inv w -> timer_inv (imap_client_destroy p reason w).
Proof.
  intros Hinv. destruct (heap w !! p) as [c|] eqn:H.
  - rewrite (destroy_spec p c) by exact H. unfold timer_inv. cbn.
    destruct (unhibernate_queued c); intros Hq; apply Hinv;
      [eapply priorityq_delete_nonempty|]; exact Hq.
  - unfold imap_client_destroy. rewrite H. exact Hinv.
Qed.

Lemma timer_try_move_back e p w :
  timer_inv w -> timer_inv (fst (imap_client_try_move_back e p w)).
Proof.
  intros Hinv. unfold timer_inv.
  rewrite try_move_back_timer. intros Hq. apply Hinv.
  destruct (heap w !! p) as [c|] eqn:H.
  - destruct (snd (imap_client_try_move_back e p w)) eqn:Hm.
    + rewrite (try_move_back_moved e p c w H Hm) in Hq.
      destruct (unhibernate_queued c);
        [eapply priorityq_delete_nonempty|]; exact Hq.
    + destruct (try_move_back_live e p w Hm) as (_ & Hsame & _).
      rewrite <- Hsame. exact Hq.
  - revert Hq. unfold imap_client_try_move_back. rewrite H. exact id.
Qed.

Lemma timer_move_back e p w :
  timer_inv w -> timer_inv (imap_client_move_back e p w).
Proof.
  intros Hinv. unfold imap_client_move_back.
  pose proof (timer_try_move_back e p w Hinv) as Hinv1.
  destruct (imap_client_try_move_back e p w) as [w1 moved].
  cbn [fst] in Hinv1. destruct moved; [exact Hinv1|].
  destruct (heap w1 !! p) as [c|]; [|exact Hinv1].
  match goal with
  | |- timer_inv (if to_unhibernate ?w3 then _ else _) =>
      destruct (to_unhibernate w3) eqn:Ht
  end; intros _; [exact Ht | reflexivity].
Qed.

Lemma timer_reachable w : reachable w -> timer_inv w.
Proof.
  apply (kept_reachable timer_inv).
  - intros es w0. apply timer_frame; reflexivity.
  - intros p f w0 _. apply timer_frame; reflexivity.
  - apply timer_destroy.
  - apply timer_try_move_back.
  - apply timer_move_back.
  - intros w0 Hq _ Hne. contradiction.
  - intros p fd st anvil_ok w0 _. apply timer_frame; reflexivity.
  - intros now w0. apply timer_frame; reflexivity.
  - intros now Hne. contradiction.
Qed.

(** ** Kicking sessions *)

Lemma kick_spec p c shutdown w :
  heap w !! p = Some c ->
  imap_client_kick p shutdown w
  = {| heap := delete p (heap w);
       imap_clients := filter (fun q => q <> p) (imap_clients w);
       unhibernate_queue :=
         if unhibernate_queued c
         then priorityq_delete p (unhibernate_queue w)
         else unhibernate_queue w;
       to_unhibernate := to_unhibernate w;
       ioloop_time := ioloop_time w;
       trace :=
         trace w
         ++ E_send (fd c) (bye_text MASTER_SERVICE_SHUTTING_DOWN_MSG)
            :: destroy_effects p c (Some (kick_reason shutdown)) |}.
Proof.
  intros H. unfold imap_client_kick. rewrite H.
  rewrite (destroy_spec p c) by exact H. cbn. rewrite <- app_assoc.
  reflexivity.
Qed.

Lemma kick_heap q shutdown w p :
  heap (imap_client_kick q shutdown w) !! p
  = if decide (p = q) then None else heap w !! p.
Proof.
  destruct (heap w !! q) as [c|] eqn:H.
  - rewrite (kick_spec q c) by exact H. cbn.
    case_decide; [subst; apply lookup_delete_eq|].
    apply lookup_delete_ne. done.
  - unfold imap_client_kick. rewrite H. case_decide; [subst|]; done.
Qed.

Lemma kick_trace q shutdown w :
  trace w `prefix_of` trace (imap_client_kick q shutdown w).
Proof.
  destruct (heap w !! q) as [c|] eqn:H.
  - rewrite (kick_spec q c) by exact H. cbn. apply prefix_app_r. reflexivity.
  - unfold imap_client_kick. rewrite H. reflexivity.
Qed.

Lemma kick_says p c shutdown w :
  heap w !! p = Some c ->
  E_send (fd c) (bye_text MASTER_SERVICE_SHUTTING_DOWN_MSG)
    ∈ trace (imap_client_kick p shutdown w)
  /\ E_disconnected p (kick_reason shutdown)
    ∈ trace (imap_client_kick p shutdown w)
  /\ (fd c <> -1 -> E_close (fd c) ∈ trace (imap_client_kick p shutdown w)).
Proof.
  intros H. rewrite (kick_spec p c) by exact H. cbn [trace].
  split; [|split].
  - apply elem_of_app. right. left.
  - apply elem_of_app. right. right. unfold destroy_effects.
    apply elem_of_app. left. left.
  - intros Hfd. apply elem_of_app. right. right. unfold destroy_effects.
    rewrite !elem_of_app. do 5 right.
    destruct (fd c =? -1) eqn:Hc; [apply Z.eqb_eq in Hc; contradiction|].
    left.
Qed.

Lemma kick_loop_step user guid (w : core) (q : nat) :
  let w1 :=
    match heap w !! q with
    | Some c => if kick_matches user guid c
                then imap_client_kick q false w else w
    | None => w
    end in
  trace w `prefix_of` trace w1
  /\ forall p, heap w1 !! p
     = match heap w !! p with
       | Some c =>
           if bool_decide (p = q) && kick_matches user guid c
           then None else Some c
       | None => None
       end.
Proof.
  cbn zeta. destruct (heap w !! q) as [cq|] eqn:Hq.
  - destruct (kick_matches user guid cq) eqn:Hm.
    + split; [apply kick_trace|]. intros p. rewrite kick_heap.
      case_decide as Hp.
      * subst. rewrite Hq, Hm, bool_decide_eq_true_2 by done. reflexivity.
      * rewrite bool_decide_eq_false_2 by done. destruct (heap w !! p); done.
    + split; [reflexivity|]. intros p. destruct (heap w !! p) as [c|] eqn:Hp;
        [|reflexivity].
      case_bool_decide; [subst|reflexivity].
      rewrite Hq in Hp. injection Hp as <-. rewrite Hm. reflexivity.
  - split; [reflexivity|]. intros p. destruct (heap w !! p) as [c|] eqn:Hp;
      [|reflexivity].
    case_bool_decide; [subst; congruence | reflexivity].
Qed.

Lemma kick_loop_trace user guid clients count w :
  trace w `prefix_of` trace (fst (kick_loop user guid clients count w)).
Proof.
  revert w. induction clients as [|q l IH]; intros w; simpl; [reflexivity|].
  etrans; [|apply IH]. apply (kick_loop_step user guid w q).
Qed.

Lemma kick_loop_heap user guid clients count w p :
  heap (fst (kick_loop user guid clients count w)) !! p
  = match heap w !! p with
    | Some c =>
        if bool_decide (p ∈ clients) && kick_matches user guid c
        then None else Some c
    | None => None
    end.
Proof.
  revert w. induction clients as [|q l IH]; intros w; simpl.
  - destruct (heap w !! p); reflexivity.
  - rewrite IH. rewrite (proj2 (kick_loop_step user guid w q) p).
    destruct (heap w !! p) as [c|]; [|reflexivity].
    destruct (kick_matches user guid c) eqn:Hm.
    + destruct (decide (p = q)) as [->|Hne].
      * rewrite (bool_decide_eq_true_2 (q = q)) by done.
        rewrite (bool_decide_eq_true_2 (q ∈ q :: l)) by left. reflexivity.
      * rewrite (bool_decide_eq_false_2 (p = q)) by done. cbn. rewrite Hm.
        destruct (decide (p ∈ l)) as [Hin|Hin].
        -- rewrite (bool_decide_eq_true_2 (p ∈ l)) by done.
           rewrite (bool_decide_eq_true_2 (p ∈ q :: l)) by (right; done).
           reflexivity.
        -- rewrite (bool_decide_eq_false_2 (p ∈ l)) by done.
           rewrite (bool_decide_eq_false_2 (p ∈ q :: l)); [reflexivity|].
           rewrite elem_of_cons. tauto.
    + rewrite !andb_false_r. cbn. rewrite Hm, !andb_false_r. reflexivity.
Qed.

Lemma kick_loop_says user guid clients count w p c :
  heap w !! p = Some c -> p ∈ clients -> kick_matches user guid c = true ->
  E_send (fd c) (bye_text MASTER_SERVICE_SHUTTING_DOWN_MSG)
    ∈ trace (fst (kick_loop user guid clients count w))
  /\ E_disconnected p MASTER_SERVICE_USER_KICKED_MSG
    ∈ trace (fst (kick_loop user guid clients count w)).
Proof.
  revert w. induction clients as [|q l IH]; intros w H Hin Hm;
    [inversion Hin|].
  simpl. destruct (decide (p = q)) as [->|Hne].
  - rewrite H, Hm.
    destruct (kick_says q c false w H) as (Hs & Hd & _).
    pose proof (kick_loop_trace user guid l count
                  (imap_client_kick q false w)) as Hpre.
    split; eapply elem_of_prefix; eassumption.
  - apply elem_of_cons in Hin as [?|Hin]; [contradiction|].
    apply IH; [|exact Hin | exact Hm].
    rewrite (proj2 (kick_loop_step user guid w q) p), H.
    rewrite bool_decide_eq_false_2 by done. reflexivity.
Qed.

(** ** Shutdown *)

Lemma reg_empty w : reg_inv w -> imap_clients w = [] -> heap w = ∅.
Proof.
  intros [_ Hin] Hl. apply map_empty. intros p.
  destruct (heap w !! p) as [c|] eqn:Hp; [|reflexivity].
  assert (Hp' : p ∈ imap_clients w) by (apply Hin; eauto).
  rewrite Hl in Hp'. inversion Hp'.
Qed.

Lemma filter_ne_absent (p : nat) (l : list nat) :
  p ∉ l -> filter (fun q => q <> p) l = l.
Proof.
  induction l as [|x l IH]; [reflexivity|].
  rewrite not_elem_of_cons. intros [Hne Hp].
  rewrite filter_cons_True by (intros ->; apply Hne; reflexivity).
  rewrite IH by exact Hp. reflexivity.
Qed.

Lemma deinit_loop_done fuel w :
  imap_clients w = [] -> deinit_loop fuel w = Some w.
Proof. intros Hl. destruct fuel; simpl; rewrite Hl; reflexivity. Qed.

Lemma deinit_loop_spec fuel :
  forall w,
    reg_inv w -> queue_inv w ->
    (length (imap_clients w) <= fuel)%nat ->
    exists w',
      deinit_loop fuel w = Some w'
      /\ imap_clients w' = []
      /\ reg_inv w' /\ queue_inv w'
      /\ to_unhibernate w' = to_unhibernate w
      /\ trace w `prefix_of` trace w'
      /\ forall p c, heap w !! p = Some c ->
           E_send (fd c) (bye_text MASTER_SERVICE_SHUTTING_DOWN_MSG)
             ∈ trace w'
           /\ E_disconnected p MASTER_SERVICE_SHUTTING_DOWN_MSG ∈ trace w'
           /\ (fd c <> -1 -> E_close (fd c) ∈ trace w').
Proof.
  assert (Hbase : forall w, reg_inv w -> queue_inv w ->
    imap_clients w = [] ->
    forall p c, heap w !! p = Some c -> False).
  { intros w Hreg Hq Hl p c Hpc.
    rewrite (reg_empty w Hreg Hl), lookup_empty in Hpc. discriminate. }
  induction fuel as [|fuel IH]; intros w Hreg Hq Hlen.
  { assert (Hl : imap_clients w = [])
      by (destruct (imap_clients w); [reflexivity | simpl in Hlen; lia]).
    exists w. split; [apply deinit_loop_done, Hl|].
    repeat (split; [assumption || reflexivity|]).
    intros p c Hpc. destruct (Hbase w Hreg Hq Hl p c Hpc). }
  destruct (imap_clients w) as [|p l] eqn:Hl.
  { exists w. split; [apply deinit_loop_done, Hl|].
    repeat (split; [assumption || reflexivity|]).
    intros p c Hpc. destruct (Hbase w Hreg Hq Hl p c Hpc). }
  simpl. rewrite Hl.
  assert (Hlive : is_Some (heap w !! p)).
  { apply Hreg. rewrite Hl. left. }
  destruct Hlive as [cp Hp].
  assert (Hnd : NoDup (p :: l)) by (rewrite <- Hl; apply Hreg).
  apply NoDup_cons in Hnd as [Hpl Hnd].
  destruct (IH (imap_client_kick p true w)) as (w' & Hrun & Hnil & Hreg'
    & Hq' & Ht & Hpre & Hsay).
  { apply (kept_kick reg_inv reg_emit reg_destroy). exact Hreg. }
  { apply inv_kick. exact Hq. }
  { rewrite (kick_spec p cp) by exact Hp. cbn. rewrite Hl.
    rewrite filter_cons_False by (intros Hne; apply Hne; reflexivity).
    rewrite filter_ne_absent by exact Hpl. simpl in Hlen. lia. }
  exists w'. split; [exact Hrun|].
  repeat (split; [assumption|]).
  split. { rewrite Ht, (kick_spec p cp) by exact Hp. reflexivity. }
  split. { etrans; [apply (kick_trace p true w) | exact Hpre]. }
  intros p0 c Hpc.
  destruct (decide (p0 = p)) as [->|Hne].
  - rewrite Hp in Hpc. injection Hpc as <-.
    destruct (kick_says p cp true w Hp) as (Hs & Hd & Hc).
    repeat split; [| |intros Hfd; specialize (Hc Hfd)];
      eapply elem_of_prefix; eassumption.
  - apply Hsay. rewrite kick_heap. case_decide; [contradiction | exact Hpc].
Qed.

(** ** The three ends of a move-back *)

Lemma move_back_moved e p w :
  snd (imap_client_try_move_back e p w) = true ->
  imap_client_move_back e p w = fst (imap_client_try_move_back e p w).
Proof.
  unfold imap_client_move_back.
  destruct (imap_client_try_move_back e p w) as [w1 moved]. cbn.
  intros ->. reflexivity.
Qed.

Lemma move_back_deferred e p c w :
  heap w !! p = Some c -> defers e (ioloop_time w) c ->
  heap (imap_client_move_back e p w)
  = <[p := enqueued (ioloop_time w) c]> (heap w)
  /\ imap_clients (imap_client_move_back e p w) = imap_clients w
  /\ to_unhibernate (imap_client_move_back e p w) = true
  /\ ioloop_time (imap_client_move_back e p w) = ioloop_time w
  /\ trace (imap_client_move_back e p w) = trace w ++ defer_effects e p c
  /\ (unhibernate_queued c = true ->
      unhibernate_queue (imap_client_move_back e p w) = unhibernate_queue w)
  /\ (unhibernate_queued c = false ->
      exists cmp,
        unhibernate_queue (imap_client_move_back e p w)
        = priorityq_insert cmp p (unhibernate_queue w)).
Proof.
  intros H Hd. unfold imap_client_move_back.
  rewrite (try_move_back_deferred e p c w H Hd).
  cbn [heap ioloop_time]. rewrite lookup_insert_eq.
  assert (Hs : move_back_start (deferred c) = move_back_start c)
    by (unfold deferred; destruct (input_pending c); reflexivity).
  assert (Hq : unhibernate_queued (deferred c) = unhibernate_queued c)
    by (unfold deferred; destruct (input_pending c); reflexivity).
  rewrite Hs, Hq. unfold enqueued.
  destruct (move_back_start c =? 0) eqn:Hz, (unhibernate_queued c) eqn:Hqc;
    match goal with
    | |- context [to_unhibernate ?w1] => destruct (to_unhibernate w1) eqn:Ht
    end;
    unfold priorityq_add, modify, set_heap, set_unhibernate_queue,
      set_to_unhibernate in *; cbn in *;
    (split; [|repeat split; try done; try (intros _; eexists; reflexivity)]).
  all: apply map_eq; intros q; destruct (decide (q = p)) as [->|Hne];
    repeat first
      [ rewrite lookup_alter_eq | rewrite lookup_insert_eq
      | rewrite lookup_alter_ne by done | rewrite lookup_insert_ne by done ];
    try reflexivity; cbn; f_equal.
  all: destruct c as [? ? ? ? ? ? ? ? ? ? ? ? [] ?]; cbn in *; subst;
    try reflexivity.
  all: try (apply Z.eqb_eq in Hz; subst; reflexivity).
Qed.

Lemma enqueued_fields now c :
  same_dialogue c (enqueued now c)
  /\ unhibernate_queued (enqueued now c) = true
  /\ master_conn (enqueued now c) = master_conn c
  /\ move_back_start (enqueued now c)
     = (if move_back_start c =? 0 then now else move_back_start c).
Proof.
  unfold enqueued, deferred, same_dialogue.
  destruct (input_pending c) eqn:Hp; cbn; rewrite ?Hp; repeat split.
Qed.

Lemma handed_fields c :
  same_dialogue c (stopped (set_master_conn true c))
  /\ unhibernate_queued (stopped (set_master_conn true c)) = false
  /\ master_conn (stopped (set_master_conn true c)) = true
  /\ io (stopped (set_master_conn true c)) = false
  /\ to_keepalive (stopped (set_master_conn true c)) = None
  /\ move_back_start (stopped (set_master_conn true c)) = move_back_start c.
Proof. unfold same_dialogue. repeat split. Qed.

Lemma move_back_cases e p c w :
  heap w !! p = Some c ->
  (forall q, q <> p ->
     heap (imap_client_move_back e p w) !! q = heap w !! q)
  /\ ((heap (imap_client_move_back e p w) !! p = None
       /\ (p ∉ imap_clients (imap_client_move_back e p w))
       /\ (0 < env_buffer_used e \/ env_master_ret e < 0
           \/ (env_master_ret e = 0
               /\ imap_move_has_reached_timeout (ioloop_time w) c = true)))
      \/ (heap (imap_client_move_back e p w) !! p
          = Some (stopped (set_master_conn true c))
          /\ env_buffer_used e <= 0 /\ 0 < env_master_ret e)
      \/ (heap (imap_client_move_back e p w) !! p
          = Some (enqueued (ioloop_time w) c)
          /\ defers e (ioloop_time w) c
          /\ to_unhibernate (imap_client_move_back e p w) = true
          /\ (unhibernate_queued c = false \/ p ∈ unhibernate_queue w ->
              p ∈ unhibernate_queue (imap_client_move_back e p w)))).
Proof.
  intros H.
  assert (Hgone : forall reason w0 c0,
    heap w0 !! p = Some c0 -> heap w0 = heap w ->
    imap_clients w0 = imap_clients w ->
    (forall q, q <> p ->
       heap (imap_client_destroy p reason w0) !! q = heap w !! q)
    /\ heap (imap_client_destroy p reason w0) !! p = None
    /\ (p ∉ imap_clients (imap_client_destroy p reason w0))).
  { intros reason w0 c0 H0 Hh Hl. rewrite (destroy_spec p c0) by exact H0.
    cbn. rewrite Hh. split; [intros q Hne; apply lookup_delete_ne; done|].
    split; [apply lookup_delete_eq|].
    rewrite list_elem_of_filter. intros [Hne _]. apply Hne. reflexivity. }
  destruct (Z_lt_le_dec 0 (env_buffer_used e)) as [Hb|Hb].
  { rewrite move_back_moved
      by (rewrite (try_move_back_buffered e p c w) by assumption;
          reflexivity).
    rewrite (try_move_back_buffered e p c w) by assumption. cbn [fst].
    destruct (Hgone (Some IMAP_CLIENT_BUFFER_FULL_ERROR) w c H eq_refl
                eq_refl) as (Hf & Hn & Hr).
    split; [exact Hf|]. left. repeat split; [exact Hn | exact Hr|].
    left. exact Hb. }
  destruct (Z_lt_le_dec 0 (env_master_ret e)) as [Hr|Hr].
  { rewrite move_back_moved
      by (rewrite (try_move_back_success e p c w) by assumption;
          reflexivity).
    rewrite (try_move_back_success e p c w) by assumption. cbn [fst].
    erewrite stop_spec by live H. cbn.
    split.
    - intros q Hne. rewrite lookup_insert_ne, lookup_alter_ne by done.
      reflexivity.
    - right. left. rewrite lookup_insert_eq. repeat split; assumption. }
  assert (Hfail : env_master_ret e < 0
    \/ imap_move_has_reached_timeout (ioloop_time w) c = true ->
    (forall q, q <> p ->
       heap (imap_client_move_back e p w) !! q = heap w !! q)
    /\ heap (imap_client_move_back e p w) !! p = None
    /\ (p ∉ imap_clients (imap_client_move_back e p w))).
  { intros Hf.
    rewrite move_back_moved
      by (rewrite (try_move_back_failed e p c w) by assumption;
          reflexivity).
    rewrite (try_move_back_failed e p c w) by assumption. cbn [fst].
    unfold imap_client_unhibernate_failed.
    apply (Hgone _ _ c); [live H | reflexivity | reflexivity]. }
  destruct (Z_lt_le_dec (env_master_ret e) 0) as [Hn|Hn].
  { destruct Hfail as (Hf & Hg & Hl); [left; exact Hn|].
    split; [exact Hf|]. left. repeat split; [exact Hg | exact Hl|].
    right. left. exact Hn. }
  destruct (imap_move_has_reached_timeout (ioloop_time w) c) eqn:Ht.
  { destruct Hfail as (Hf & Hg & Hl); [right; reflexivity|].
    split; [exact Hf|]. left. repeat split; [exact Hg | exact Hl|].
    right. right. split; [lia | reflexivity]. }
  assert (Hd : defers e (ioloop_time w) c)
    by (repeat split; [assumption | lia | assumption]).
  destruct (move_back_deferred e p c w H Hd)
    as (Hh & _ & Htm & _ & _ & Hq1 & Hq0).
  rewrite Hh. split; [intros q Hne; apply lookup_insert_ne; done|].
  right. right. rewrite lookup_insert_eq.
  repeat split; try assumption; try lia.
  destruct (unhibernate_queued c) eqn:Hqc.
  - intros [Hx|Hin]; [discriminate|]. rewrite Hq1 by reflexivity. exact Hin.
  - intros _. destruct (Hq0 eq_refl) as [cmp ->].
    apply priorityq_insert_in. left. reflexivity.
Qed.

(** ** The end of IDLE in the read handler *)

Lemma parsed_nonempty data st t :
  parse_buffer data = Ok (st, t) -> st <> IMAP_CLIENT_INPUT_STATE_UNKNOWN ->
  (Z.of_nat (length data) =? 0) = false.
Proof.
  destruct data; [|intros _ _; apply Z.eqb_neq; simpl; lia].
  intros [= <- _] Hne. contradiction.
Qed.

Lemma idle_cmd_done e p c w cr t :
  heap w !! p = Some c ->
  parse_buffer (input c ++ env_chunk e) = Ok (done_state cr, t) ->
  imap_client_input_idle_cmd e p w
  = Some (imap_client_move_back e p
            (set_heap
               (<[p := left_idle
                         (drop (if cr then 4 + 2 else 4 + 1)%nat
                            (input c ++ env_chunk e)) c]> (heap w)) w)).
Proof.
  intros H Hp. unfold imap_client_input_idle_cmd. rewrite H.
  rewrite (parsed_nonempty _ _ _ Hp) by (destruct cr; discriminate).
  unfold parse_buffer in Hp. rewrite Hp.
  set (data := input c ++ env_chunk e).
  destruct cr; cbn [done_state mbind option_bind]; f_equal; f_equal;
    unfold i_stream_skip, modify, set_heap, left_idle; cbn; f_equal;
    heap_eq H.
Qed.

Lemma idle_cmd_bad e p c w t :
  heap w !! p = Some c ->
  parse_buffer (input c ++ env_chunk e)
  = Ok (IMAP_CLIENT_INPUT_STATE_BAD, t) ->
  imap_client_input_idle_cmd e p w
  = Some (imap_client_move_back e p
            (set_heap
               (<[p := set_bad_done true
                         (left_idle (input c ++ env_chunk e) c)]> (heap w))
               w)).
Proof.
  intros H Hp. unfold imap_client_input_idle_cmd. rewrite H.
  rewrite (parsed_nonempty _ _ _ Hp) by discriminate.
  unfold parse_buffer in Hp. rewrite Hp.
  set (data := input c ++ env_chunk e).
  cbn [mbind option_bind]; f_equal; f_equal;
    unfold i_stream_skip, modify, set_heap, left_idle; cbn; f_equal;
    heap_eq H.
Qed.

Lemma idle_cmd_need_more e p c w t :
  heap w !! p = Some c -> input c ++ env_chunk e <> [] ->
  parse_buffer (input c ++ env_chunk e)
  = Ok (IMAP_CLIENT_INPUT_STATE_UNKNOWN, t) ->
  imap_client_input_idle_cmd e p w
  = Some (set_heap
            (<[p := set_next_read_threshold
                      (Z.of_nat (length (input c ++ env_chunk e)))
                      (set_input (input c ++ env_chunk e) c)]> (heap w)) w).
Proof.
  intros H Hne Hp. unfold imap_client_input_idle_cmd. rewrite H.
  unfold parse_buffer in Hp. rewrite Hp.
  set (data := input c ++ env_chunk e) in *.
  destruct (Z.of_nat (length data) =? 0) eqn:Hz.
  { apply Z.eqb_eq in Hz. destruct data; [contradiction | simpl in Hz; lia]. }
  cbn [mbind option_bind]; f_equal;
    unfold i_stream_skip, modify, set_heap, left_idle; cbn; f_equal;
    heap_eq H.
Qed.

Lemma input_nonidle_moves e p c w :
  heap w !! p = Some c -> 0 <= env_read_ret e ->
  imap_client_input_nonidle e p w
  = imap_client_move_back e p
      (set_heap
         (<[p := set_input_pending true
                   (set_input (input c ++ env_chunk e) c)]> (heap w)) w).
Proof.
  intros H Hr. unfold imap_client_input_nonidle. rewrite H.
  destruct (env_read_ret e <? 0) eqn:Hl; [apply Z.ltb_lt in Hl; lia|].
  f_equal. unfold modify, set_heap; cbn. f_equal. heap_eq H.
Qed.

Lemma same_dialogue_flag c c' :
  same_dialogue c c' -> handoff_flag c' = handoff_flag c.
Proof.
  intros (Hs & _ & _ & Hb & Hi & _). unfold handoff_flag.
  rewrite Hs, Hb, Hi. reflexivity.
Qed.

Lemma move_back_outcome e p c w :
  heap w !! p = Some c ->
  (unhibernate_queued c = true -> p ∈ unhibernate_queue w) ->
  (forall q, q <> p ->
     heap (imap_client_move_back e p w) !! q = heap w !! q)
  /\ ((heap (imap_client_move_back e p w) !! p = None
       /\ (p ∉ imap_clients (imap_client_move_back e p w))
       /\ (0 < env_buffer_used e \/ env_master_ret e < 0
           \/ (env_master_ret e = 0
               /\ imap_move_has_reached_timeout (ioloop_time w) c = true)))
      \/ exists c',
           heap (imap_client_move_back e p w) !! p = Some c'
           /\ same_dialogue c c'
           /\ env_buffer_used e <= 0
           /\ ((moved_back c' /\ 0 < env_master_ret e
                /\ move_back_start c' = move_back_start c)
               \/ (waits_retry (imap_client_move_back e p w) p c'
                   /\ env_master_ret e = 0
                   /\ imap_move_has_reached_timeout (ioloop_time w) c
                      = false
                   /\ move_back_start c'
                      = (if move_back_start c =? 0 then ioloop_time w
                         else move_back_start c)))).
Proof.
  intros H Hq.
  destruct (move_back_cases e p c w H) as [Hframe Hends].
  split; [exact Hframe|].
  destruct Hends as [Hgone | [(Hc' & Hb & Hr) | (Hc' & Hd & Ht & Hin)]].
  - left. exact Hgone.
  - right. exists (stopped (set_master_conn true c)).
    destruct (handed_fields c) as (Hsame & Hf1 & Hf2 & Hf3 & Hf4 & Hf5).
    split; [exact Hc'|]. split; [exact Hsame|]. split; [exact Hb|].
    left. unfold moved_back. repeat split; assumption.
  - right. exists (enqueued (ioloop_time w) c).
    destruct (enqueued_fields (ioloop_time w) c) as (Hsame & Hf1 & _ & Hf3).
    destruct Hd as (Hb & Hr & Hto).
    split; [exact Hc'|]. split; [exact Hsame|]. split; [exact Hb|].
    right. unfold waits_retry. repeat split; try assumption.
    apply Hin. destruct (unhibernate_queued c); [right; apply Hq|left];
      reflexivity.
Qed.

(** The same after the handler has stored [c2] for the session. *)
Lemma move_back_outcome_after e p c c2 w :
  queue_inv w -> heap w !! p = Some c ->
  unhibernate_queued c2 = unhibernate_queued c ->
  (forall q, q <> p ->
     heap (imap_client_move_back e p (set_heap (<[p := c2]> (heap w)) w))
       !! q = heap w !! q)
  /\ ((heap (imap_client_move_back e p
               (set_heap (<[p := c2]> (heap w)) w)) !! p = None
       /\ (0 < env_buffer_used e \/ env_master_ret e < 0
           \/ (env_master_ret e = 0
               /\ imap_move_has_reached_timeout (ioloop_time w) c2 = true)))
      \/ exists c',
           heap (imap_client_move_back e p
                   (set_heap (<[p := c2]> (heap w)) w)) !! p = Some c'
           /\ same_dialogue c2 c'
           /\ env_buffer_used e <= 0
           /\ ((moved_back c' /\ 0 < env_master_ret e
                /\ move_back_start c' = move_back_start c2)
               \/ (waits_retry
                     (imap_client_move_back e p
                        (set_heap (<[p := c2]> (heap w)) w)) p c'
                   /\ env_master_ret e = 0
                   /\ imap_move_has_reached_timeout (ioloop_time w) c2
                      = false
                   /\ move_back_start c'
                      = (if move_back_start c2 =? 0 then ioloop_time w
                         else move_back_start c2)))).
Proof.
  intros Hinv H Hflag.
  set (w2 := set_heap (<[p := c2]> (heap w)) w).
  assert (H2 : heap w2 !! p = Some c2) by apply lookup_insert_eq.
  assert (Hq2 : unhibernate_queued c2 = true -> p ∈ unhibernate_queue w2).
  { rewrite Hflag. intros Hc. apply Hinv. eauto. }
  destruct (move_back_outcome e p c2 w2 H2 Hq2) as [Hframe Hends].
  split.
  - intros q Hne. rewrite Hframe by exact Hne. apply lookup_insert_ne. done.
  - destruct Hends as [(Hg & _ & Hwhy) | Hlive]; [left | right; exact Hlive].
    split; assumption.
Qed.

(** ** Sessions, registry and retry queue *)

(** X6.  In every reachable state the registry list [imap_clients] holds
    exactly the live sessions, each once, and every session of the retry
    queue is in the registry. *)
Theorem registry_lists_live_sessions (w : core) :
  reachable w ->
  NoDup (imap_clients w)
  /\ (forall p, p ∈ imap_clients w <-> is_Some (heap w !! p))
  /\ unhibernate_queue w ⊆ imap_clients w.
Proof.
  intros Hw. destruct (reg_reachable w Hw) as [Hnd Hin].
  split; [exact Hnd|]. split; [exact Hin|].
  intros p Hp. apply Hin.
  apply (proj2 (reachable_queue_inv w Hw)) in Hp as (c & Hc & _). eauto.
Qed.

Lemma registry_lists_live_sessions_witness :
  NoDup (imap_clients (after two_queued))
  /\ (forall p, p ∈ imap_clients (after two_queued)
                <-> is_Some (heap (after two_queued) !! p))
  /\ unhibernate_queue (after two_queued) ⊆ imap_clients (after two_queued).
Proof.
  apply (registry_lists_live_sessions (after two_queued)).
  apply (run_reachable two_queued boot); [apply reachable_init|].
  vm_compute. reflexivity.
Defined.

(** X7.  In every reachable state the retry timer [to_unhibernate] is armed
    whenever a session waits in the retry queue. *)
Theorem retry_timer_armed (w : core) :
  reachable w -> unhibernate_queue w <> [] -> to_unhibernate w = true.
Proof. intros Hw. exact (timer_reachable w Hw). Qed.

Lemma retry_timer_armed_witness : to_unhibernate (after two_queued) = true.
Proof.
  apply (retry_timer_armed (after two_queued)).
  - apply (run_reachable two_queued boot); [apply reachable_init|].
    vm_compute. reflexivity.
  - vm_compute. discriminate.
Defined.

(** X8.  [imap_clients_kick] destroys exactly the sessions whose user name
    is the given one and whose anvil connection guid is the given one, or
    any when the given guid is empty: such a session leaves the memory and
    the registry, is sent the BYE line, which says "Shutting down", and is
    logged as disconnected with "Kicked"; every other session stays as it
    is. *)
Theorem kick_selects (user : string) (conn_guid : Z) (p : nat)
    (c : imap_client) (w : core) :
  reachable w -> heap w !! p = Some c ->
  let w' := fst (imap_clients_kick user conn_guid w) in
  (kick_matches user conn_guid c = true ->
   heap w' !! p = None /\ (p ∉ imap_clients w')
   /\ E_send (fd c) (bye_text "Shutting down") ∈ trace w'
   /\ E_disconnected p "Kicked" ∈ trace w')
  /\ (kick_matches user conn_guid c = false ->
      heap w' !! p = Some c /\ p ∈ imap_clients w').
Proof.
  intros Hw H w'.
  pose proof (reg_reachable w Hw) as Hreg.
  assert (Hin : p ∈ imap_clients w) by (apply Hreg; eauto).
  assert (Hreg' : reg_inv w').
  { apply (kept_kick_loop reg_inv reg_emit reg_destroy). exact Hreg. }
  assert (Hheap : heap w' !! p
                  = if kick_matches user conn_guid c then None else Some c).
  { subst w'. unfold imap_clients_kick. rewrite kick_loop_heap, H.
    rewrite bool_decide_eq_true_2 by exact Hin. reflexivity. }
  split; intros Hm; rewrite Hm in Hheap.
  - split; [exact Hheap|]. split.
    + intros Hp. apply Hreg' in Hp as [x Hx]. congruence.
    + apply (kick_loop_says user conn_guid (imap_clients w) 0 w p c);
        assumption.
  - split; [exact Hheap|]. apply Hreg'. eauto.
Qed.

Lemma kick_selects_witness :
  heap (fst (imap_clients_kick "alice" 0 (after two_queued))) !! 1%nat = None
  /\ heap (fst (imap_clients_kick "alice" 0 (after two_queued))) !! 2%nat
     = Some (session_at (after two_queued) 2).
Proof.
  assert (Hw : reachable (after two_queued)).
  { apply (run_reachable two_queued boot); [apply reachable_init|].
    vm_compute. reflexivity. }
  split.
  - apply (kick_selects "alice" 0 1 (session_at (after two_queued) 1)
             (after two_queued) Hw); vm_compute; reflexivity.
  - apply (kick_selects "alice" 0 2 (session_at (after two_queued) 2)
             (after two_queued) Hw); vm_compute; reflexivity.
Defined.

(** X9.  From every reachable state [imap_clients_deinit] ends: its loop
    kicks the head of the registry until the registry is empty, and then no
    session is left in memory and none in the retry queue, which is freed
    empty.  Every session that was live has been sent the BYE line, logged
    as disconnected with "Shutting down", and its client descriptor
    closed. *)
Theorem deinit_destroys_every_session (w : core) :
  reachable w ->
  exists w0,
    deinit_loop (length (imap_clients w)) w = Some w0
    /\ imap_clients_deinit w
       = Some (set_unhibernate_queue [] (set_to_unhibernate false w0))
    /\ heap w0 = ∅ /\ imap_clients w0 = [] /\ unhibernate_queue w0 = []
    /\ forall p c, heap w !! p = Some c ->
         E_send (fd c) (bye_text "Shutting down") ∈ trace w0
         /\ E_disconnected p "Shutting down" ∈ trace w0
         /\ (fd c <> -1 -> E_close (fd c) ∈ trace w0).
Proof.
  intros Hw.
  destruct (deinit_loop_spec (length (imap_clients w)) w)
    as (w0 & Hrun & Hnil & Hreg & Hq & _ & _ & Hsay).
  - apply reg_reachable. exact Hw.
  - apply reachable_queue_inv. exact Hw.
  - reflexivity.
  - exists w0. split; [exact Hrun|].
    split; [unfold imap_clients_deinit; rewrite Hrun; reflexivity|].
    assert (Hempty : heap w0 = ∅) by (apply reg_empty; assumption).
    split; [exact Hempty|]. split; [exact Hnil|]. split; [|exact Hsay].
    destruct (unhibernate_queue w0) as [|p q] eqn:Hqueue; [reflexivity|].
    assert (Hp : p ∈ unhibernate_queue w0) by (rewrite Hqueue; left).
    apply (proj2 Hq) in Hp as (c & Hc & _).
    rewrite Hempty, lookup_empty in Hc. discriminate.
Qed.

Lemma deinit_destroys_every_session_witness :
  exists w0,
    imap_clients_deinit (after two_queued)
    = Some (set_unhibernate_queue [] (set_to_unhibernate false w0))
    /\ heap w0 = ∅
    /\ E_disconnected 2 "Shutting down" ∈ trace w0.
Proof.
  destruct (deinit_destroys_every_session (after two_queued))
    as (w0 & _ & Hrun & Hheap & _ & _ & Hsay).
  - apply (run_reachable two_queued boot); [apply reachable_init|].
    vm_compute. reflexivity.
  - exists w0. split; [exact Hrun|]. split; [exact Hheap|].
    apply (Hsay 2%nat (session_at (after two_queued) 2)).
    vm_compute. reflexivity.
Defined.

(** X10.  [imap_client_move_back] on a live session ends in one of three
    ways, and touches no other session.  The session is destroyed: output
    was buffered, or the connection to the master failed, or the master was
    busy after the deadline.  Or it is handed to a master connection, with
    its watcher and keepalive timer removed and out of the retry queue.  Or
    the master was busy before the deadline, and the session waits in the
    retry queue with the retry timer armed, [move_back_start] set to the
    clock if it was zero and kept otherwise.  A session that stays keeps its
    protocol state, descriptor, input and flags, so the flag of its handoff
    record is the same. *)
Theorem move_back_ends (e : io_env) (p : nat) (c : imap_client) (w : core) :
  reachable w -> heap w !! p = Some c ->
  let w' := imap_client_move_back e p w in
  (forall q, q <> p -> heap w' !! q = heap w !! q)
  /\ ((heap w' !! p = None /\ (p ∉ imap_clients w')
       /\ (0 < env_buffer_used e \/ env_master_ret e < 0
           \/ (env_master_ret e = 0
               /\ imap_move_has_reached_timeout (ioloop_time w) c = true)))
      \/ exists c',
           heap w' !! p = Some c'
           /\ same_dialogue c c' /\ handoff_flag c' = handoff_flag c
           /\ env_buffer_used e <= 0
           /\ ((moved_back c' /\ 0 < env_master_ret e
                /\ move_back_start c' = move_back_start c)
               \/ (waits_retry w' p c' /\ env_master_ret e = 0
                   /\ imap_move_has_reached_timeout (ioloop_time w) c = false
                   /\ move_back_start c'
                      = (if move_back_start c =? 0 then ioloop_time w
                         else move_back_start c)))).
Proof.
  intros Hw H w'.
  destruct (move_back_outcome e p c w H) as [Hframe Hends].
  { intros Hq. apply (reachable_queue_inv w Hw). eauto. }
  split; [exact Hframe|].
  destruct Hends as [Hgone | (c' & Hc' & Hsame & Hrest)]; [left; exact Hgone|].
  right. exists c'. split; [exact Hc'|]. split; [exact Hsame|].
  split; [apply same_dialogue_flag; exact Hsame | exact Hrest].
Qed.

Lemma move_back_ends_witness :
  exists c',
    heap (imap_client_move_back env_busy 1 (after one_session)) !! 1%nat
    = Some c'
    /\ waits_retry (imap_client_move_back env_busy 1 (after one_session)) 1 c'
    /\ move_back_start c' = 1000.
Proof.
  destruct (move_back_ends env_busy 1 (session_at (after one_session) 1)
              (after one_session))
    as [_ [(Hgone & _) | (c' & Hc' & _ & _ & _ & Hend)]].
  - apply (run_reachable one_session boot); [apply reachable_init|].
    vm_compute. reflexivity.
  - vm_compute. reflexivity.
  - vm_compute in Hgone. discriminate.
  - exists c'. split; [exact Hc'|].
    destruct Hend as [(_ & Hr & _) | (Hwait & _ & _ & Hs)].
    + vm_compute in Hr. discriminate.
    + split; [exact Hwait | exact Hs].
Defined.

(** X11.  When the input of an idle session parses as a clean DONE line, the
    read handler takes exactly that line, [DONE\n] or [DONE\r\n], out of the
    input stream and moves the session back: what followed the line stays
    in the stream for the imap process, [idle_done] and [input_pending] are
    set, the handoff record gets no flag unless [bad_done] was set before,
    and the session is left destroyed, handed to the master, or waiting in
    the retry queue.  No other session is touched. *)
Theorem idle_done_line_consumed (e : io_env) (p : nat) (c : imap_client)
    (w : core) (cr : bool) (t : option (list ascii)) :
  reachable w -> heap w !! p = Some c ->
  Z.of_nat (length (input c ++ env_chunk e)) <= SIZE_MAX ->
  parse_buffer (input c ++ env_chunk e) = Ok (done_state cr, t) ->
  exists w' d rest,
    imap_client_input_idle_cmd e p w = Some w'
    /\ spells "DONE" d
    /\ input c ++ env_chunk e = done_line d cr ++ rest
    /\ (forall q, q <> p -> heap w' !! q = heap w !! q)
    /\ forall c', heap w' !! p = Some c' ->
         input c' = rest /\ idle_done c' = true /\ input_pending c' = true
         /\ bad_done c' = bad_done c /\ state c' = state c
         /\ (bad_done c = false -> handoff_flag c' = [])
         /\ (moved_back c' \/ waits_retry w' p c').
Proof.
  intros Hw H Hmax Hp.
  assert (Hshape : exists d rest,
    spells "DONE" d /\ input c ++ env_chunk e = done_line d cr ++ rest
    /\ length (done_line d cr) = (if cr then 4 + 2 else 4 + 1)%nat).
  { assert (Hlen : forall d, spells "DONE" d ->
      length (done_line d cr) = (if cr then 4 + 2 else 4 + 1)%nat).
    { intros d Hd. unfold done_line.
      rewrite !length_app, (spells_length _ _ Hd). destruct cr; reflexivity. }
    shape_cases (input c ++ env_chunk e) Hmax Hp;
      match goal with
      | H : done_state _ = done_state _ |- _ =>
          apply done_state_inj in H; subst
      end.
    - exists d, []. rewrite app_nil_r. auto.
    - eexists d, _. auto. }
  destruct Hshape as (d & rest & Hd & Hdata & Hlen).
  rewrite (idle_cmd_done e p c w cr t H Hp).
  assert (Hdrop : drop (if cr then 4 + 2 else 4 + 1)%nat
                    (input c ++ env_chunk e) = rest).
  { rewrite Hdata, <- Hlen. apply drop_app_length. }
  rewrite Hdrop.
  eexists _, d, rest. split; [reflexivity|].
  split; [exact Hd|]. split; [exact Hdata|].
  destruct (move_back_outcome_after e p c (left_idle rest c) w
              (reachable_queue_inv w Hw) H eq_refl) as [Hframe Hends].
  split; [exact Hframe|].
  intros c' Hc'.
  destruct Hends as [[Hgone _] | (c2 & Hc2 & Hsame & _ & Hend)];
    [rewrite Hgone in Hc'; discriminate|].
  rewrite Hc2 in Hc'. injection Hc' as <-.
  pose proof (same_dialogue_flag _ _ Hsame) as Hflag.
  destruct Hsame as (Hs & _ & Hi & Hb & Hdn & Hpend & _).
  repeat (split; [assumption|]).
  split.
  - intros Hbad. rewrite Hflag. unfold handoff_flag, left_idle. cbn.
    rewrite Hbad. reflexivity.
  - destruct Hend as [(Hm & _) | (Hr & _)]; [left | right]; assumption.
Qed.

Lemma idle_done_line_consumed_witness :
  exists w',
    imap_client_input_idle_cmd
      (with_master 1 (with_input done_crlf 1 0 env_busy)) 1
      (after one_session) = Some w'
    /\ forall c', heap w' !! 1%nat = Some c' ->
         idle_done c' = true /\ handoff_flag c' = [].
Proof.
  destruct (idle_done_line_consumed
              (with_master 1 (with_input done_crlf 1 0 env_busy)) 1
              (session_at (after one_session) 1) (after one_session)
              true None)
    as (w' & d & rest & Hrun & _ & _ & _ & Hlive).
  - apply (run_reachable one_session boot); [apply reachable_init|].
    vm_compute. reflexivity.
  - vm_compute. reflexivity.
  - vm_compute. discriminate.
  - vm_compute. reflexivity.
  - exists w'. split; [exact Hrun|]. intros c' Hc'.
    destruct (Hlive c' Hc') as (_ & Hdone & _ & _ & _ & Hflag & _).
    split; [exact Hdone|]. apply Hflag. vm_compute. reflexivity.
Defined.

(** X12.  When the input of an idle session does not parse, the read handler
    consumes nothing and moves the session back with [bad_done] set: the
    whole input stays in the stream for the imap process, and the handoff
    record is flagged "\tbad-done". *)
Theorem idle_bad_input_kept (e : io_env) (p : nat) (c : imap_client)
    (w : core) (t : option (list ascii)) :
  reachable w -> heap w !! p = Some c ->
  parse_buffer (input c ++ env_chunk e)
  = Ok (IMAP_CLIENT_INPUT_STATE_BAD, t) ->
  exists w',
    imap_client_input_idle_cmd e p w = Some w'
    /\ (forall q, q <> p -> heap w' !! q = heap w !! q)
    /\ forall c', heap w' !! p = Some c' ->
         input c' = input c ++ env_chunk e
         /\ bad_done c' = true /\ idle_done c' = true
         /\ input_pending c' = true /\ state c' = state c
         /\ handoff_flag c' = TAB :: bytes "bad-done"
         /\ (moved_back c' \/ waits_retry w' p c').
Proof.
  intros Hw H Hp. rewrite (idle_cmd_bad e p c w t H Hp).
  eexists. split; [reflexivity|].
  destruct (move_back_outcome_after e p c
              (set_bad_done true (left_idle (input c ++ env_chunk e) c)) w
              (reachable_queue_inv w Hw) H eq_refl) as [Hframe Hends].
  split; [exact Hframe|].
  intros c' Hc'.
  destruct Hends as [[Hgone _] | (c2 & Hc2 & Hsame & _ & Hend)];
    [rewrite Hgone in Hc'; discriminate|].
  rewrite Hc2 in Hc'. injection Hc' as <-.
  pose proof (same_dialogue_flag _ _ Hsame) as Hflag.
  destruct Hsame as (Hs & _ & Hi & Hb & Hdn & Hpend & _).
  repeat (split; [assumption|]).
  destruct Hend as [(Hm & _) | (Hr & _)]; [left | right]; assumption.
Qed.

Lemma idle_bad_input_kept_witness :
  exists w',
    imap_client_input_idle_cmd
      (with_master 1 (with_input (bytes "NOOP") 1 0 env_busy)) 1
      (after one_session) = Some w'
    /\ forall c', heap w' !! 1%nat = Some c' ->
         input c' = bytes "NOOP"
         /\ handoff_flag c' = TAB :: bytes "bad-done".
Proof.
  destruct (idle_bad_input_kept
              (with_master 1 (with_input (bytes "NOOP") 1 0 env_busy)) 1
              (session_at (after one_session) 1) (after one_session) None)
    as (w' & Hrun & _ & Hlive).
  - apply (run_reachable one_session boot); [apply reachable_init|].
    vm_compute. reflexivity.
  - vm_compute. reflexivity.
  - vm_compute. reflexivity.
  - exists w'. split; [exact Hrun|]. intros c' Hc'.
    destruct (Hlive c' Hc') as (Hin & _ & _ & _ & _ & Hflag & _).
    split; [exact Hin | exact Hflag].
Defined.

(** X13.  While the input of an idle session is only the beginning of a
    DONE line, the read handler waits: nothing is consumed or written, the
    session stays where it is, and the read threshold becomes the number of
    bytes held, which is at most five. *)
Theorem idle_need_more_waits (e : io_env) (p : nat) (c : imap_client)
    (w : core) (t : option (list ascii)) :
  heap w !! p = Some c -> input c ++ env_chunk e <> [] ->
  Z.of_nat (length (input c ++ env_chunk e)) <= SIZE_MAX ->
  parse_buffer (input c ++ env_chunk e)
  = Ok (IMAP_CLIENT_INPUT_STATE_UNKNOWN, t) ->
  exists w',
    imap_client_input_idle_cmd e p w = Some w'
    /\ heap w'
       = <[p := set_next_read_threshold
                  (Z.of_nat (length (input c ++ env_chunk e)))
                  (set_input (input c ++ env_chunk e) c)]> (heap w)
    /\ trace w' = trace w /\ imap_clients w' = imap_clients w
    /\ unhibernate_queue w' = unhibernate_queue w
    /\ (length (input c ++ env_chunk e) <= 5)%nat.
Proof.
  intros H Hne Hmax Hp. rewrite (idle_cmd_need_more e p c w t H Hne Hp).
  eexists. split; [reflexivity|]. repeat (split; [reflexivity|]).
  shape_cases (input c ++ env_chunk e) Hmax Hp.
  - rewrite length_take. lia.
  - match goal with
    | Hd : spells "DONE" _ |- _ =>
        rewrite length_app, (spells_length _ _ Hd)
    end.
    simpl. lia.
Qed.

Lemma idle_need_more_waits_witness :
  exists w',
    imap_client_input_idle_cmd (with_input (bytes "DON") 1 0 env_busy) 1
      (after one_session) = Some w'
    /\ trace w' = trace (after one_session).
Proof.
  destruct (idle_need_more_waits (with_input (bytes "DON") 1 0 env_busy) 1
              (session_at (after one_session) 1) (after one_session) None)
    as (w' & Hrun & _ & Htr & _).
  - vm_compute. reflexivity.
  - vm_compute. discriminate.
  - vm_compute. discriminate.
  - vm_compute. reflexivity.
  - exists w'. split; [exact Hrun | exact Htr].
Defined.

(** X14.  The first deferral of a session sets its deadline by what woke it:
    a notify wakeup on a session without pending input gives five minutes
    from the clock, client input on a session outside IDLE gives ten
    seconds.  In both cases the session waits in the retry queue. *)
Theorem first_deferral_deadline (e : io_env) (p : nat) (c : imap_client)
    (w : core) :
  reachable w -> heap w !! p = Some c -> move_back_start c = 0 ->
  env_buffer_used e <= 0 -> env_master_ret e = 0 ->
  (exists c',
     heap (imap_client_input_notify e p w) !! p = Some c'
     /\ waits_retry (imap_client_input_notify e p w) p c'
     /\ deadline c'
        = ioloop_time w + (if input_pending c then 10 else (5 * 60)))
  /\ (0 <= env_read_ret e ->
      exists c',
        heap (imap_client_input_nonidle e p w) !! p = Some c'
        /\ waits_retry (imap_client_input_nonidle e p w) p c'
        /\ deadline c' = ioloop_time w + 10).
Proof.
  intros Hw H Hstart Hb Hr.
  pose proof (reachable_queue_inv w Hw) as Hinv.
  split.
  - unfold imap_client_input_notify.
    destruct (move_back_outcome e p c w H) as [_ Hends].
    { intros Hq. apply Hinv. eauto. }
    destruct Hends as [(_ & _ & Hwhy) | (c' & Hc' & Hsame & _ & Hend)].
    { exfalso. destruct Hwhy as [? | [? | [_ Ht]]]; [lia | lia |].
      apply reached_timeout_iff in Ht as [Hnz _]. contradiction. }
    destruct Hend as [(_ & ? & _) | (Hwait & _ & _ & Hs)]; [lia|].
    exists c'. split; [exact Hc'|]. split; [exact Hwait|].
    destruct Hsame as (_ & _ & _ & _ & _ & Hpend & _).
    unfold deadline, timeout_secs. rewrite Hs, Hpend, Hstart.
    destruct (input_pending c); reflexivity.
  - intros Hread. rewrite (input_nonidle_moves e p c w H Hread).
    destruct (move_back_outcome_after e p c
                (set_input_pending true
                   (set_input (input c ++ env_chunk e) c)) w Hinv H eq_refl)
      as [_ Hends].
    destruct Hends as [(_ & Hwhy) | (c' & Hc' & Hsame & _ & Hend)].
    { exfalso. destruct Hwhy as [? | [? | [_ Ht]]]; [lia | lia |].
      apply reached_timeout_iff in Ht as [Hnz _]. cbn in Hnz.
      contradiction. }
    destruct Hend as [(_ & ? & _) | (Hwait & _ & _ & Hs)]; [lia|].
    exists c'. split; [exact Hc'|]. split; [exact Hwait|].
    destruct Hsame as (_ & _ & _ & _ & _ & Hpend & _).
    unfold deadline, timeout_secs. rewrite Hs, Hpend. cbn. rewrite Hstart.
    reflexivity.
Qed.

Lemma first_deferral_deadline_witness :
  exists c',
    heap (imap_client_input_notify env_busy 1 (after one_session)) !! 1%nat
    = Some c'
    /\ deadline c' = 1000 + 5 * 60.
Proof.
  destruct (first_deferral_deadline env_busy 1
              (session_at (after one_session) 1) (after one_session))
    as [(c' & Hc' & _ & Hd) _].
  - apply (run_reachable one_session boot); [apply reachable_init|].
    vm_compute. reflexivity.
  - vm_compute. reflexivity.
  - vm_compute. reflexivity.
  - vm_compute. discriminate.
  - vm_compute. reflexivity.
  - exists c'. split; [exact Hc' | exact Hd].
Defined.

(** ** Stopping twice, and creation *)

Lemma closed_notifys_quiet (l : list imap_client_notify) :
  concat (snd <$> (notify_stop <$> (fst <$> (notify_stop <$> l)))) = []
  /\ fst <$> (notify_stop <$> (fst <$> (notify_stop <$> l)))
     = fst <$> (notify_stop <$> l).
Proof.
  induction l as [|n l [IH1 IH2]]; [split; reflexivity|].
  cbn. rewrite IH1, IH2. split; reflexivity.
Qed.

Lemma stopped_stopped c :
  stop_effects (stopped c) = [] /\ stopped (stopped c) = stopped c.
Proof.
  unfold stop_effects, notify_effects, stopped, closed_notifys. cbn.
  destruct (closed_notifys_quiet (notifys c)) as [-> ->].
  split; reflexivity.
Qed.

(** X15.  [imap_client_stop] is idempotent: on a session that has been
    stopped it finds nothing to take out of the retry queue, no watcher or
    timer to remove and no notify descriptor to close. *)
Theorem stop_twice (p : nat) (w : core) :
  imap_client_stop p (imap_client_stop p w) = imap_client_stop p w.
Proof.
  destruct (heap w !! p) as [c|] eqn:H.
  - rewrite (stop_spec p c w H).
    erewrite stop_spec by (cbn; apply lookup_insert_eq).
    destruct (stopped_stopped c) as [-> ->]. cbn.
    rewrite app_nil_r, insert_insert_eq. reflexivity.
  - unfold imap_client_stop. rewrite H. cbn. rewrite H. reflexivity.
Qed.





(** ** The keepalive timer *)




(** * The retry tick and the deadline *)

(** ** One attempt, seen from outside *)

Lemma retries_app t1 t2 : retries (t1 ++ t2) = retries t1 ++ retries t2.
Proof. unfold retries. apply List.filter_app. Qed.

Lemma notify_effects_no_retry c : retries (notify_effects c) = [].
Proof.
  unfold notify_effects. induction (notifys c) as [|n l IH]; [reflexivity|].
  cbn [fmap list_fmap concat snd notify_stop].
  rewrite retries_app, IH.
  destruct (notify_io n), (notify_fd n =? -1); reflexivity.
Qed.

Lemma stop_effects_no_retry c : retries (stop_effects c) = [].
Proof.
  unfold stop_effects. rewrite retries_app, notify_effects_no_retry.
  destruct (io c); reflexivity.
Qed.

Lemma destroy_effects_no_retry p c reason :
  retries (destroy_effects p c reason) = [].
Proof.
  unfold destroy_effects. rewrite !retries_app, stop_effects_no_retry.
  destruct reason, (anvil_sent (state c)), (master_conn c),
    (shutdown_fd_on_destroy c), (fd c =? -1); reflexivity.
Qed.

Lemma defer_effects_attempt e p c :
  master_inits (defer_effects e p c) = [E_master_init p]
  /\ retries (defer_effects e p c) = [E_retry p (env_master_error e)].
Proof.
  unfold defer_effects.
  rewrite !master_inits_app, !retries_app, notify_effects_no_retry.
  destruct (notify_effects_quiet c) as [_ ->].
  destruct (input_pending c && io c); split; reflexivity.
Qed.

(** An attempt returns FALSE exactly when it defers. *)
Lemma try_move_back_defers_iff e p c w :
  heap w !! p = Some c ->
  snd (imap_client_try_move_back e p w) = false
  <-> defers e (ioloop_time w) c.
Proof.
  intros H. split.
  - intros Hf. destruct (try_move_back_cases e p c w H) as [Hd|Hm];
      [exact Hd | congruence].
  - intros Hd. rewrite (try_move_back_deferred e p c w H Hd). reflexivity.
Qed.

Lemma try_move_back_terminal e p c w :
  heap w !! p = Some c -> ~ defers e (ioloop_time w) c ->
  exists w1 new,
    imap_client_try_move_back e p w = (w1, true)
    /\ trace w1 = trace w ++ new
    /\ master_inits new
       = (if decide (env_buffer_used e <= 0) then [E_master_init p] else [])
    /\ retries new = []
    /\ ioloop_time w1 = ioloop_time w
    /\ (forall q, q <> p -> heap w1 !! q = heap w !! q)
    /\ attempt_ended e p c new w1.
Proof.
  intros H Hnd. unfold attempt_ended.
  destruct (Z_lt_le_dec 0 (env_buffer_used e)) as [Hb|Hb].
  { rewrite (try_move_back_buffered e p c w) by assumption.
    rewrite (destroy_spec p c) by assumption.
    eexists _, (destroy_effects p c (Some IMAP_CLIENT_BUFFER_FULL_ERROR)).
    split; [reflexivity|]. cbn [trace heap ioloop_time].
    split; [reflexivity|].
    rewrite destroy_effects_no_init, destroy_effects_no_retry.
    rewrite decide_False by lia.
    repeat (split; [reflexivity|]).
    split; [intros q Hne; apply lookup_delete_ne; done|].
    split; [|split; intros; lia].
    intros _. split; [apply lookup_delete_eq|].
    unfold destroy_effects. apply elem_of_app. left. left. }
  rewrite decide_True by exact Hb.
  destruct (Z_lt_le_dec 0 (env_master_ret e)) as [Hr|Hr].
  { rewrite (try_move_back_success e p c w) by assumption.
    erewrite stop_spec by live H.
    eexists _, ([E_master_init p] ++ stop_effects (set_master_conn true c)).
    split; [reflexivity|]. cbn [trace emit modify set_heap set_trace].
    split; [rewrite <- app_assoc; reflexivity|].
    rewrite master_inits_app, retries_app, stop_effects_no_retry.
    destruct (stop_effects_quiet (set_master_conn true c)) as [_ ->].
    repeat (split; [reflexivity|]).
    split.
    { intros q Hne. cbn. rewrite lookup_insert_ne, lookup_alter_ne by done.
      reflexivity. }
    split; [intros; lia|]. split; [|intros; lia].
    intros _ _. cbn. apply lookup_insert_eq. }
  assert (Hf : env_master_ret e < 0
               \/ imap_move_has_reached_timeout (ioloop_time w) c = true).
  { destruct (imap_move_has_reached_timeout (ioloop_time w) c) eqn:Ht;
      [right; reflexivity|].
    left. destruct (Z.eq_dec (env_master_ret e) 0) as [Hz|Hz]; [|lia].
    exfalso. apply Hnd. repeat split; assumption. }
  rewrite (try_move_back_failed e p c w) by assumption.
  unfold imap_client_unhibernate_failed.
  erewrite destroy_spec by live H.
  eexists _,
    ([E_master_init p] ++ [E_unhibernate_error p (env_master_error e)]
     ++ destroy_effects p c (Some IMAP_CLIENT_UNHIBERNATE_ERROR)).
  split; [reflexivity|]. cbn [trace emit set_trace heap ioloop_time].
  split; [rewrite <- !app_assoc; reflexivity|].
  rewrite !master_inits_app, !retries_app, destroy_effects_no_init,
    destroy_effects_no_retry.
  repeat (split; [reflexivity|]).
  split; [intros q Hne; apply lookup_delete_ne; done|].
  split; [intros; lia|]. split; [intros; lia|].
  intros _ _. split; [apply lookup_delete_eq|].
  split.
  - apply elem_of_app. right. apply elem_of_app. left. left.
  - apply elem_of_app. right. apply elem_of_app. right.
    unfold destroy_effects. apply elem_of_app. left. left.
Qed.

(** ** One firing of the retry tick *)

Lemma defers_dec e now c : {defers e now c} + {~ defers e now c}.
Proof.
  unfold defers.
  destruct (Z_le_gt_dec (env_buffer_used e) 0) as [Hb|Hb];
    [|right; intros (? & _); lia].
  destruct (Z.eq_dec (env_master_ret e) 0) as [Hr|Hr];
    [|right; intros (_ & ? & _); contradiction].
  destruct (imap_move_has_reached_timeout now c) eqn:Ht;
    [right; intros (_ & _ & ?); discriminate|].
  left. repeat split; assumption.
Qed.

(** The queue up to the first session whose attempt would defer. *)
Lemma split_first_deferral (env : nat -> io_env) (w : core) (l : list nat) :
  exists done rest,
    l = done ++ rest
    /\ (forall x c, x ∈ done -> heap w !! x = Some c ->
          ~ defers (env x) (ioloop_time w) c)
    /\ (forall p q, rest = p :: q ->
          (exists c, heap w !! p = Some c
                     /\ defers (env p) (ioloop_time w) c)
          \/ heap w !! p = None).
Proof.
  induction l as [|x l (done & rest & -> & Hdone & Hrest)].
  - exists [], []. split; [reflexivity|].
    split; [intros x c Hx; inversion Hx | discriminate].
  - destruct (heap w !! x) as [c|] eqn:H.
    + destruct (defers_dec (env x) (ioloop_time w) c) as [Hd|Hn].
      * exists [], (x :: done ++ rest). split; [reflexivity|].
        split; [intros y c' Hy; inversion Hy|].
        intros p q [= <- <-]. left. exists c. split; assumption.
      * exists (x :: done), rest. split; [reflexivity|].
        split; [|exact Hrest].
        intros y c' Hy Hc'. apply elem_of_cons in Hy as [->|Hy].
        -- rewrite H in Hc'. injection Hc' as <-. exact Hn.
        -- apply (Hdone y c' Hy Hc').
    + exists [], (x :: done ++ rest). split; [reflexivity|].
      split; [intros y c' Hy; inversion Hy|].
      intros p q [= <- <-]. right. exact H.
Qed.

Lemma tick_closed (env : nat -> io_env) (done : list nat) :
  forall (rest : list nat) (fuel : nat) (w : core),
    queue_inv w -> unhibernate_queue w = done ++ rest ->
    (length (done ++ rest) <= fuel)%nat ->
    (forall x c, x ∈ done -> heap w !! x = Some c ->
       ~ defers (env x) (ioloop_time w) c) ->
    (forall p q, rest = p :: q ->
       exists c, heap w !! p = Some c /\ defers (env p) (ioloop_time w) c) ->
    exists w' new,
      unhibernate_loop fuel env w = Some w'
      /\ unhibernate_queue w' = rest
      /\ to_unhibernate w'
         = match rest with [] => false | _ :: _ => to_unhibernate w end
      /\ trace w' = trace w ++ new
      /\ master_inits new
         = E_master_init
             <$> (filter (fun x => env_buffer_used (env x) <= 0) done
                  ++ take 1 rest)
      /\ retries new
         = (fun p => E_retry p (env_master_error (env p))) <$> take 1 rest
      /\ (forall x c, x ∈ done -> heap w !! x = Some c ->
            attempt_ended (env x) x c new w')
      /\ (forall p q c, rest = p :: q -> heap w !! p = Some c ->
            heap w' !! p = Some (deferred c))
      /\ (forall y, y ∉ done -> y ∉ take 1 rest ->
            heap w' !! y = heap w !! y).
Proof.
  induction done as [|x done IH]; intros rest fuel w Hinv Hq Hlen Hdone Hrest.
  - simpl in Hq. destruct rest as [|p q].
    + exists (set_to_unhibernate false w), [].
      split; [destruct fuel; simpl; rewrite Hq; reflexivity|].
      split; [exact Hq|]. split; [reflexivity|].
      split; [cbn; rewrite app_nil_r; reflexivity|].
      repeat (split; [reflexivity|]).
      split; [intros x c Hx; inversion Hx|].
      split; [discriminate | reflexivity].
    + destruct (Hrest p q eq_refl) as (c & H & Hd).
      destruct fuel as [|fuel]; [simpl in Hlen; lia|].
      eexists _, (defer_effects (env p) p c).
      split.
      { simpl. rewrite Hq. simpl.
        rewrite (try_move_back_deferred (env p) p c w H Hd). reflexivity. }
      cbn [unhibernate_queue to_unhibernate trace heap].
      split; [exact Hq|]. split; [reflexivity|]. split; [reflexivity|].
      destruct (defer_effects_attempt (env p) p c) as [-> ->].
      split; [reflexivity|]. split; [reflexivity|].
      split; [intros x c' Hx; inversion Hx|].
      split.
      * intros p' q' c' [= <- <-] Hc'. rewrite H in Hc'. injection Hc' as <-.
        apply lookup_insert_eq.
      * intros y _ Hy. apply lookup_insert_ne. intros ->. apply Hy. left.
  - simpl in Hq. destruct fuel as [|fuel]; [simpl in Hlen; lia|].
    assert (Hx : x ∈ unhibernate_queue w) by (rewrite Hq; left).
    pose proof Hinv as [Hnd Hin].
    apply Hin in Hx as (c & H & Hc).
    rewrite Hq in Hnd. apply NoDup_cons in Hnd as [Hfresh Hnd].
    destruct (try_move_back_terminal (env x) x c w H)
      as (w1 & new1 & Htry & Htr & Hinit & Hretry & Hclock & Hframe & Hend).
    { apply (Hdone x c); [left | exact H]. }
    pose proof (inv_try_move_back (env x) x w Hinv) as Hinv1.
    pose proof (try_move_back_timer (env x) x w) as Htimer.
    pose proof (try_move_back_moved (env x) x c w H) as Hmoved.
    rewrite Htry in Hinv1, Htimer, Hmoved. cbn [fst snd] in *.
    specialize (Hmoved eq_refl). rewrite Hc, Hq in Hmoved.
    simpl in Hmoved. rewrite Nat.eqb_refl in Hmoved.
    destruct (IH rest fuel w1 Hinv1 Hmoved) as (w' & new2 & Hrun & Hq' & Ht'
      & Htr' & Hinit' & Hretry' & Hend' & Hdef' & Hframe').
    { simpl in Hlen. lia. }
    { intros y c' Hy Hc'. rewrite Hclock.
      assert (Hne : y <> x).
      { intros ->. apply Hfresh. apply elem_of_app. left. exact Hy. }
      rewrite Hframe in Hc' by exact Hne.
      apply (Hdone y c'); [right; exact Hy | exact Hc']. }
    { intros p q Hr. destruct (Hrest p q Hr) as (c' & Hc' & Hd).
      assert (Hne : p <> x).
      { intros ->. apply Hfresh. apply elem_of_app. right. rewrite Hr. left. }
      exists c'. rewrite Hframe, Hclock by exact Hne. split; assumption. }
    assert (Hxrest : x ∉ take 1 rest).
    { intros Hin1. apply Hfresh. apply elem_of_app. right.
      apply (subseteq_take 1 rest). exact Hin1. }
    assert (Hxdone : x ∉ done).
    { intros Hin1. apply Hfresh. apply elem_of_app. left. exact Hin1. }
    exists w', (new1 ++ new2).
    split; [simpl; rewrite Hq; simpl; rewrite Htry; exact Hrun|].
    split; [exact Hq'|].
    split; [rewrite Ht', Htimer; reflexivity|].
    split; [rewrite Htr', Htr, app_assoc; reflexivity|].
    split.
    { rewrite master_inits_app, Hinit, Hinit'.
      destruct (decide (env_buffer_used (env x) <= 0)) as [Hb|Hb].
      - rewrite filter_cons_True by exact Hb. reflexivity.
      - rewrite filter_cons_False by exact Hb. reflexivity. }
    split; [rewrite retries_app, Hretry, Hretry'; reflexivity|].
    split.
    { intros y c' Hy Hc'. apply elem_of_cons in Hy as [->|Hy].
      - rewrite H in Hc'. injection Hc' as <-.
        unfold attempt_ended in *. rewrite (Hframe' x Hxdone Hxrest).
        destruct Hend as (Hb & Hs & Hf).
        split; [|split].
        + intros Hbuf. destruct (Hb Hbuf) as [Hg Hlog].
          split; [exact Hg|]. apply elem_of_app. left. exact Hlog.
        + exact Hs.
        + intros Hbuf Hret. destruct (Hf Hbuf Hret) as (Hg & Hl1 & Hl2).
          split; [exact Hg|]. split; apply elem_of_app; left; assumption.
      - assert (Hne : y <> x) by (intros ->; contradiction).
        rewrite <- (Hframe y Hne) in Hc'.
        destruct (Hend' y c' Hy Hc') as (Hb & Hs & Hf).
        split; [|split].
        + intros Hbuf. destruct (Hb Hbuf) as [Hg Hlog].
          split; [exact Hg|]. apply elem_of_app. right. exact Hlog.
        + exact Hs.
        + intros Hbuf Hret. destruct (Hf Hbuf Hret) as (Hg & Hl1 & Hl2).
          split; [exact Hg|]. split; apply elem_of_app; right; assumption. }
    split.
    { intros p q c' Hr Hc'.
      assert (Hne : p <> x).
      { intros ->. apply Hfresh. apply elem_of_app. right. rewrite Hr. left. }
      apply (Hdef' p q c' Hr). rewrite Hframe by exact Hne. exact Hc'. }
    intros y Hy Hy1. apply not_elem_of_cons in Hy as [Hne Hy].
    rewrite (Hframe' y Hy Hy1). apply Hframe. exact Hne.
Qed.

(** Every firing, as a whole: the sessions at the front of the queue whose
    attempt does not defer, then the first whose attempt defers, if there
    is one. *)
Lemma tick_spec (env : nat -> io_env) (w : core) :
  queue_inv w ->
  exists done rest w' new,
    unhibernate_queue w = done ++ rest
    /\ (forall x c, x ∈ done -> heap w !! x = Some c ->
          ~ defers (env x) (ioloop_time w) c)
    /\ (forall p q, rest = p :: q ->
          exists c, heap w !! p = Some c
                    /\ defers (env p) (ioloop_time w) c)
    /\ imap_clients_unhibernate env w = Some w'
    /\ unhibernate_queue w' = rest
    /\ to_unhibernate w'
       = match rest with [] => false | _ :: _ => to_unhibernate w end
    /\ trace w' = trace w ++ new
    /\ master_inits new
       = E_master_init
           <$> (filter (fun x => env_buffer_used (env x) <= 0) done
                ++ take 1 rest)
    /\ retries new
       = (fun p => E_retry p (env_master_error (env p))) <$> take 1 rest
    /\ (forall x c, x ∈ done -> heap w !! x = Some c ->
          attempt_ended (env x) x c new w')
    /\ (forall p q c, rest = p :: q -> heap w !! p = Some c ->
          heap w' !! p = Some (deferred c))
    /\ (forall y, y ∉ done -> y ∉ take 1 rest ->
          heap w' !! y = heap w !! y).
Proof.
  intros Hinv.
  destruct (split_first_deferral env w (unhibernate_queue w))
    as (done & rest & Hq & Hdone & Hrest).
  assert (Hrest' : forall p q, rest = p :: q ->
    exists c, heap w !! p = Some c /\ defers (env p) (ioloop_time w) c).
  { intros p q Hr. destruct (Hrest p q Hr) as [Hd | Hnone]; [exact Hd|].
    exfalso. assert (Hp : p ∈ unhibernate_queue w).
    { rewrite Hq, Hr. apply elem_of_app. right. left. }
    apply (proj2 Hinv) in Hp as (c & Hc & _). congruence. }
  destruct (tick_closed env done rest (length (unhibernate_queue w)) w Hinv Hq)
    as (w' & new & Hrun & Hpost); [rewrite Hq; reflexivity | exact Hdone
                                  | exact Hrest' |].
  exists done, rest, w', new. split; [exact Hq|]. split; [exact Hdone|].
  split; [exact Hrest'|]. split; [exact Hrun | exact Hpost].
Qed.

(** C4, as amended.  One firing of the retry tick attempts the head of the
    queue again and again.  An attempt defers, that is
    [imap_client_try_move_back] returns FALSE, exactly when nothing is
    buffered, the master is busy and the deadline of the session has not
    passed.  The firing goes through the sessions at the front of the queue
    whose attempt does not defer, [done], each attempted once and in order:
    a connection to the master is started for each of them that has no
    output buffered, and each is left destroyed or handed to the master, out
    of the queue.  It stops at the first session whose attempt defers: that
    attempt is made, the session stays at the head with the rest of the
    queue behind it, untouched, and the timer stays armed.  When no session
    of the queue would defer, the firing empties the queue and removes the
    timer.  So one firing makes at most one deferring attempt, and any
    number of others. *)
Theorem retry_tick_runs_to_first_deferral (env : nat -> io_env) (w : core) :
  queue_inv w ->
  (forall p c, heap w !! p = Some c ->
     (snd (imap_client_try_move_back (env p) p w) = false
      <-> defers (env p) (ioloop_time w) c))
  /\ exists done rest w' new,
       unhibernate_queue w = done ++ rest
       /\ (forall x c, x ∈ done -> heap w !! x = Some c ->
             ~ defers (env x) (ioloop_time w) c)
       /\ (forall p q, rest = p :: q ->
             exists c, heap w !! p = Some c
                       /\ defers (env p) (ioloop_time w) c)
       /\ imap_clients_unhibernate env w = Some w'
       /\ unhibernate_queue w' = rest
       /\ to_unhibernate w'
          = match rest with [] => false | _ :: _ => to_unhibernate w end
       /\ trace w' = trace w ++ new
       /\ master_inits new
          = E_master_init
              <$> (filter (fun x => env_buffer_used (env x) <= 0) done
                   ++ take 1 rest)
       /\ retries new
          = (fun p => E_retry p (env_master_error (env p))) <$> take 1 rest
       /\ (forall x c, x ∈ done -> heap w !! x = Some c ->
             attempt_ended (env x) x c new w')
       /\ (forall p q c, rest = p :: q -> heap w !! p = Some c ->
             heap w' !! p = Some (deferred c))
       /\ (forall y, y ∉ done -> y ∉ take 1 rest ->
             heap w' !! y = heap w !! y).
Proof.
  intros Hinv. split.
  - intros p c H. apply try_move_back_defers_iff. exact H.
  - apply tick_spec. exact Hinv.
Qed.

Lemma retry_tick_runs_to_first_deferral_witness :
  exists w' new,
    imap_clients_unhibernate (fun _ => with_master (-1) env_busy)
      (after two_queued) = Some w'
    /\ unhibernate_queue w' = [] /\ to_unhibernate w' = false
    /\ trace w' = trace (after two_queued) ++ new
    /\ master_inits new = [E_master_init 1; E_master_init 2]
    /\ retries new = []
    /\ heap w' !! 1%nat = None /\ heap w' !! 2%nat = None.
Proof.
  destruct (retry_tick_runs_to_first_deferral
              (fun _ => with_master (-1) env_busy) (after two_queued))
    as (_ & done & rest & w' & new & Hsplit & _ & Hrest & Hrun & Hq & Ht
        & Htr & Hinit & Hretry & Hend & _).
  - apply reachable_queue_inv, two_queued_reachable.
  - destruct rest as [|p q].
    + rewrite app_nil_r in Hsplit.
      change (unhibernate_queue (after two_queued)) with [1%nat; 2%nat]
        in Hsplit.
      subst done.
      exists w', new. split; [exact Hrun|]. split; [exact Hq|].
      split; [exact Ht|]. split; [exact Htr|].
      split.
      { rewrite Hinit. rewrite !filter_cons_True by (vm_compute; discriminate).
        reflexivity. }
      split; [exact Hretry|].
      split.
      * apply (Hend 1%nat (session_at (after two_queued) 1));
          [left | vm_compute; reflexivity | vm_compute; discriminate
          | vm_compute; discriminate].
      * apply (Hend 2%nat (session_at (after two_queued) 2));
          [right; left | vm_compute; reflexivity | vm_compute; discriminate
          | vm_compute; discriminate].
    + destruct (Hrest p q eq_refl) as (c & _ & _ & Hr & _).
      vm_compute in Hr. discriminate.
Defined.

(** C4 fails as stated: two sessions wait in the queue, the master socket
    takes both connections, and one firing of the tick starts both
    attempts and empties the queue. *)
Lemma retry_tick_batches :
  unhibernate_queue (after two_queued) = [1%nat; 2%nat]
  /\ (w' ← imap_clients_unhibernate (fun _ => with_master 1 env_busy)
             (after two_queued);
      Some (master_inits (drop (length (trace (after two_queued))) (trace w')),
            unhibernate_queue w', to_unhibernate w'))
     = Some ([E_master_init 1; E_master_init 2], [], false).
Proof. split; vm_compute; reflexivity. Qed.



